(** * flow: a shallow embedding of the git-workflow automation tool

    The development follows the TypeScript sources:
    - [JS]: the JavaScript built-ins the sources rely on (strings as
      sequences of code units, the backtracking regular-expression matcher,
      [match], [replace], [split], [includes], [parseInt]);
    - [Linear]: the pure helpers of [workflows/linear.ts];
    - [Release]: [getNextReleaseIncrement] of [workflows/release-workflow.ts];
    - [Config]: [config/config.ts], [config/config-manager.ts] and
      [config/config-validation.ts];
    - [Git]: the branch classifier of [workflows/git.ts];
    - [Commit]: [workflows/commit-workflow.ts], in the two revisions the
      repository holds;
    - [AI]: the control flow of [generateCommitMessage] and
      [generatePRContent] of [workflows/ai.ts];
    - [Branches]: the types of branches of [workflows/git.ts];
    - [ConfigQueries]: the queries of [config/config-manager.ts] and
      [config/config-validation.ts];
    - [ConfigCommands]: [commands/config.ts];
    - [JSNumbers]: [String] on a number, [padStart] and [RegExp.test];
    - [ReleaseFlow]: [startRelease] and [stageRelease] of
      [workflows/release-workflow.ts];
    - [Feature]: the branch names of [workflows/feature-workflow.ts] and
      [workflows/hotfix-workflow.ts];
    - [AIContent]: what [linear_content_schema] of [workflows/ai.ts]
      accepts. *)

From Stdlib Require Import Ascii String List Bool Arith Lia NArith.
Import ListNotations.

(* ===================================================================== *)
(** ** JavaScript built-ins *)
(* ===================================================================== *)

Module JS.

(** A JavaScript string is a sequence of 16-bit code units.  The patterns of
    the sources only distinguish ASCII characters, so the model keeps the
    first 256 code units, one [ascii] each; strings with code units beyond
    that range are outside the model.  The case conversions are the ASCII
    ones: code units above 127 are left alone, where JavaScript would also
    convert the accented letters of Latin-1. *)
Definition jstring := list ascii.

Definition str (s : string) : jstring := list_ascii_of_string s.

Definition jstring_eqb (a b : jstring) : bool :=
  if list_eq_dec ascii_dec a b then true else false.

(** *** Character classes *)

Definition in_range (lo hi : nat) (c : ascii) : bool :=
  (lo <=? nat_of_ascii c) && (nat_of_ascii c <=? hi).

Definition is_upper : ascii -> bool := in_range 65 90.     (* [A-Z] *)
Definition is_lower : ascii -> bool := in_range 97 122.    (* [a-z] *)
Definition is_digit : ascii -> bool := in_range 48 57.     (* \d    *)
Definition is_letter (c : ascii) : bool := is_lower c || is_upper c.
Definition is_alnum (c : ascii) : bool := is_letter c || is_digit c.

Definition is_char (a : ascii) (c : ascii) : bool := Ascii.eqb c a.
Definition not_char (a : ascii) (c : ascii) : bool := negb (Ascii.eqb c a).

(** [toUpperCase] / [toLowerCase] on one code unit. *)
Definition upper_char (c : ascii) : ascii :=
  if is_lower c then ascii_of_nat (nat_of_ascii c - 32) else c.
Definition lower_char (c : ascii) : ascii :=
  if is_upper c then ascii_of_nat (nat_of_ascii c + 32) else c.

Definition toUpperCase (s : jstring) : jstring := map upper_char s.
Definition toLowerCase (s : jstring) : jstring := map lower_char s.

(** A literal character of a pattern compiled with the [i] flag. *)
Definition is_char_i (a : ascii) (c : ascii) : bool :=
  Ascii.eqb (upper_char c) (upper_char a).

(** *** Regular expressions *)

Inductive regex : Type :=
| Chr (p : ascii -> bool)          (* a character or a character class *)
| Eps
| Seq (r1 r2 : regex)
| Alt (r1 r2 : regex)              (* r1|r2 *)
| Plus (r : regex)                 (* r+, greedy *)
| Opt (r : regex)                  (* r?, greedy *)
| Grp (i : nat) (r : regex)        (* the i-th capturing group *)
| Bol                              (* ^  *)
| Eol.                             (* $  *)

(** A literal string, with or without the [i] flag. *)
Fixpoint Lit (s : jstring) : regex :=
  match s with
  | [] => Eps
  | c :: t => Seq (Chr (is_char c)) (Lit t)
  end.

Fixpoint LitI (s : jstring) : regex :=
  match s with
  | [] => Eps
  | c :: t => Seq (Chr (is_char_i c)) (LitI t)
  end.

(** [r1|r2|...|rn] *)
Fixpoint alternatives (rs : list regex) : regex :=
  match rs with
  | [] => Chr (fun _ => false)
  | [r] => r
  | r :: rs' => Alt r (alternatives rs')
  end.

(** The matcher state: the index of the current position, the input that
    remains, and the captures made so far. *)
Record mstate : Type := MState {
  pos : nat;
  rest : jstring;
  caps : nat -> option jstring
}.

Definition no_caps : nat -> option jstring := fun _ => None.

Definition set_cap (i : nat) (v : jstring) (st : mstate) : mstate :=
  {| pos := pos st; rest := rest st;
     caps := fun j => if Nat.eqb j i then Some v else caps st j |}.

Definition orelse {A} (a b : option A) : option A :=
  match a with Some x => Some x | None => b end.

(** The longest prefix of [s] inside the class [p], and what follows it. *)
Fixpoint take_while (p : ascii -> bool) (s : jstring) : jstring :=
  match s with
  | c :: t => if p c then c :: take_while p t else []
  | [] => []
  end.

Fixpoint drop_while (p : ascii -> bool) (s : jstring) : jstring :=
  match s with
  | c :: t => if p c then drop_while p t else s
  | [] => []
  end.

(** The greedy repetition [r+], over the matcher [m] of [r]: one more
    iteration is preferred to leaving the loop.  The count [n] bounds the
    number of iterations that consume input. *)
Definition matcher := mstate -> (mstate -> option mstate) -> option mstate.

Fixpoint plus_loop (m : matcher) (k : mstate -> option mstate) (n : nat)
  (st : mstate) {struct n} : option mstate :=
  match n with
  | 0 => None
  | S n' =>
      m st (fun st' =>
        if length (rest st') <? length (rest st)
        then orelse (plus_loop m k n' st') (k st')
        else k st')
  end.

(** The backtracking matcher of ECMAScript, in continuation-passing style:
    [rmatch r st k] matches [r] at [st] and hands the state it reaches to
    [k]; when [k] fails the next alternative is tried (longer repetitions
    before shorter ones, the left branch of [|] before the right one). *)
Fixpoint rmatch (r : regex) (st : mstate) (k : mstate -> option mstate)
  {struct r} : option mstate :=
  match r with
  | Chr p =>
      match rest st with
      | c :: t => if p c then k {| pos := S (pos st); rest := t; caps := caps st |}
                  else None
      | [] => None
      end
  | Eps => k st
  | Seq r1 r2 => rmatch r1 st (fun st' => rmatch r2 st' k)
  | Alt r1 r2 => orelse (rmatch r1 st k) (rmatch r2 st k)
  | Opt r1 => orelse (rmatch r1 st k) (k st)
  | Plus r1 => plus_loop (rmatch r1) k (S (length (rest st))) st
  | Grp i r1 =>
      rmatch r1 st (fun st' =>
        k (set_cap i (firstn (pos st' - pos st) (rest st)) st'))
  | Bol => if Nat.eqb (pos st) 0 then k st else None
  | Eol => match rest st with [] => k st | _ :: _ => None end
  end.

(** What [rmatch (Plus (Chr p))] computes: the continuation is tried after
    every non-empty run of [p], the longest first. *)
Fixpoint try_runs (p : ascii -> bool) (k : mstate -> option mstate)
  (i : nat) (s : jstring) (cs : nat -> option jstring) : option mstate :=
  match s with
  | c :: t =>
      if p c then orelse (try_runs p k (S i) t cs) (k (MState (S i) t cs))
      else None
  | [] => None
  end.

(** What [rmatch (LitI w)] computes: the input without its prefix [w],
    compared as the [i] flag compares. *)
Fixpoint strip_i (w s : jstring) : option jstring :=
  match w, s with
  | [], _ => Some s
  | a :: w', c :: s' => if is_char_i a c then strip_i w' s' else None
  | _ :: _, [] => None
  end.

(** What an alternation of literals computes: the words are tried in order,
    and a later word is tried when the continuation fails. *)
Fixpoint try_words (ws : list jstring) (st : mstate)
  (k : mstate -> option mstate) : option mstate :=
  match ws with
  | [] => None
  | w :: ws' =>
      orelse
        match strip_i w (rest st) with
        | Some t => k (MState (pos st + length w) t (caps st))
        | None => None
        end
        (try_words ws' st k)
  end.

(** What [rmatch (Lit w)] computes: the input without its prefix [w]. *)
Fixpoint strip (w s : jstring) : option jstring :=
  match w, s with
  | [], _ => Some s
  | a :: w', c :: s' => if is_char a c then strip w' s' else None
  | _ :: _, [] => None
  end.

(** One attempt at a given position. *)
Definition match_here (r : regex) (p : nat) (s : jstring) : option mstate :=
  rmatch r {| pos := p; rest := s; caps := no_caps |} Some.

(** [RegExp.prototype.exec] without the [g] flag: the leftmost position at
    which the pattern matches.  The result is the start index and the final
    matcher state. *)
Fixpoint exec_from (r : regex) (p : nat) (s : jstring) : option (nat * mstate) :=
  match match_here r p s with
  | Some st => Some (p, st)
  | None =>
      match s with
      | [] => None
      | _ :: t => exec_from r (S p) t
      end
  end.

Definition exec (r : regex) (s : jstring) : option (nat * mstate) :=
  exec_from r 0 s.

(** [s.match(r)] for a pattern without the [g] flag; only the captures are
    used by the sources. *)
Definition jmatch (s : jstring) (r : regex) : option (nat -> option jstring) :=
  match exec r s with
  | Some (_, st) => Some (caps st)
  | None => None
  end.

(** [s.replace(r, rep)] for a pattern without the [g] flag: the first match
    is replaced ([rep] has no [$] pattern in the sources). *)
Definition replace_first (s : jstring) (r : regex) (rep : jstring) : jstring :=
  match exec r s with
  | Some (i, st) => firstn i s ++ rep ++ rest st
  | None => s
  end.

(** [s.replace(r, rep)] for a pattern with the [g] flag.  [skip] counts the
    characters of the input that belong to the match just replaced.  After
    an empty match the next character is copied, as ECMAScript does. *)
Fixpoint replace_all_from (r : regex) (rep : jstring) (p : nat) (skip : nat)
  (s : jstring) : jstring :=
  match skip with
  | S skip' =>
      match s with
      | [] => []
      | _ :: t => replace_all_from r rep (S p) skip' t
      end
  | 0 =>
      match match_here r p s with
      | Some st =>
          match pos st - p with
          | 0 => rep ++ match s with
                        | [] => []
                        | c :: t => c :: replace_all_from r rep (S p) 0 t
                        end
          | S n => rep ++ match s with
                          | [] => []
                          | _ :: t => replace_all_from r rep (S p) n t
                          end
          end
      | None =>
          match s with
          | [] => []
          | c :: t => c :: replace_all_from r rep (S p) 0 t
          end
      end
  end.

Definition replace_all (s : jstring) (r : regex) (rep : jstring) : jstring :=
  replace_all_from r rep 0 0 s.

(** [s.split(sep)] for a one-character separator: never empty. *)
Fixpoint split_on (sep : ascii) (s : jstring) : list jstring :=
  match s with
  | [] => [[]]
  | c :: t =>
      if Ascii.eqb c sep then [] :: split_on sep t
      else match split_on sep t with
           | [] => [[c]]
           | w :: ws => (c :: w) :: ws
           end
  end.

Fixpoint starts_with (pre s : jstring) : bool :=
  match pre, s with
  | [], _ => true
  | a :: pre', b :: s' => Ascii.eqb a b && starts_with pre' s'
  | _ :: _, [] => false
  end.

(** [s.includes(sub)] *)
Fixpoint includes (s sub : jstring) : bool :=
  starts_with sub s ||
  match s with
  | [] => false
  | _ :: t => includes t sub
  end.

(** The number of places at which [sub] occurs in [s]. *)
Fixpoint count_sub (sub s : jstring) : nat :=
  (if starts_with sub s then 1 else 0) +
  match s with
  | [] => 0
  | _ :: t => count_sub sub t
  end.

(** [parseInt] on a string of decimal digits: the integer the digits spell.
    The numbers of JavaScript are doubles, which hold that integer when it
    is below 2^53 and the nearest double beyond; the model computes in [N],
    and is the code up to that bound. *)
Definition digit_val (c : ascii) : N := N.of_nat (nat_of_ascii c - 48).

Definition parse_digits (s : jstring) : N :=
  fold_left (fun acc c => (10 * acc + digit_val c)%N) s 0%N.

Definition starts_with_digit (s : jstring) : bool :=
  match s with c :: _ => is_digit c | [] => false end.

(** [Math.max(...l)] for a non-empty list of non-negative numbers. *)
Definition list_max (l : list N) : N := fold_right N.max 0%N l.

(** The line feed. *)
Definition LF : ascii := "010"%char.

#[local] Set Warnings "-register-all".

(** JSON values, as [JSON.parse] builds them.  The fields of an object are
    kept in source order; a later duplicate of a key wins. *)
Inductive json : Type :=
| JNull
| JBool (b : bool)
| JNum (n : N)
| JStr (s : jstring)
| JArr (items : list json)
| JObj (fields : list (jstring * json)).

Fixpoint json_get (k : jstring) (fields : list (jstring * json)) : option json :=
  match fields with
  | [] => None
  | (k', v) :: tl =>
      match json_get k tl with
      | Some v' => Some v'
      | None => if jstring_eqb k' k then Some v else None
      end
  end.

(** A text, seen through [JSON.parse]: it denotes a JSON value or it makes
    the parser throw. *)
Inductive json_text : Type :=
| Malformed (raw : jstring)
| JsonText (j : json).

(** [l.join(sep)] *)
Fixpoint join (sep : jstring) (l : list jstring) : jstring :=
  match l with
  | [] => []
  | [x] => x
  | x :: tl => x ++ sep ++ join sep tl
  end.

(** [s.trim()]: the white space of the first 256 code units. *)
Definition is_space (c : ascii) : bool :=
  let n := nat_of_ascii c in
  ((9 <=? n) && (n <=? 13)) || Nat.eqb n 32 || Nat.eqb n 160.

Definition trim (s : jstring) : jstring :=
  rev (drop_while is_space (rev (drop_while is_space s))).

End JS.

(* ===================================================================== *)
(** ** workflows/linear.ts: the pure helpers *)
(* ===================================================================== *)

Module Linear.
Import JS.

(** [/\/([a-zA-Z]+-\d+)-/] *)
Definition linear_pattern : regex :=
  Seq (Chr (is_char "/"))
    (Seq (Grp 1 (Seq (Plus (Chr is_letter))
                  (Seq (Chr (is_char "-")) (Plus (Chr is_digit)))))
         (Chr (is_char "-"))).

(** [detectLinearIssue]: [null] is [None].  Group 1 takes part in every
    match of the pattern, so the destructuring never yields [undefined]. *)
Definition detectLinearIssue (branch : jstring) : option jstring :=
  match jmatch branch linear_pattern with
  | Some m =>
      match m 1 with
      | Some issue_part => Some (toUpperCase issue_part)
      | None => None
      end
  | None => None
  end.

(** The shape the pattern looks for: a slash, letters, a dash, digits, a
    dash.  [issue_occurrence branch pre l d post] places one in [branch]. *)
Definition issue_occurrence (branch pre l d post : jstring) : Prop :=
  branch = pre ++ str "/" ++ l ++ str "-" ++ d ++ str "-" ++ post /\
  l <> [] /\ forallb is_letter l = true /\
  d <> [] /\ forallb is_digit d = true.

(** The identifier that starts right at the head of [s], if there is one. *)
Definition issue_here (s : jstring) : option jstring :=
  match s with
  | c :: t =>
      if Ascii.eqb c "/" then
        match take_while is_letter t, drop_while is_letter t with
        | (_ :: _) as l, c1 :: t1 =>
            if Ascii.eqb c1 "-" then
              match take_while is_digit t1, drop_while is_digit t1 with
              | (_ :: _) as d, c2 :: _ =>
                  if Ascii.eqb c2 "-" then Some (l ++ str "-" ++ d) else None
              | _, _ => None
              end
            else None
        | _, _ => None
        end
      else None
  | [] => None
  end.

Definition hasLinearPattern (branch : jstring) : bool :=
  match detectLinearIssue branch with Some _ => true | None => false end.

(** The type keywords of the conventional-commit prefix. *)
Definition conventional_types : list jstring :=
  map str ["feat"; "fix"; "docs"; "style"; "refactor"; "test"; "chore";
           "perf"; "ci"; "build"; "revert"]%string.

(** [(\([^)]+\))?: ], the part of the pattern after the type keyword. *)
Definition scope_and_colon : regex :=
  Seq (Opt (Grp 2 (Seq (Chr (is_char_i "("))
                    (Seq (Plus (Chr (not_char ")")))
                         (Chr (is_char_i ")"))))))
      (LitI (str ": ")).

(** [/^(feat|fix|docs|style|refactor|test|chore|perf|ci|build|revert)(\([^)]+\))?: /i] *)
Definition conventional_pattern : regex :=
  Seq Bol
    (Seq (Grp 1 (alternatives (map LitI conventional_types)))
         scope_and_colon).

Definition cleanTitleForLinear (pr_title : jstring) : jstring :=
  replace_first pr_title conventional_pattern [].

(** Two strings that differ at most in the case of their letters. *)
Definition same_ignoring_case (u w : jstring) : Prop :=
  toUpperCase u = toUpperCase w.

(** A scope is empty or a non-empty text in parentheses, without a closing
    parenthesis inside. *)
Definition valid_scope (scope : jstring) : Prop :=
  scope = [] \/
  exists x, scope = str "(" ++ x ++ str ")" /\ x <> [] /\
            forallb (not_char ")") x = true.

(** A conventional-commit prefix: a type keyword in any case, an optional
    scope, a colon and a space. *)
Definition conventional_prefix (pfx : jstring) : Prop :=
  exists ty scope w,
    pfx = ty ++ scope ++ str ": " /\
    In w conventional_types /\ same_ignoring_case ty w /\
    valid_scope scope.

Definition has_conventional_prefix (s : jstring) : Prop :=
  exists pfx tl, s = pfx ++ tl /\ conventional_prefix pfx.

(** [/^([^/]+)\//] *)
Definition username_pattern : regex :=
  Seq Bol (Seq (Grp 1 (Plus (Chr (not_char "/")))) (Chr (is_char "/"))).

(** [/[^a-zA-Z0-9-]/g], [/-+/g] and [/^-|-$/g] *)
Definition special_char (c : ascii) : bool :=
  negb (is_lower c || is_upper c || is_digit c || Ascii.eqb c "-").
Definition special_pattern : regex := Chr special_char.
Definition dashes_pattern : regex := Plus (Chr (is_char "-")).
Definition edge_dash_pattern : regex :=
  Alt (Seq Bol (Chr (is_char "-"))) (Seq (Chr (is_char "-")) Eol).

(** [current_branch.split("/").pop() || "work"]: the empty string is falsy. *)
Definition description_part (current_branch : jstring) : jstring :=
  match last (split_on "/" current_branch) [] with
  | [] => str "work"
  | d => d
  end.

Definition generateLinearBranchName (issue_identifier current_branch : jstring)
  : jstring :=
  let username_match := jmatch current_branch username_pattern in
  let username :=
    match username_match with
    | Some m => match m 1 with Some u => u | None => str "feature" end
    | None => str "feature"
    end in
  let clean_description :=
    replace_all
      (replace_all
         (replace_all (description_part current_branch) special_pattern (str "-"))
         dashes_pattern (str "-"))
      edge_dash_pattern [] in
  let linear_part := toLowerCase issue_identifier in
  username ++ str "/" ++ linear_part ++ str "-" ++ clean_description.

(** The vocabulary of the specification of [generateLinearBranchName]. *)
Definition is_dash : ascii -> bool := is_char "-".

Definition has_slash (b : jstring) : bool := existsb (is_char "/") b.

Definition before_first_slash (b : jstring) : jstring :=
  take_while (not_char "/") b.

Definition after_last_slash (b : jstring) : jstring :=
  rev (take_while (not_char "/") (rev b)).

(** Every run of non-alphanumeric characters becomes one hyphen;
    [in_run] tells that the hyphen of the current run is already out. *)
Fixpoint collapse_runs (in_run : bool) (s : jstring) : jstring :=
  match s with
  | [] => []
  | c :: t =>
      if is_alnum c then c :: collapse_runs false t
      else if in_run then collapse_runs true t
      else "-"%char :: collapse_runs true t
  end.

(** Leading and trailing hyphens removed. *)
Definition trim_hyphens (s : jstring) : jstring :=
  rev (drop_while is_dash (rev (drop_while is_dash s))).

Definition clean_description_spec (d : jstring) : jstring :=
  trim_hyphens (collapse_runs false d).

(** The branch name in the words of the specification. *)
Definition branch_name_as_specified (issue_identifier current_branch : jstring)
  : jstring :=
  (if has_slash current_branch then before_first_slash current_branch
   else str "feature")
  ++ str "/" ++ toLowerCase issue_identifier ++ str "-"
  ++ clean_description_spec (after_last_slash current_branch).

(** The same with the two defaults of the code: the author is "feature" also
    when the branch starts with a slash, and an empty text after the last
    slash is replaced by "work" before it is cleaned. *)
Definition branch_name_with_defaults (issue_identifier current_branch : jstring)
  : jstring :=
  (if has_slash current_branch
   then match before_first_slash current_branch with
        | [] => str "feature"
        | author => author
        end
   else str "feature")
  ++ str "/" ++ toLowerCase issue_identifier ++ str "-"
  ++ clean_description_spec
       (match after_last_slash current_branch with
        | [] => str "work"
        | d => d
        end).

(** What the three [replace] calls compute, one by one. *)
Definition dash_special (c : ascii) : ascii :=
  if special_char c then "-"%char else c.

Fixpoint squeeze_dashes (in_run : bool) (s : jstring) : jstring :=
  match s with
  | [] => []
  | c :: t =>
      if is_dash c then
        if in_run then squeeze_dashes true t
        else "-"%char :: squeeze_dashes true t
      else c :: squeeze_dashes false t
  end.

Fixpoint drop_last_dash (s : jstring) : jstring :=
  match s with
  | [] => []
  | c :: t =>
      match t with
      | [] => if is_dash c then [] else [c]
      | _ :: _ => c :: drop_last_dash t
      end
  end.

Definition drop_edge_dashes (s : jstring) : jstring :=
  match s with
  | c :: t => if is_dash c then drop_last_dash t else drop_last_dash s
  | [] => []
  end.

(** No two hyphens in a row. *)
Fixpoint sparse (s : jstring) : bool :=
  match s with
  | c :: t =>
      match t with
      | c' :: _ => negb (is_dash c && is_dash c') && sparse t
      | [] => true
      end
  | [] => true
  end.

Definition starts_with_dash (s : jstring) : bool :=
  match s with c :: _ => is_dash c | [] => false end.

End Linear.

(* ===================================================================== *)
(** ** workflows/release-workflow.ts: the next release increment *)
(* ===================================================================== *)

Module Release.
Import JS.

(** [/release\/\d+\.(\d+)/] *)
Definition release_pattern : regex :=
  Seq (Lit (str "release/"))
    (Seq (Plus (Chr is_digit))
      (Seq (Chr (is_char "."))
           (Grp 1 (Plus (Chr is_digit))))).

(** [match ? parseInt(match[1]) : 0] *)
Definition increment_of (b : jstring) : N :=
  match jmatch b release_pattern with
  | Some m =>
      match m 1 with
      | Some digits => parse_digits digits
      | None => 0%N
      end
  | None => 0%N
  end.

(** [getNextReleaseIncrement].  [git_branch_r] is what
    [execSync("git branch -r")] yields: the output, or [None] when the
    command throws, which the [catch] turns into 1.  [Math.max] and [+ 1]
    are those of the integers: see [within_number_limits] below for the
    listings on which they are those of the code. *)
Definition getNextReleaseIncrement (git_branch_r : option jstring)
  (date : jstring) : N :=
  match git_branch_r with
  | None => 1%N
  | Some out =>
      let branches := split_on LF out in
      let release_branches :=
        filter (fun b => includes b (str "release/" ++ date ++ str "."))
               branches in
      match release_branches with
      | [] => 1%N
      | _ :: _ =>
          let increments := map increment_of release_branches in
          (list_max increments + 1)%N
      end
  end.

(** The bounds within which the model is the code.  The increments of the
    code are doubles, exact below 2^53, and [Math.max(...increments)] passes
    one argument per branch, which the engine bounds by 65536
    (JavaScriptCore; beyond, the call throws and the [catch] returns 1).
    The model computes with the integers themselves and for any number of
    branches; the theorems about the increment assume the bounds. *)
Definition within_number_limits (out : jstring) : Prop :=
  (N.of_nat (length (split_on LF out)) < 65536)%N /\
  forall b, In b (split_on LF out) -> (increment_of b < 2 ^ 53)%N.

(** The vocabulary of the specification.  A line holds the increment [n] of
    the date [d] when the text [release/d.n] occurs in it, [n] being the
    whole run of digits there: anything may stand before it (a remote, but
    also the head of a longer name, as in [origin/prerelease/d.7]) and
    anything but a digit after it (as in [origin/release/d.3-hotfix]). *)
Definition holds_release (d : jstring) (n : N) (b : jstring) : Prop :=
  exists pre digits post,
    b = pre ++ str "release/" ++ d ++ str "." ++ digits ++ post /\
    digits <> [] /\ forallb is_digit digits = true /\
    starts_with_digit post = false /\
    n = parse_digits digits.

(** [r] is one more than the largest increment of [d] among [branches],
    and 1 when there is none. *)
Definition next_increment (d : jstring) (branches : list jstring) (r : N)
  : Prop :=
  exists n, r = (n + 1)%N /\
    (forall b n', In b branches -> holds_release d n' b -> (n' <= n)%N) /\
    (n = 0%N \/ exists b, In b branches /\ holds_release d n b).

(** A line of [git branch -r] that is the branch [release/d.n] of a remote
    and nothing else: the indentation, the remote, a slash and the name. *)
Definition release_branch_line (d : jstring) (n : N) (b : jstring) : Prop :=
  exists remote digits,
    b = str "  " ++ remote ++ str "/release/" ++ d ++ str "." ++ digits /\
    remote <> [] /\ forallb (not_char "/") remote = true /\
    digits <> [] /\ forallb is_digit digits = true /\
    n = parse_digits digits.

(** The increment of a line read from the head of [s]. *)
Definition release_here (s : jstring) : option jstring :=
  match strip (str "release/") s with
  | Some t =>
      match take_while is_digit t, drop_while is_digit t with
      | _ :: _, c :: t1 =>
          if is_char "." c then
            match take_while is_digit t1 with
            | [] => None
            | digits => Some digits
            end
          else None
      | _, _ => None
      end
  | None => None
  end.

End Release.

(* ===================================================================== *)
(** ** config/config.ts, config/config-manager.ts, config/config-validation.ts *)
(* ===================================================================== *)

Module Config.
Import JS.

(** [type ConfigKey = keyof Config] and [CONFIG_KEYS]. *)
Inductive ConfigKey : Type :=
| googleAiKey | githubToken | linearApiKey | linearEnabled.

Definition CONFIG_KEYS : list ConfigKey :=
  [googleAiKey; githubToken; linearApiKey; linearEnabled].

Definition key_name (k : ConfigKey) : jstring :=
  match k with
  | googleAiKey => str "googleAiKey"
  | githubToken => str "githubToken"
  | linearApiKey => str "linearApiKey"
  | linearEnabled => str "linearEnabled"
  end.

Definition key_eqb (a b : ConfigKey) : bool :=
  match a, b with
  | googleAiKey, googleAiKey | githubToken, githubToken
  | linearApiKey, linearApiKey | linearEnabled, linearEnabled => true
  | _, _ => false
  end.

(** The value of a field: [string | boolean]. *)
Inductive cvalue : Type :=
| VStr (s : jstring)
| VBool (b : bool).

(** A [Config] object: each key is set or [undefined]. *)
Definition Config : Type := ConfigKey -> option cvalue.

Definition empty_config : Config := fun _ => None.             (* {} *)

Definition set_key (k : ConfigKey) (v : option cvalue) (c : Config) : Config :=
  fun k' => if key_eqb k' k then v else c k'.

(** [configSchema]: three optional strings and
    [z.boolean().optional().default(true)]. *)
Inductive field_schema : Type := OptionalString | OptionalBooleanDefaultTrue.

Definition configSchema (k : ConfigKey) : field_schema :=
  match k with
  | googleAiKey | githubToken | linearApiKey => OptionalString
  | linearEnabled => OptionalBooleanDefaultTrue
  end.

(** One field against its schema; the outer [None] is a validation error,
    the inner one is [undefined]. *)
Definition parse_field (sch : field_schema) (v : option json)
  : option (option cvalue) :=
  match sch, v with
  | OptionalString, None => Some None
  | OptionalString, Some (JStr s) => Some (Some (VStr s))
  | OptionalString, Some _ => None
  | OptionalBooleanDefaultTrue, None => Some (Some (VBool true))
  | OptionalBooleanDefaultTrue, Some (JBool b) => Some (Some (VBool b))
  | OptionalBooleanDefaultTrue, Some _ => None
  end.

(** [configSchema.parse]: the value must be an object, every known field
    must fit its schema, unknown fields are stripped.  [None] stands for the
    exception zod throws. *)
Definition configSchema_parse (j : json) : option Config :=
  match j with
  | JObj fields =>
      let field k := parse_field (configSchema k) (json_get (key_name k) fields) in
      match field googleAiKey, field githubToken,
            field linearApiKey, field linearEnabled with
      | Some a, Some b, Some c, Some d =>
          Some (fun k => match k with
                         | googleAiKey => a
                         | githubToken => b
                         | linearApiKey => c
                         | linearEnabled => d
                         end)
      | _, _, _, _ => None
      end
  | _ => None
  end.

(** [JSON.stringify(config)]: a field that is [undefined] is left out. *)
Definition cvalue_to_json (v : cvalue) : json :=
  match v with VStr s => JStr s | VBool b => JBool b end.

Definition config_to_json (c : Config) : json :=
  JObj (flat_map (fun k => match c k with
                           | Some v => [(key_name k, cvalue_to_json v)]
                           | None => []
                           end) CONFIG_KEYS).

(** The two configuration files.  [getLocalConfigPath()] is
    [cwd/.div-flow.json] and [getGlobalConfigPath()] is
    [home/.div-flow/config.json]: two different paths. *)
Inductive path : Type := LocalConfigPath | GlobalConfigPath.

Definition path_eqb (a b : path) : bool :=
  match a, b with
  | LocalConfigPath, LocalConfigPath | GlobalConfigPath, GlobalConfigPath => true
  | _, _ => false
  end.

(** The file system: a file is absent or has a text; [Bun.write] fails on a
    path that is not writable. *)
Record filesystem : Type := {
  file : path -> option json_text;
  writable : path -> bool
}.

Inductive log_entry : Type :=
| Warn_read_failed (p : path)        (* consola.warn("Failed to read config file at ...") *)
| Error_write_failed (p : path).     (* consola.error("Failed to write config file at ...") *)

(** [readConfigFile]: [null] for a file that does not exist, and, after a
    warning, for one that does not parse. *)
Definition readConfigFile (fs : filesystem) (filePath : path)
  : option Config * list log_entry :=
  match file fs filePath with
  | None => (None, [])
  | Some (Malformed _) => (None, [Warn_read_failed filePath])
  | Some (JsonText parsed) =>
      match configSchema_parse parsed with
      | Some c => (Some c, [])
      | None => (None, [Warn_read_failed filePath])
      end
  end.

(** [writeConfigFile]: the outcome is [true], or [false] when the write
    throws (the error is logged and thrown again). *)
Definition writeConfigFile (fs : filesystem) (filePath : path) (config : Config)
  : bool * filesystem * list log_entry :=
  if writable fs filePath then
    (true,
     {| file := fun p => if path_eqb p filePath
                         then Some (JsonText (config_to_json config))
                         else file fs p;
        writable := writable fs |},
     [])
  else (false, fs, [Error_write_failed filePath]).

(** [process.env] and [ENV_TO_CONFIG], in the order of its entries. *)
Definition environment : Type := jstring -> option jstring.

Definition ENV_TO_CONFIG : list (jstring * ConfigKey) :=
  [(str "GOOGLE_AI_KEY", googleAiKey);
   (str "GH_TOKEN", githubToken);
   (str "GITHUB_TOKEN", githubToken);
   (str "LINEAR_API_KEY", linearApiKey);
   (str "LINEAR_ENABLED", linearEnabled)].

(** [value.toLowerCase() === "true" || value === "1"] *)
Definition parse_boolean (value : jstring) : bool :=
  jstring_eqb (toLowerCase value) (str "true") || jstring_eqb value (str "1").

(** [getConfigFromEnv]: [if (value)] skips a variable that is unset or
    empty. *)
Definition getConfigFromEnv (env : environment) : Config :=
  fold_left
    (fun (config : Config) '(envKey, configKey) =>
       match env envKey with
       | Some ((_ :: _) as value) =>
           match configKey with
           | linearEnabled =>
               set_key configKey (Some (VBool (parse_boolean value))) config
           | _ => set_key configKey (Some (VStr value)) config
           end
       | _ => config
       end)
    ENV_TO_CONFIG empty_config.

(** [getConfig] *)
Definition getConfig (fs : filesystem) (env : environment)
  : Config * list log_entry :=
  let (localConfig, w1) := readConfigFile fs LocalConfigPath in
  match localConfig with
  | Some c => (c, w1)
  | None =>
      let (globalConfig, w2) := readConfigFile fs GlobalConfigPath in
      match globalConfig with
      | Some c => (c, w1 ++ w2)
      | None => (getConfigFromEnv env, w1 ++ w2)
      end
  end.

(** [isLinearEnabled]: [config.linearEnabled !== false] *)
Definition linear_enabled_of (config : Config) : bool :=
  match config linearEnabled with
  | Some (VBool false) => false
  | _ => true
  end.

Definition isLinearEnabled (fs : filesystem) (env : environment) : bool :=
  linear_enabled_of (fst (getConfig fs env)).

(** [readConfigFile(globalPath) || {}] *)
Definition read_or_empty (fs : filesystem) : Config * list log_entry :=
  let (c, w) := readConfigFile fs GlobalConfigPath in
  (match c with Some c => c | None => empty_config end, w).

(** [setConfigValue] *)
Definition setConfigValue (key : ConfigKey) (value : cvalue) (fs : filesystem)
  : bool * filesystem * list log_entry :=
  let (config, w) := read_or_empty fs in
  let config := set_key key (Some value) config in
  let '(ok, fs', w') := writeConfigFile fs GlobalConfigPath config in
  (ok, fs', w ++ w').

(** A [Partial<Config>] patch: a key is missing from the object, or it is
    there with a value that may be [undefined]. *)
Definition Patch : Type := ConfigKey -> option (option cvalue).

(** [{ ...existingConfig, ...values }] *)
Definition spread (existingConfig : Config) (values : Patch) : Config :=
  fun k => match values k with
           | Some v => v
           | None => existingConfig k
           end.

(** [setConfigValues] *)
Definition setConfigValues (values : Patch) (fs : filesystem)
  : bool * filesystem * list log_entry :=
  let (existingConfig, w) := read_or_empty fs in
  let updatedConfig := spread existingConfig values in
  let '(ok, fs', w') := writeConfigFile fs GlobalConfigPath updatedConfig in
  (ok, fs', w ++ w').

(** The vocabulary of the specification. *)

(** The file at [p] exists and parses against the schema, giving [c]. *)
Definition parses_to (fs : filesystem) (p : path) (c : Config) : Prop :=
  exists j, file fs p = Some (JsonText j) /\ configSchema_parse j = Some c.

(** The file at [p] is absent or fails to parse. *)
Definition unusable (fs : filesystem) (p : path) : Prop :=
  file fs p = None \/
  (exists raw, file fs p = Some (Malformed raw)) \/
  (exists j, file fs p = Some (JsonText j) /\ configSchema_parse j = None).

(** The fields of the JSON object in the file at [p]. *)
Definition file_field (fs : filesystem) (p : path) (k : jstring) : option json :=
  match file fs p with
  | Some (JsonText (JObj fields)) => json_get k fields
  | _ => None
  end.

(** The same file system with another text, or none, at [p]. *)
Definition with_file (fs : filesystem) (p : path) (t : option json_text)
  : filesystem :=
  {| file := fun q => if path_eqb q p then t else file fs q;
     writable := writable fs |}.

(** A sample set-up: both files and the environment give [googleAiKey]. *)
Definition sample_fs : filesystem :=
  {| file := fun p =>
       match p with
       | LocalConfigPath =>
           Some (JsonText (JObj [(str "googleAiKey", JStr (str "from-project"))]))
       | GlobalConfigPath =>
           Some (JsonText (JObj [(str "googleAiKey", JStr (str "from-home"))]))
       end;
     writable := fun _ => true |}.

Definition sample_env : environment :=
  fun name => if jstring_eqb name (str "GOOGLE_AI_KEY")
              then Some (str "from-env") else None.

Definition sample_local_config : Config :=
  fun k => match k with
           | googleAiKey => Some (VStr (str "from-project"))
           | githubToken => None
           | linearApiKey => None
           | linearEnabled => Some (VBool true)
           end.

(** The claim that an explicit false anywhere disables the integration:
    some source says false. *)
Definition says_false_somewhere (fs : filesystem) (env : environment) : Prop :=
  file_field fs LocalConfigPath (str "linearEnabled") = Some (JBool false) \/
  file_field fs GlobalConfigPath (str "linearEnabled") = Some (JBool false) \/
  exists v, env (str "LINEAR_ENABLED") = Some v /\
            toLowerCase v <> str "true" /\ v <> str "1".

(** The source [getConfig] resolves to says false. *)
Definition resolved_source_says_false (fs : filesystem) (env : environment)
  : Prop :=
  ((exists c, parses_to fs LocalConfigPath c) /\
   file_field fs LocalConfigPath (str "linearEnabled") = Some (JBool false)) \/
  (unusable fs LocalConfigPath /\
   (exists c, parses_to fs GlobalConfigPath c) /\
   file_field fs GlobalConfigPath (str "linearEnabled") = Some (JBool false)) \/
  (unusable fs LocalConfigPath /\ unusable fs GlobalConfigPath /\
   exists v, env (str "LINEAR_ENABLED") = Some v /\ v <> [] /\
             toLowerCase v <> str "true" /\ v <> str "1").

(** A project file [{}] next to [LINEAR_ENABLED=false]. *)
Definition shadowed_fs : filesystem :=
  {| file := fun p =>
       match p with
       | LocalConfigPath => Some (JsonText (JObj []))
       | GlobalConfigPath => None
       end;
     writable := fun _ => true |}.

Definition env_linear (v : jstring) : environment :=
  fun name => if jstring_eqb name (str "LINEAR_ENABLED") then Some v else None.

Definition no_files : filesystem :=
  {| file := fun _ => None; writable := fun _ => true |}.

(** A global file with a known field next to an ill-typed one, and one with
    a field the schema does not know. *)
Definition ill_typed_global : filesystem :=
  {| file := fun p =>
       match p with
       | LocalConfigPath => None
       | GlobalConfigPath =>
           Some (JsonText (JObj [(str "googleAiKey", JStr (str "abc"));
                                 (str "githubToken", JNum 5)]))
       end;
     writable := fun _ => true |}.

Definition extra_field_global : filesystem :=
  {| file := fun p =>
       match p with
       | LocalConfigPath => None
       | GlobalConfigPath =>
           Some (JsonText (JObj [(str "googleAiKey", JStr (str "abc"));
                                 (str "editor", JStr (str "vim"))]))
       end;
     writable := fun _ => true |}.

Definition single_patch (k : ConfigKey) (v : cvalue) : Patch :=
  fun k' => if key_eqb k' k then Some (Some v) else None.

End Config.

(* ===================================================================== *)
(** ** workflows/git.ts: protected branches *)
(* ===================================================================== *)

Module Git.
Import JS.

Definition PROTECTED_BRANCHES : list jstring :=
  [str "main"; str "develop"; str "staging"].

(** [PROTECTED_BRANCHES.includes(branch)] *)
Definition isProtectedBranch (branch : jstring) : bool :=
  existsb (jstring_eqb branch) PROTECTED_BRANCHES.

End Git.

(* ===================================================================== *)
(** ** The processes, the prompts and the services the workflows talk to *)
(* ===================================================================== *)

Module IO.
Import JS.

(** The changes of the working tree, as [git] classifies them, each a path
    from the root of the repository, and the directory the process runs in:
    [cwd] is its path from the root, empty at the root and ending with a
    slash below it.  The tool never changes directory. *)
Record git_state : Type := {
  staged : list jstring;
  unstaged : list jstring;
  untracked : list jstring;
  cwd : jstring
}.

Inductive level : Type := Start | Success | Info | Warning | Failure | Box | Plain.

(** What a run does, in order. *)
Inductive event : Type :=
| Exec (command : jstring)                    (* a command handed to the shell *)
| Committed (files left_out : list jstring)   (* a commit made by [git commit] *)
| Asked (question : jstring)                  (* [consola.prompt] *)
| Called (service : jstring)                  (* a request to a remote service *)
| Logged (l : level) (message : jstring).     (* [consola.*], [console.log] *)

(** What the outside answers, one reply per command, prompt or request. *)
Inductive reply : Type :=
| Fails (error : jstring)      (* the command or the request throws *)
| Prints (output : jstring)    (* the command succeeds with this output *)
| Confirms (b : bool)          (* the answer to a confirm prompt *)
| Selects (value : jstring)    (* the answer to a select prompt *)
| Types (text : jstring)       (* the answer to a text prompt; a free text *)
| Answers (t : json_text).     (* the text of a structured response *)

Record world : Type := {
  git : git_state;
  files : Config.filesystem;       (* the two configuration files *)
  env : Config.environment;        (* process.env *)
  script : list reply;
  trace : list event
}.

(** How a computation ends: with a value, with an exception, with
    [process.exit], or where the model stops following it: waiting for a
    reply that does not come, or after a command whose reading by the shell
    the model does not describe. *)
Inductive outcome (A : Type) : Type :=
| Returned (a : A)
| Thrown (error : jstring)
| Exited (code : nat)
| Blocked.
Arguments Returned {A} a.
Arguments Thrown {A} error.
Arguments Exited {A} code.
Arguments Blocked {A}.

Definition M (A : Type) : Type := world -> outcome A * world.

Definition ret {A} (a : A) : M A := fun w => (Returned a, w).

Definition bind {A B} (m : M A) (f : A -> M B) : M B :=
  fun w =>
    match m w with
    | (Returned a, w') => f a w'
    | (Thrown e, w') => (Thrown e, w')
    | (Exited c, w') => (Exited c, w')
    | (Blocked, w') => (Blocked, w')
    end.

Notation "x <- m ;; k" := (bind m (fun x => k))
  (at level 61, m at next level, right associativity).
Notation "m ;; k" := (bind m (fun _ => k))
  (at level 61, right associativity).

Definition throw {A} (error : jstring) : M A := fun w => (Thrown error, w).
Definition process_exit {A} (code : nat) : M A := fun w => (Exited code, w).
Definition block {A} : M A := fun w => (Blocked, w).

(** [try { m } catch (error) { h error }] *)
Definition try_catch {A} (m : M A) (h : jstring -> M A) : M A :=
  fun w =>
    match m w with
    | (Thrown e, w') => h e w'
    | r => r
    end.

Definition emit (e : event) : M unit :=
  fun w => (Returned tt,
            {| git := git w; files := files w; env := env w;
               script := script w; trace := trace w ++ [e] |}).

Definition log (l : level) (message : jstring) : M unit :=
  emit (Logged l message).

Definition next_reply : M reply :=
  fun w =>
    match script w with
    | [] => (Blocked, w)
    | r :: rs =>
        (Returned r,
         {| git := git w; files := files w; env := env w;
            script := rs; trace := trace w |})
    end.

Definition get_git : M git_state := fun w => (Returned (git w), w).

Definition put_git (g : git_state) : M unit :=
  fun w => (Returned tt,
            {| git := g; files := files w; env := env w;
               script := script w; trace := trace w |}).

(** The double quote. *)
Definition DQ : ascii := "034"%char.

(** The commands that change the index.  [git add .] stages the changes
    under the directory of the process; [git add -A] stages every change of
    the repository. *)
Definition is_add_here (command : jstring) : bool :=
  jstring_eqb command (str "git add .").

Definition is_add_all (command : jstring) : bool :=
  jstring_eqb command (str "git add -A").

Definition is_commit (command : jstring) : bool :=
  starts_with (str "git commit ") command.

Definition under_cwd (g : git_state) (path : jstring) : bool :=
  starts_with (cwd g) path.

Definition outside_cwd (g : git_state) (path : jstring) : bool :=
  negb (under_cwd g path).

Definition stage_here (g : git_state) : git_state :=
  {| staged := staged g ++ filter (under_cwd g) (unstaged g)
               ++ filter (under_cwd g) (untracked g);
     unstaged := filter (outside_cwd g) (unstaged g);
     untracked := filter (outside_cwd g) (untracked g);
     cwd := cwd g |}.

Definition stage_all (g : git_state) : git_state :=
  {| staged := staged g ++ unstaged g ++ untracked g;
     unstaged := []; untracked := []; cwd := cwd g |}.

Definition after_commit (g : git_state) : git_state :=
  {| staged := []; unstaged := unstaged g; untracked := untracked g;
     cwd := cwd g |}.

(** A command is a string handed to [/bin/sh].  Between the double quotes
    of [git commit -m "<message>"] the shell itself reads the double quote,
    the backslash, the dollar and the backquote; a message without them is
    passed to [git] as it is. *)
Definition shell_special (c : ascii) : bool :=
  Ascii.eqb c DQ || Ascii.eqb c "\" || Ascii.eqb c "$" || Ascii.eqb c "`".

Definition shell_plain (c : ascii) : bool := negb (shell_special c).

Definition plain_message (message : jstring) : bool :=
  forallb shell_plain message.

(** The message of a command that the shell reads as
    [git commit -m <message>], alone or with [--no-verify]. *)
Definition commit_message_of (command : jstring) : option jstring :=
  match strip (str "git commit -m " ++ [DQ]) command with
  | Some t =>
      let after := drop_while shell_plain t in
      if jstring_eqb after [DQ] || jstring_eqb after ([DQ] ++ str " --no-verify")
      then Some (take_while shell_plain t)
      else None
  | None => None
  end.

(** A message that [git commit] takes for empty: white space only. *)
Definition git_space (c : ascii) : bool :=
  let n := nat_of_ascii c in
  ((9 <=? n) && (n <=? 13)) || Nat.eqb n 32.

Definition blank_message (message : jstring) : bool :=
  forallb git_space message.

(** The effect of a command that the shell ran without error.  [git commit]
    refuses an empty message and an empty index.  After a [git commit]
    command that the shell does not read as one commit with the given
    message, the model stops. *)
Definition git_effect (command : jstring) : M unit :=
  g <- get_git ;;
  if is_add_here command then put_git (stage_here g)
  else if is_add_all command then put_git (stage_all g)
  else if is_commit command then
    match commit_message_of command with
    | Some message =>
        if blank_message message
        then throw (str "Aborting commit due to empty commit message.")
        else
          match staged g with
          | [] => throw (str "nothing to commit")
          | files =>
              emit (Committed files (unstaged g ++ untracked g)) ;;
              put_git (after_commit g)
          end
    | None => block
    end
  else ret tt.

(** [execSync(command)]: the output, or the exception of a command that
    fails. *)
Definition execSync (command : jstring) : M jstring :=
  emit (Exec command) ;;
  r <- next_reply ;;
  match r with
  | Fails error => throw error
  | Prints output => git_effect command ;; ret output
  | _ => block
  end.

(** [String(error)] for the [Error] an [execSync] throws with the message
    [error]. *)
Definition String_of_error (error : jstring) : jstring := str "Error: " ++ error.

(** [consola.prompt] of type confirm, select and text. *)
Definition confirm (question : jstring) : M bool :=
  emit (Asked question) ;;
  r <- next_reply ;;
  match r with Confirms b => ret b | _ => block end.

Definition select (question : jstring) : M jstring :=
  emit (Asked question) ;;
  r <- next_reply ;;
  match r with Selects v => ret v | _ => block end.

Definition ask_text (question : jstring) : M jstring :=
  emit (Asked question) ;;
  r <- next_reply ;;
  match r with Types t => ret t | _ => block end.

(** A request to a remote service: the reply, or the exception. *)
Definition request (service : jstring) : M reply :=
  emit (Called service) ;;
  r <- next_reply ;;
  match r with Fails error => throw error | _ => ret r end.

(** [runCommandCaptureOrThrow(command, errorMessage)] of utils/command.ts *)
Definition runCommandCaptureOrThrow (command errorMessage : jstring) : M jstring :=
  try_catch (out <- execSync command ;; ret (trim out))
    (fun _ => log Failure errorMessage ;; throw errorMessage).

(** [runCommandWithOutput(command, message)] of utils/command.ts *)
Definition runCommandWithOutput (command message : jstring) : M bool :=
  try_catch
    (log Start message ;; execSync command ;; log Success message ;; ret true)
    (fun _ => log Failure (str "Failed: " ++ message) ;; ret false).

(** [getConfig()] of config/config-manager.ts, with its warnings. *)
Definition getConfig : M Config.Config :=
  fun w =>
    let (c, warnings) := Config.getConfig (files w) (env w) in
    (Returned c,
     {| git := git w; files := files w; env := env w; script := script w;
        trace := trace w ++
                 map (fun _ => Logged Warning (str "Failed to read config file"))
                     warnings |}).

(** A run from a repository state, the configuration sources and a script
    of replies. *)
Definition start (g : git_state) (fs : Config.filesystem)
  (e : Config.environment) (replies : list reply) : world :=
  {| git := g; files := fs; env := e; script := replies; trace := [] |}.

(** An invariant of the runs: [G] holds of the repository state and [P] of
    every event so far. *)
Definition inv (G : git_state -> Prop) (P : event -> Prop) (w : world) : Prop :=
  G (git w) /\ Forall P (trace w).

(** [ht G P m Q]: from a world in the invariant, [m] ends in a world in the
    invariant, and a value it returns is in [Q]. *)
Definition ht (G : git_state -> Prop) (P : event -> Prop) {A} (m : M A)
  (Q : A -> Prop) : Prop :=
  forall w, inv G P w ->
  match m w with
  | (Returned a, w') => inv G P w' /\ Q a
  | (_, w') => inv G P w'
  end.

Definition any {A} : A -> Prop := fun _ => True.

(** A computation only adds events to the trace. *)
Definition grows {A} (m : M A) : Prop :=
  forall w, exists tl, trace (snd (m w)) = trace w ++ tl.

(** From the world [w], the first events a computation adds are [es]. *)
Definition begins_at {A} (w : world) (es : list event) (m : M A) : Prop :=
  exists tl, trace (snd (m w)) = trace w ++ es ++ tl.

End IO.

(* ===================================================================== *)
(** ** workflows/ai.ts: the control flow of the generators *)
(* ===================================================================== *)

Module AI.
Import JS IO.

(** [commit_type] and [commit_message_schema] *)
Definition commit_type : list jstring :=
  map str ["feat"; "fix"; "chore"; "docs"; "improve"; "change"; "hotfix"]%string.

Record CommitMessage : Type := {
  type : jstring;
  scope : option jstring;
  description : jstring
}.

(** [pr_content_schema] *)
Record PRContent : Type := {
  title : jstring;
  pr_description : jstring;
  linear_comment : option jstring
}.

(** [z.string()], [z.string().min(lo)], [z.string().min(lo).max(hi)] and
    [.optional()] on one field of an object; the outer [None] is a
    validation error. *)
Definition required_string (lo : nat) (hi : option nat) (v : option json)
  : option jstring :=
  match v with
  | Some (JStr s) =>
      if (lo <=? length s) &&
         match hi with Some h => length s <=? h | None => true end
      then Some s else None
  | _ => None
  end.

Definition optional_string (v : option json) : option (option jstring) :=
  match v with
  | None => Some None
  | Some (JStr s) => Some (Some s)
  | Some _ => None
  end.

Definition commit_message_schema (j : json) : option CommitMessage :=
  match j with
  | JObj fields =>
      match required_string 0 None (json_get (str "type") fields),
            optional_string (json_get (str "scope") fields),
            required_string 1 None (json_get (str "description") fields) with
      | Some t, Some sc, Some d =>
          if existsb (jstring_eqb t) commit_type
          then Some {| type := t; scope := sc; description := d |}
          else None
      | _, _, _ => None
      end
  | _ => None
  end.

Definition pr_content_schema (j : json) : option PRContent :=
  match j with
  | JObj fields =>
      match required_string 1 (Some 72) (json_get (str "title") fields),
            required_string 1 None (json_get (str "description") fields),
            optional_string (json_get (str "linear_comment") fields) with
      | Some t, Some d, Some c =>
          Some {| title := t; pr_description := d; linear_comment := c |}
      | _, _, _ => None
      end
  | _ => None
  end.

(** What it means for a value to satisfy its schema. *)
Definition valid_commit_message (c : CommitMessage) : Prop :=
  In (type c) commit_type /\ 1 <= length (description c).

Definition valid_pr_content (c : PRContent) : Prop :=
  1 <= length (title c) <= 72 /\ 1 <= length (pr_description c).

(** [OutputSchema.parse(text)]: [z.preprocess] runs [JSON.parse] on the
    text, then the schema validates; both throw on failure.  A response
    without a text fails the validation. *)
Definition OutputSchema_parse {A} (schema : json -> option A) (r : reply) : M A :=
  match r with
  | Answers (JsonText j) =>
      match schema j with
      | Some content => ret content
      | None => throw (str "Response validation failed")
      end
  | Answers (Malformed _) =>
      log Failure (str "Failed to parse Gemini response string:") ;;
      throw (str "Invalid JSON response from AI")
  | _ => throw (str "Response validation failed")
  end.

(** [getAI]: the client needs the configured key.  (The client is cached
    after the first call; every call is modelled as a first call.) *)
Definition getAI : M unit :=
  config <- getConfig ;;
  match config Config.googleAiKey with
  | Some (Config.VStr (_ :: _)) => ret tt
  | _ => throw (str "Google AI key not configured. Run: dflow config init")
  end.

(** The part the generators share: the streaming request, the fallback to
    one plain request when anything in the streaming path throws, and the
    outer [catch] that turns every remaining exception into [null].  The
    reply to the streaming request is the accumulated text of the stream. *)
Definition generate {A} (schema : json -> option A) (what failed : jstring)
  : M (option A) :=
  try_catch
    (log Start (str "Initializing AI service...") ;;
     getAI ;;
     log Start what ;;
     try_catch
       (log Info (str "Streaming AI response...") ;;
        r <- request (str "ai.models.generateContentStream") ;;
        log Start (str "Validating AI response...") ;;
        content <- OutputSchema_parse schema r ;;
        log Success (str "Generated") ;;
        ret (Some content))
       (fun streaming_error =>
          log Warning (str "Streaming failed, falling back to standard generation...") ;;
          log Failure (str "Streaming error: " ++ streaming_error) ;;
          r <- request (str "ai.models.generateContent") ;;
          log Start (str "Validating AI response...") ;;
          content <- OutputSchema_parse schema r ;;
          log Success (str "Generated") ;;
          ret (Some content)))
    (fun error =>
       log Failure (failed ++ error) ;;
       ret None).

(** [generateCommitMessage]: the two [execSync] calls come before the
    [try]. *)
Definition generateCommitMessage (user_description : jstring)
  : M (option CommitMessage) :=
  log Start (str "Analyzing staged changes...") ;;
  diff_summary <- execSync (str "git diff --cached --stat") ;;
  diff_content <- execSync (str "git diff --cached") ;;
  log Info (str "Changes: " ++ diff_summary) ;;
  log Info (str "Estimated processing time") ;;
  generate commit_message_schema
    (str "Generating commit message with AI...")
    (str "Failed to generate commit message: ").

(** [generatePRContent]: the four [execSync] calls come before the [try]. *)
Definition generatePRContent (current_branch base_branch user_description : jstring)
  : M (option PRContent) :=
  log Start (str "Analyzing branch changes...") ;;
  diff_summary <-
    execSync (str "git diff origin/" ++ base_branch ++ str "..HEAD --stat") ;;
  diff_content <-
    execSync (str "git diff origin/" ++ base_branch ++ str "..HEAD") ;;
  commit_messages <-
    execSync (str "git log origin/" ++ base_branch ++ str "..HEAD --pretty=format:"
              ++ [DQ] ++ str "- %s" ++ [DQ]) ;;
  commit_count <-
    execSync (str "git rev-list --count origin/" ++ base_branch ++ str "..HEAD") ;;
  log Info (str "PR Changes: " ++ trim commit_count ++ str " commits") ;;
  log Info (str "Estimated processing time") ;;
  generate pr_content_schema
    (str "Generating PR content with AI...")
    (str "Failed to generate PR content: ").

(** [linear_content_schema]; numbers are read as naturals. *)
Record LinearContent : Type := {
  lc_title : jstring;
  lc_description : jstring;
  priority : N;
  estimate : option N;
  suggested_label : option jstring
}.

Definition linear_labels : list jstring :=
  map str ["Bug"; "Feature"; "Improvement"; "Chore"; "L10"; "Research"]%string.

Definition linear_content_schema (j : json) : option LinearContent :=
  match j with
  | JObj fields =>
      match required_string 1 (Some 200) (json_get (str "title") fields),
            required_string 1 None (json_get (str "description") fields) with
      | Some t, Some d =>
          let prio :=
            match json_get (str "priority") fields with
            | None => Some 3%N
            | Some (JNum n) => if (n <=? 4)%N then Some n else None
            | Some _ => None
            end in
          let est :=
            match json_get (str "estimate") fields with
            | None => Some None
            | Some (JNum n) => if (n <=? 6)%N then Some (Some n) else None
            | Some _ => None
            end in
          let label :=
            match json_get (str "suggested_label") fields with
            | None => Some None
            | Some (JStr l) =>
                if existsb (jstring_eqb l) linear_labels then Some (Some l)
                else None
            | Some _ => None
            end in
          match prio, est, label with
          | Some p, Some e, Some l =>
              Some {| lc_title := t; lc_description := d; priority := p;
                      estimate := e; suggested_label := l |}
          | _, _, _ => None
          end
      | _, _ => None
      end
  | _ => None
  end.

(** [generateLinearContent]: as [generateCommitMessage]. *)
Definition generateLinearContent (user_description : jstring)
  : M (option LinearContent) :=
  log Start (str "Analyzing staged changes for Linear issue...") ;;
  diff_summary <- execSync (str "git diff --cached --stat") ;;
  diff_content <- execSync (str "git diff --cached") ;;
  log Info (str "Changes: " ++ diff_summary) ;;
  log Info (str "Estimated processing time") ;;
  generate linear_content_schema
    (str "Generating Linear issue content with AI...")
    (str "Failed to generate Linear content: ").

(** [generateLinearUpdateComment] gathers its context inside the [try]. *)
Definition generateLinearUpdateComment_context : M (option (jstring * jstring)) :=
  try_catch
    (recent_commits <-
       execSync (str "git log -3 --pretty=format:" ++ [DQ] ++ str "- %s" ++ [DQ]
                 ++ str " HEAD") ;;
     recent_diff <- execSync (str "git diff HEAD~3..HEAD --stat") ;;
     ret (Some (recent_commits, recent_diff)))
    (fun error =>
       log Failure (str "Failed to generate Linear update comment: " ++ error) ;;
       ret None).

(** [explainError]: everything is inside the [try]; [null] on any failure
    and for an empty explanation. *)
Definition explainError (error_message : jstring) : M (option jstring) :=
  try_catch
    (getAI ;;
     log Start (str "Analyzing error with AI...") ;;
     r <- request (str "ai.models.generateContent") ;;
     let explanation := match r with Types t => t | _ => [] end in
     ret (match trim explanation with
          | [] => None
          | t => Some t
          end))
    (fun _ => ret None).

(** The outcome is a value in [Q] or [null], or the run waits for a reply;
    it is neither an exception nor an exit. *)
Definition returns_or_null {A} (Q : A -> Prop) (r : outcome (option A)) : Prop :=
  match r with
  | Returned (Some c) => Q c
  | Returned None => True
  | Blocked => True
  | Thrown _ => False
  | Exited _ => False
  end.

(** A repository outside of which the commands fail, and the configuration
    of a key. *)
Definition clean_tree : git_state :=
  {| staged := []; unstaged := []; untracked := []; cwd := [] |}.

Definition key_in_env : Config.environment :=
  fun name => if jstring_eqb name (str "GOOGLE_AI_KEY")
              then Some (str "the-key") else None.

End AI.

(* ===================================================================== *)
(** ** workflows/commit-workflow.ts *)
(* ===================================================================== *)

Module Commit.
Import JS IO.

(** *** The functions of workflows/git.ts and workflows/linear.ts it calls *)

Definition failed_status : jstring := str "Failed to get git status".

(** What the three commands of [getGitStatus] list, one path per line:
    [git diff --cached --name-only] and [git diff --name-only] the staged
    and the modified paths of the whole repository, from its root;
    [git ls-files --others --exclude-standard] the untracked paths under the
    directory of the process, from that directory. *)
Definition status_of (g : git_state) : git_state :=
  {| staged := staged g;
     unstaged := unstaged g;
     untracked := map (skipn (length (cwd g)))
                      (filter (under_cwd g) (untracked g));
     cwd := cwd g |}.

(** [getGitStatus]: the lists are those of the repository, not the text of
    the replies. *)
Definition getGitStatus : M git_state :=
  try_catch
    (runCommandCaptureOrThrow (str "git diff --cached --name-only") failed_status ;;
     runCommandCaptureOrThrow (str "git diff --name-only") failed_status ;;
     runCommandCaptureOrThrow (str "git ls-files --others --exclude-standard")
       failed_status ;;
     g <- get_git ;;
     ret (status_of g))
    (fun _ => log Failure failed_status ;; process_exit 1).

Fixpoint log_each (l : level) (prefix : jstring) (paths : list jstring) : M unit :=
  match paths with
  | [] => ret tt
  | f :: tl => log l (prefix ++ f) ;; log_each l prefix tl
  end.

Definition displayGitStatus (status : git_state) : M unit :=
  log Box (str "Git Status") ;;
  (match staged status with
   | [] => ret tt
   | fs => log Success (str "Staged files:") ;; log_each Plain (str "  ") fs
   end) ;;
  (match unstaged status with
   | [] => ret tt
   | fs => log Warning (str "Modified files (not staged):") ;;
           log_each Plain (str "  ") fs
   end) ;;
  (match untracked status with
   | [] => ret tt
   | fs => log Info (str "Untracked files:") ;; log_each Plain (str "  ") fs
   end).

Definition getCurrentBranch : M jstring :=
  runCommandCaptureOrThrow (str "git branch --show-current")
    (str "Failed to get current branch").

(** [fetchLinearLabels]: the labels as pairs of an id and a name. *)
Definition label_of (j : json) : list (jstring * jstring) :=
  match j with
  | JObj f =>
      match json_get (str "id") f, json_get (str "name") f with
      | Some (JStr i), Some (JStr n) => [(i, n)]
      | _, _ => []
      end
  | _ => []
  end.

Definition fetchLinearLabels : M (option (list (jstring * jstring))) :=
  try_catch
    (log Start (str "Fetching available labels from Linear...") ;;
     r <- request (str "linear.issueLabels") ;;
     match r with
     | Answers (JsonText (JArr items)) =>
         log Success (str "Found available labels") ;;
         ret (Some (flat_map label_of items))
     | _ => throw (str "unexpected response")
     end)
    (fun error =>
       log Failure (str "Failed to fetch Linear labels: " ++ error) ;;
       ret None).

Record LinearMetadata : Type := {
  md_priority : N;
  md_estimate : option N;
  md_labelIds : option jstring
}.

Definition find_label (name : jstring) (labels : list (jstring * jstring))
  : option jstring :=
  match find (fun l => jstring_eqb (snd l) name) labels with
  | Some (id, _) => Some id
  | None => None
  end.

(** [confirmLinearMetadata] *)
Definition confirmLinearMetadata (ai_suggestions : AI.LinearContent)
  : M (option LinearMetadata) :=
  log Box (str "AI Suggestions") ;;
  accept_all <- confirm (str "Accept all AI suggestions?") ;;
  if accept_all then
    label <-
      match AI.suggested_label ai_suggestions with
      | Some name =>
          available_labels <- fetchLinearLabels ;;
          ret (match available_labels with
               | Some labels => find_label name labels
               | None => None
               end)
      | None => ret None
      end ;;
    ret (Some {| md_priority := AI.priority ai_suggestions;
                 md_estimate := AI.estimate ai_suggestions;
                 md_labelIds := label |})
  else
    modify_choice <- select (str "What would you like to change?") ;;
    if jstring_eqb modify_choice (str "cancel") then ret None
    else
      let chose what :=
        jstring_eqb modify_choice what || jstring_eqb modify_choice (str "all") in
      final_priority <-
        (if chose (str "priority")
         then v <- select (str "Select priority:") ;; ret (parse_digits v)
         else ret (AI.priority ai_suggestions)) ;;
      final_estimate <-
        (if chose (str "estimate")
         then v <- select (str "Select estimate:") ;;
              ret (match parse_digits v with 0%N => None | n => Some n end)
         else ret (AI.estimate ai_suggestions)) ;;
      final_label <-
        (if chose (str "label")
         then available_labels <- fetchLinearLabels ;;
              match available_labels with
              | Some _ =>
                  label_choice <- select (str "Select label:") ;;
                  ret (if jstring_eqb label_choice (str "none") then None
                       else Some label_choice)
              | None => ret None
              end
         else ret None) ;;
      ret (Some {| md_priority := final_priority;
                   md_estimate := final_estimate;
                   md_labelIds := final_label |}).

(** [createLinearIssue]: the identifier of the created issue. *)
Definition createLinearIssue (title description api_key : jstring)
  (options : LinearMetadata) : M (option jstring) :=
  try_catch
    (log Start (str "Creating Linear issue...") ;;
     teams <- request (str "linear.teams") ;;
     match teams with
     | Answers (JsonText (JObj _)) =>
         r <- request (str "linear.createIssue") ;;
         match r with
         | Answers (JsonText (JObj f)) =>
             match json_get (str "identifier") f with
             | Some (JStr identifier) =>
                 log Success (str "Created Linear issue: " ++ identifier) ;;
                 ret (Some identifier)
             | _ => log Failure (str "Failed to create Linear issue") ;; ret None
             end
         | _ => log Failure (str "Failed to create Linear issue") ;; ret None
         end
     | _ =>
         log Failure (str "DEV team not found in Linear") ;;
         log Info (str "Available teams:") ;;
         ret None
     end)
    (fun error =>
       log Failure (str "Failed to create Linear issue: " ++ error) ;;
       ret None).

(** [renameBranchToLinearPattern] *)
Definition renameBranchToLinearPattern (new_branch_name current_branch : jstring)
  : M bool :=
  try_catch
    (log Start (str "Renaming branch to " ++ new_branch_name ++ str "...") ;;
     execSync (str "git branch -m " ++ new_branch_name) ;;
     try_catch
       (execSync (str "git ls-remote --exit-code --heads origin " ++ current_branch) ;;
        execSync (str "git push origin --delete " ++ current_branch) ;;
        execSync (str "git push -u origin " ++ new_branch_name) ;;
        ret tt)
       (fun _ =>
          execSync (str "git push -u origin " ++ new_branch_name) ;; ret tt) ;;
     log Success (str "Branch renamed and pushed successfully!") ;;
     ret true)
    (fun error =>
       log Failure (str "Failed to rename branch: " ++ error) ;;
       ret false).

(** *** What the two revisions share *)

Definition formatCommitMessage (commit : AI.CommitMessage) : jstring :=
  match AI.scope commit with
  | Some ((_ :: _) as sc) =>
      AI.type commit ++ str "(" ++ sc ++ str "): " ++ AI.description commit
  | _ => AI.type commit ++ str ": " ++ AI.description commit
  end.

Definition commit_command (message : jstring) : jstring :=
  str "git commit -m " ++ [DQ] ++ message ++ [DQ].
Definition push_command (branch : jstring) : jstring :=
  str "git push origin " ++ branch.
Definition force_push_command (branch : jstring) : jstring :=
  str "git push --force origin " ++ branch.

Definition staged_question : jstring :=
  str "No files are staged. Stage all changes?".
Definition clean_message : jstring :=
  str "No changes detected. Working tree is clean.".
Definition blocked_message (branch : jstring) : jstring :=
  str "CRITICAL: Cannot force push to protected branch " ++ [DQ] ++ branch ++ [DQ].

Definition pull_then_push (branch : jstring) : M unit :=
  try_catch
    (log Start (str "Pulling remote changes...") ;;
     execSync (str "git pull origin " ++ branch) ;;
     log Success (str "Merged remote changes") ;;
     execSync (push_command branch) ;;
     log Success (str "Changes pushed successfully!"))
    (fun _ =>
       log Failure (str "Failed to pull and push. You may need to resolve conflicts.")).

Definition rebase_then_push (branch : jstring) : M unit :=
  try_catch
    (log Start (str "Rebasing on remote changes...") ;;
     execSync (str "git pull --rebase origin " ++ branch) ;;
     log Success (str "Rebased on remote changes") ;;
     execSync (push_command branch) ;;
     log Success (str "Changes pushed successfully!"))
    (fun _ =>
       log Failure (str "Failed to rebase. You may need to resolve conflicts.")).

(** The [try] block of [processCommit], over the handler of a rejected
    push, which is where the revisions differ. *)
Definition commit_and_push (on_push_failure : jstring -> jstring -> M unit)
  (message : jstring) : M unit :=
  execSync (str "git add .") ;;
  execSync (commit_command message) ;;
  log Success (str "Changes committed successfully!") ;;
  out <- execSync (str "git branch --show-current") ;;
  let branch := trim out in
  log Info (str "Current branch: " ++ branch) ;;
  should_push <- confirm (str "Push to origin?") ;;
  if should_push then
    log Start (str "Pushing to origin/" ++ branch ++ str "...") ;;
    try_catch
      (execSync (push_command branch) ;;
       log Success (str "Changes pushed successfully!"))
      (fun error => on_push_failure branch error)
  else ret tt.

(** The steps of the Linear issue, from the prompt to the renamed branch. *)
Definition create_issue_steps (current_branch : jstring) (hint : jstring) : M unit :=
  config <- getConfig ;;
  match config Config.linearApiKey with
  | Some (Config.VStr ((_ :: _) as linear_api_key)) =>
      user_description <-
        ask_text (str "Briefly describe what this work accomplishes (helps AI generate better Linear issue):") ;;
      linear_content <- AI.generateLinearContent user_description ;;
      match linear_content with
      | Some content =>
          log Success (str "Linear issue content generated!") ;;
          log Box (str "Title: " ++ AI.lc_title content) ;;
          log Plain (AI.lc_description content) ;;
          action <- select (str "What would you like to do?") ;;
          edited <-
            (if jstring_eqb action (str "edit") then
               t <- ask_text (str "Issue title:") ;;
               d <- ask_text (str "Issue description:") ;;
               ret (t, d)
             else ret (AI.lc_title content, AI.lc_description content)) ;;
          if jstring_eqb action (str "create") || jstring_eqb action (str "edit")
          then
            confirmed_metadata <- confirmLinearMetadata content ;;
            match confirmed_metadata with
            | Some metadata =>
                created_issue <-
                  createLinearIssue (fst edited) (snd edited) linear_api_key metadata ;;
                match created_issue with
                | Some identifier =>
                    log Success (str "Linear issue created") ;;
                    let new_branch_name :=
                      Linear.generateLinearBranchName identifier current_branch in
                    log Info (str "Renaming branch to " ++ new_branch_name
                              ++ str " to link with Linear issue...") ;;
                    renameBranchToLinearPattern new_branch_name current_branch ;;
                    ret tt
                | None => ret tt
                end
            | None => log Info (str "Linear issue creation cancelled by user")
            end
          else ret tt
      | None => ret tt
      end
  | _ =>
      log Failure (str "Linear API key not configured.") ;;
      log Info (str "Please run: " ++ hint) ;;
      log Info (str "You can find your API key at: https://linear.app/settings/api")
  end.

(** The loop over a generated message: commit, edit, refine or cancel.
    Every round reads a reply, so [rounds] is the length of the script. *)
Fixpoint message_loop (processCommit : jstring -> M unit) (rounds : nat)
  (generated_commit : AI.CommitMessage) : M unit :=
  match rounds with
  | 0 => block
  | S rounds' =>
      log Success (str "Commit message generated!") ;;
      let formatted_message := formatCommitMessage generated_commit in
      log Box formatted_message ;;
      action <- select (str "What would you like to do?") ;;
      if jstring_eqb action (str "edit") then
        edited <- ask_text (str "Edit commit message:") ;;
        processCommit edited
      else if jstring_eqb action (str "commit") then
        processCommit formatted_message
      else if jstring_eqb action (str "refine") then
        user_description <-
          ask_text (str "Describe the changes (this will be heavily prioritized):") ;;
        retry <- AI.generateCommitMessage user_description ;;
        match retry with
        | None =>
            log Failure (str "Failed to regenerate commit message") ;;
            message_loop processCommit rounds' generated_commit
        | Some r => message_loop processCommit rounds' r
        end
      else
        log Info (str "Commit cancelled.") ;; process_exit 0
  end.

(** [commitWorkflow] after its first command, over [processCommit], the
    gate of the Linear steps and the name of the tool in the hint. *)
Definition after_staging (processCommit : jstring -> M unit)
  (linear_gate : M bool) (hint : jstring) : M unit :=
  status <- getGitStatus ;;
  match staged status, unstaged status, untracked status with
  | [], [], [] => log Info clean_message ;; process_exit 0
  | _, _, _ =>
      displayGitStatus status ;;
      (match staged status with
       | [] =>
           should_stage <- confirm staged_question ;;
           if should_stage then
             log Start (str "Staging all changes...") ;;
             try_catch
               (execSync (str "git add -A") ;;
                log Success (str "All changes staged!") ;;
                getGitStatus ;;
                ret tt)
               (fun _ => log Failure (str "Failed to stage changes") ;; process_exit 1)
           else
             log Warning (str "Please stage your changes first.") ;; process_exit 0
       | _ :: _ => ret tt
       end) ;;
      current_branch <- getCurrentBranch ;;
      let has_linear_pattern := Linear.hasLinearPattern current_branch in
      linear_enabled <- linear_gate ;;
      (if negb has_linear_pattern && linear_enabled then
         log Warning (str "No Linear issue detected in branch name.") ;;
         log Info (str "Current branch: " ++ current_branch) ;;
         create_linear_issue <- confirm (str "Create a Linear issue for this work?") ;;
         if create_linear_issue then create_issue_steps current_branch hint
         else ret tt
       else ret tt) ;;
      user_description <-
        ask_text (str "Provide a brief description of your changes (optional - helps AI generate better commit message):") ;;
      generated_commit <- AI.generateCommitMessage user_description ;;
      match generated_commit with
      | None =>
          log Failure (str "Failed to generate commit message") ;;
          should_manual <- confirm (str "Enter commit message manually?") ;;
          if should_manual then
            type <- select (str "Select commit type:") ;;
            description <- ask_text (str "Description:") ;;
            processCommit
              (formatCommitMessage
                 {| AI.type := type; AI.scope := None; AI.description := description |})
          else process_exit 1
      | Some generated =>
          fun w => message_loop processCommit (S (length (script w))) generated w
      end
  end.

(** [commitWorkflow]: [git add .] comes first, outside any [try]. *)
Definition commitWorkflow_of (processCommit : jstring -> M unit)
  (linear_gate : M bool) (hint : jstring) : M unit :=
  execSync (str "git add .") ;;
  after_staging processCommit linear_gate hint.

(** *** workflows/commit-workflow.ts, as the file of that name has it *)

Module Named.

(** The [catch] of the push. *)
Definition on_push_failure (branch error : jstring) : M unit :=
  log Failure (str "Failed to push changes") ;;
  let error_str := String_of_error error in
  if includes error_str (str "non-fast-forward") || includes error_str (str "rejected")
  then
    action <- select (str "Remote has changes. What would you like to do?") ;;
    if jstring_eqb action (str "pull") then pull_then_push branch
    else if jstring_eqb action (str "rebase") then rebase_then_push branch
    else if jstring_eqb action (str "force") then
      execSync (force_push_command branch) ;;
      log Success (str "Changes force-pushed successfully!")
    else ret tt
  else
    force_push <- confirm (str "Force push?") ;;
    if force_push then
      execSync (force_push_command branch) ;;
      log Success (str "Changes force-pushed successfully!")
    else ret tt.

Definition processCommit (message : jstring) : M unit :=
  log Start (str "Committing changes...") ;;
  try_catch (commit_and_push on_push_failure message)
    (fun error =>
       log Failure (str "Failed to commit changes") ;;
       log Failure error ;;
       process_exit 1).

Definition commitWorkflow : M unit :=
  commitWorkflow_of processCommit (ret true) (str "div-flow config init").

End Named.

(** *** workflows/commit-workflow.ts, in the revision that guards the
    force push and explains a failed commit hook *)

Module Guarded.

Definition refuse_force_push (branch : jstring) (hint : bool) : M unit :=
  log Failure (blocked_message branch) ;;
  log Failure (str "Protected branches (main, develop, staging) cannot be force-pushed.") ;;
  log Failure (str "This is a safety measure to prevent accidental overwriting of critical branches.") ;;
  if hint
  then log Info (str "Please use pull/rebase instead, or switch to a feature branch.")
  else ret tt.

(** The [catch] of the push. *)
Definition on_push_failure (branch error : jstring) : M unit :=
  log Failure (str "Failed to push changes") ;;
  let error_str := String_of_error error in
  if includes error_str (str "non-fast-forward") || includes error_str (str "rejected")
  then
    action <- select (str "Remote has changes. What would you like to do?") ;;
    if jstring_eqb action (str "pull") then pull_then_push branch
    else if jstring_eqb action (str "rebase") then rebase_then_push branch
    else if jstring_eqb action (str "force") then
      if Git.isProtectedBranch branch then refuse_force_push branch true
      else
        execSync (force_push_command branch) ;;
        log Success (str "Changes force-pushed successfully!")
    else ret tt
  else
    force_push <- confirm (str "Force push?") ;;
    if force_push then
      if Git.isProtectedBranch branch then refuse_force_push branch false
      else
        execSync (force_push_command branch) ;;
        log Success (str "Changes force-pushed successfully!")
    else ret tt.

Definition isHookFailure (error_str : jstring) : bool :=
  includes error_str (str "husky") || includes error_str (str "pre-commit") ||
  includes error_str (str "lint-staged") || includes error_str (str "ESLint") ||
  includes error_str (str "eslint") ||
  includes error_str (str "pre-commit script failed").

Definition is_error_line (line : jstring) : bool :=
  let trimmed := trim line in
  includes trimmed (str "TypeError:") || includes trimmed (str "Error:") ||
  (includes trimmed (str "ESLint:") && (length trimmed <? 100)) ||
  includes trimmed (str "Rule:") || includes trimmed (str "Occurred while linting").

Definition is_file_info (line : jstring) : bool :=
  includes line (str "Occurred while linting") || includes line (str ".ts:") ||
  includes line (str ".js:").

Definition clean_error_parts (error_message : jstring) : list jstring :=
  let lines := split_on LF error_message in
  let parts :=
    match find is_error_line lines with
    | Some error_line => [trim error_line]
    | None => []
    end in
  match find is_file_info lines with
  | Some file_info =>
      if existsb (jstring_eqb (trim file_info)) parts then parts
      else parts ++ [trim file_info]
  | None => parts
  end.

(** The [catch] of the commit, for a failure of a commit hook. *)
Definition on_hook_failure (message error_message : jstring) : M unit :=
  log Failure (str "Commit failed due to pre-commit hook") ;;
  log Warning (str "Your git hooks (husky/lint-staged) prevented the commit.") ;;
  let parts := clean_error_parts error_message in
  (match parts with
   | [] => log Warning (str "Pre-commit hook failed. Check the error details above.")
   | _ => log Box (join [LF] parts)
   end) ;;
  let error_for_ai :=
    match join [LF] parts with
    | [] =>
        match find is_error_line (split_on LF error_message) with
        | Some ((_ :: _) as error_line) => error_line
        | _ => str "ESLint pre-commit hook failed"
        end
    | joined => joined
    end in
  log Start (str "Generating user-friendly error explanation...") ;;
  explanation <- AI.explainError error_for_ai ;;
  (match explanation with
   | Some text =>
       if negb (starts_with (str "{") text) && (50 <? length text) then
         log Success (str "Error explanation:") ;; log Plain text
       else if includes error_message (str "TypeError") &&
               includes error_message (str "typeParameters.params")
       then log Failure (str "ESLint plugin bug detected")
       else if includes error_message (str "ESLint")
       then log Failure (str "ESLint found errors in your code.")
       else ret tt
   | None =>
       if includes error_message (str "TypeError") &&
          includes error_message (str "typeParameters.params")
       then log Failure (str "ESLint plugin bug detected")
       else if includes error_message (str "ESLint")
       then log Failure (str "ESLint found errors in your code.")
       else ret tt
   end) ;;
  action <- select (str "What would you like to do?") ;;
  if jstring_eqb action (str "skip") then
    log Warning (str "Skipping git hooks - this bypasses code quality checks!") ;;
    confirm_skip <- confirm (str "Are you sure you want to skip hooks?") ;;
    if confirm_skip then
      try_catch
        (execSync (commit_command message ++ str " --no-verify") ;;
         log Success (str "Changes committed (hooks skipped)!") ;;
         out <- execSync (str "git branch --show-current") ;;
         let branch := trim out in
         should_push <- confirm (str "Push to origin?") ;;
         if should_push then
           runCommandWithOutput (push_command branch)
             (str "Pushing to origin/" ++ branch ++ str "...") ;;
           ret tt
         else ret tt)
        (fun skip_error =>
           log Failure (str "Failed to commit even with --no-verify") ;;
           log Failure skip_error ;;
           process_exit 1)
    else
      log Info (str "Commit cancelled. Please fix the issues and try again.") ;;
      process_exit 0
  else if jstring_eqb action (str "fix") then
    log Info (str "Please fix the issues shown above and run dflow commit again.") ;;
    process_exit 1
  else
    log Info (str "Commit cancelled.") ;; process_exit 0.

Definition processCommit (message : jstring) : M unit :=
  log Start (str "Committing changes...") ;;
  try_catch (commit_and_push on_push_failure message)
    (fun error_message =>
       if isHookFailure error_message then on_hook_failure message error_message
       else
         log Failure (str "Failed to commit changes") ;;
         log Failure error_message ;;
         process_exit 1).

(** [isLinearEnabled] of config/config-validation.ts *)
Definition isLinearEnabled : M bool :=
  config <- getConfig ;;
  ret (Config.linear_enabled_of config).

Definition commitWorkflow : M unit :=
  commitWorkflow_of processCommit isLinearEnabled (str "dflow config init").

End Guarded.

(** One modified file and nothing staged, the tool run at the root of the
    repository. *)
Definition one_change : git_state :=
  {| staged := []; unstaged := [str "src/cli.ts"]; untracked := [];
     cwd := [] |}.

(** A push to [main] that the remote rejects, answered with "force": the
    two commands of the commit, the branch, the push prompt, the rejected
    push, the choice, and the reply to whatever command follows. *)
Definition rejected_then_force : list reply :=
  [Prints []; Prints []; Prints (str "main" ++ [LF]); Confirms true;
   Fails (str "Command failed: git push origin main ! [rejected] main -> main (non-fast-forward)");
   Selects (str "force"); Prints []].

(** No command [git push --force origin <branch>] whose [<branch>] is the
    name of a protected branch.  The command is compared as the text the
    workflow builds, not as the shell or [git] may read it: a name that
    holds shell syntax, or that [git] resolves to a protected branch under
    another spelling, is not told apart here. *)
Definition no_protected_force (e : event) : Prop :=
  match e with
  | Exec c => forall b, c = force_push_command b -> Git.isProtectedBranch b = false
  | _ => True
  end.

(** Everything is staged: nothing is left modified or untracked, and the
    index holds all the changes [all], or nothing once they are committed. *)
Definition all_staged (all : list jstring) (g : git_state) : Prop :=
  unstaged g = [] /\ untracked g = [] /\ (staged g = all \/ staged g = []).

(** "[commitWorkflow] runs [git add .] unconditionally before reading the
    git status": the command is the first event of every run, and when it
    succeeds the first command of [getGitStatus] is the next. *)
Definition stages_before_status (commitWorkflow : M unit) : Prop :=
  forall w,
    begins_at w [Exec (str "git add .")] commitWorkflow /\
    (forall out rest, script w = Prints out :: rest ->
       begins_at w [Exec (str "git add .");
                    Exec (str "git diff --cached --name-only")]
         commitWorkflow).

(** "[processCommit] runs [git add .] again before committing": the command
    follows the first log line in every run, and when it succeeds and so
    does the commit of a message that is not blank and holds no character
    the shell reads inside double quotes, the commit takes what the index
    then holds. *)
Definition stages_before_commit (processCommit : jstring -> M unit) : Prop :=
  forall message w,
    begins_at w [Logged Start (str "Committing changes...");
                 Exec (str "git add .")]
      (processCommit message) /\
    (forall out1 out2 rest,
       script w = Prints out1 :: Prints out2 :: rest ->
       plain_message message = true -> blank_message message = false ->
       staged (stage_here (git w)) <> [] ->
       begins_at w [Logged Start (str "Committing changes...");
                    Exec (str "git add .");
                    Exec (commit_command message);
                    Committed (staged (stage_here (git w)))
                      (unstaged (stage_here (git w))
                       ++ untracked (stage_here (git w)))]
         (processCommit message)).

(** The staging prompt is not shown, and a commit takes all the changes
    [all] and leaves nothing out. *)
Definition stages_everything (all : list jstring) (e : event) : Prop :=
  match e with
  | Asked q => q <> staged_question
  | Committed files left_out => files = all /\ left_out = []
  | _ => True
  end.

(** Every change that is not staged yet lies under the directory of the
    process, as it does at the root of the repository. *)
Definition all_under_cwd (g : git_state) : Prop :=
  forall path, In path (unstaged g ++ untracked g) -> under_cwd g path = true.

Definition all_changes (g : git_state) : list jstring :=
  staged g ++ unstaged g ++ untracked g.

(** The staging prompt is never shown, and every commit takes all the
    changes of [g] and leaves none out. *)
Definition commits_everything (commitWorkflow : M unit)
  (g : git_state) (fs : Config.filesystem) (e : Config.environment)
  (replies : list reply) : Prop :=
  let w := snd (commitWorkflow (start g fs e replies)) in
  ~ In (Asked staged_question) (trace w) /\
  forall files left_out,
    In (Committed files left_out) (trace w) ->
    files = all_changes g /\ left_out = [].

(** The tool run from the directory [docs/] of the repository: one modified
    file outside of it, and one inside as well. *)
Definition change_outside : git_state :=
  {| staged := []; unstaged := [str "src/cli.ts"]; untracked := [];
     cwd := str "docs/" |}.

Definition changes_inside_and_outside : git_state :=
  {| staged := []; unstaged := [str "docs/guide.md"; str "src/cli.ts"];
     untracked := []; cwd := str "docs/" |}.

(** A run that commits with a message entered by hand. *)
Definition manual_commit_replies : list reply :=
  [Prints []; Prints []; Prints []; Prints [];
   Prints (str "main"); Confirms false; Types [];
   Prints []; Prints []; Confirms true;
   Selects (str "fix"); Types (str "typo");
   Prints []; Prints []; Prints (str "main");
   Confirms false].

Definition run_processCommit (processCommit : jstring -> M unit)
  (g : git_state) (replies : list reply) : outcome unit * world :=
  processCommit (str "fix: typo") (start g Config.no_files (fun _ => None) replies).

End Commit.

(* ===================================================================== *)
(** ** workflows/git.ts: the types of branches *)
(* ===================================================================== *)

Module Branches.
Import JS.

(** [type BranchType] *)
Inductive BranchType : Type :=
| TFeature | TRelease | THotfix | TDevelop | TMain | TStaging | TUnknown.

(** [getBranchType] *)
Definition getBranchType (branch : jstring) : BranchType :=
  if jstring_eqb branch (str "main") then TMain
  else if jstring_eqb branch (str "develop") then TDevelop
  else if jstring_eqb branch (str "staging") then TStaging
  else if starts_with (str "feature/") branch then TFeature
  else if starts_with (str "release/") branch then TRelease
  else if starts_with (str "hotfix/") branch then THotfix
  else TUnknown.

(** [getBaseBranchFor] *)
Definition getBaseBranchFor (type : BranchType) : jstring :=
  match type with
  | TFeature => str "develop"
  | THotfix => str "main"
  | TRelease => str "main"
  | _ => str "main"
  end.

End Branches.

(* ===================================================================== *)
(** ** config/config-manager.ts and config/config-validation.ts: the queries *)
(* ===================================================================== *)

Module ConfigQueries.
Import JS Config.

(** [getConfigValue] *)
Definition getConfigValue (key : ConfigKey) (fs : filesystem) (env : environment)
  : option cvalue :=
  fst (getConfig fs env) key.

(** [listConfig] *)
Definition listConfig (fs : filesystem) (env : environment)
  : Config * list log_entry :=
  getConfig fs env.

(** [getConfigPath]: the local path when a file is there, whatever is in
    it. *)
Definition getConfigPath (fs : filesystem) : path :=
  match file fs LocalConfigPath with
  | Some _ => LocalConfigPath
  | None => GlobalConfigPath
  end.

(** [REQUIRED_CONFIG_KEYS] of config/config.ts *)
Definition REQUIRED_CONFIG_KEYS : list ConfigKey := [googleAiKey; githubToken].

(** [!value || (typeof value === "string" && value.trim() === "")] *)
Definition is_blank (value : option cvalue) : bool :=
  match value with
  | None => true
  | Some (VStr s) => match trim s with [] => true | _ :: _ => false end
  | Some (VBool b) => negb b
  end.

(** The loop of config/config-validation.ts that collects the required keys
    without a value. *)
Definition collect_missing (config : Config) : list jstring :=
  fold_left
    (fun missing key =>
       if is_blank (config key) then missing ++ [key_name key] else missing)
    REQUIRED_CONFIG_KEYS [].

(** [validateRequiredConfig] *)
Definition validateRequiredConfig (fs : filesystem) (env : environment) : bool :=
  let config := fst (getConfig fs env) in
  let missing := collect_missing config in
  if 0 <? length missing then false else true.

(** [getMissingConfigKeys] *)
Definition getMissingConfigKeys (fs : filesystem) (env : environment)
  : list jstring :=
  let config := fst (getConfig fs env) in
  collect_missing config.

(** The vocabulary of the properties.  A value fits a key when it has the
    type the schema gives the key. *)
Definition fits (k : ConfigKey) (v : cvalue) : bool :=
  match configSchema k, v with
  | OptionalString, VStr _ => true
  | OptionalBooleanDefaultTrue, VBool _ => true
  | _, _ => false
  end.

Definition well_typed (c : Config) : Prop :=
  forall k v, c k = Some v -> fits k v = true.

(** The configuration with the default of the schema filled in. *)
Definition with_default (c : Config) : Config :=
  fun k =>
    match c k with
    | Some v => Some v
    | None => match k with
              | linearEnabled => Some (VBool true)
              | _ => None
              end
    end.

(** A variable that is set to a text that is not empty. *)
Definition env_value (env : environment) (name : jstring) : option jstring :=
  match env name with
  | Some ((_ :: _) as v) => Some v
  | _ => None
  end.

End ConfigQueries.

(* ===================================================================== *)
(** ** commands/config.ts *)
(* ===================================================================== *)

Module ConfigCommands.
Import JS IO ConfigQueries.

(** [setConfigValue] of config/config-manager.ts, on the files of the
    world: the entries it logs, and the exception of a write that fails
    (the error of [Bun.write], thrown again; its message is not modelled). *)
Definition log_entry_event (e : Config.log_entry) : event :=
  match e with
  | Config.Warn_read_failed _ => Logged Warning (str "Failed to read config file")
  | Config.Error_write_failed _ => Logged Failure (str "Failed to write config file")
  end.

Definition setConfigValue (key : Config.ConfigKey) (value : Config.cvalue) : M unit :=
  fun w =>
    let '(ok, fs', entries) := Config.setConfigValue key value (files w) in
    let w' := {| git := git w; files := fs'; env := env w; script := script w;
                 trace := trace w ++ map log_entry_event entries |} in
    if ok then (Returned tt, w') else (Thrown (str "write failed"), w').

(** [CONFIG_KEYS.includes(key)], with the key it names. *)
Definition key_of_name (key : jstring) : option Config.ConfigKey :=
  find (fun k => jstring_eqb (Config.key_name k) key) Config.CONFIG_KEYS.

Definition reject_key {A} (key : jstring) : M A :=
  log Failure (str "Invalid config key: " ++ key) ;;
  log Info (str "Valid keys: "
            ++ join (str ", ") (map Config.key_name Config.CONFIG_KEYS)) ;;
  process_exit 1.

(** [if (value)] on a value of a configuration. *)
Definition truthy (v : Config.cvalue) : bool :=
  match v with
  | Config.VStr s => match s with [] => false | _ :: _ => true end
  | Config.VBool b => b
  end.

(** What [console.log(value)] prints. *)
Definition String_of_value (v : Config.cvalue) : jstring :=
  match v with
  | Config.VStr s => s
  | Config.VBool b => if b then str "true" else str "false"
  end.

(** [handleConfigGet] *)
Definition handleConfigGet (key : jstring) : M unit :=
  match key_of_name key with
  | None => reject_key key
  | Some k =>
      config <- getConfig ;;
      match config k with
      | Some value =>
          if truthy value then log Plain (String_of_value value)
          else
            log Warning (str "Config key " ++ [DQ] ++ key ++ [DQ] ++ str " is not set") ;;
            process_exit 1
      | None =>
          log Warning (str "Config key " ++ [DQ] ++ key ++ [DQ] ++ str " is not set") ;;
          process_exit 1
      end
  end.

(** [handleConfigSet]: the value is the string of the command line. *)
Definition handleConfigSet (key value : jstring) : M unit :=
  match key_of_name key with
  | None => reject_key key
  | Some k =>
      setConfigValue k (Config.VStr value) ;;
      log Success (str "Set " ++ key ++ str " successfully")
  end.

(** The masked form of a secret: its first and last four characters around
    stars, or four stars for a secret of at most eight characters. *)
Definition mask (value : jstring) : jstring :=
  if 8 <? length value
  then firstn 4 value ++ repeat "*"%char (length value - 8)
       ++ skipn (length value - 4) value
  else str "****".

(** One line of [handleConfigList]. *)
Definition config_line (key : Config.ConfigKey) (value : option Config.cvalue)
  : jstring :=
  str "  " ++ Config.key_name key ++ str ": " ++
  match value with
  | Some v =>
      match key with
      | Config.linearEnabled => if truthy v then str "true" else str "false"
      | _ =>
          match v with
          | Config.VStr ((_ :: _) as s) => mask s
          | _ => str "(not set)"
          end
      end
  | None => str "(not set)"
  end.

Fixpoint log_lines (lines : list jstring) : M unit :=
  match lines with
  | [] => ret tt
  | l :: tl => log Plain l ;; log_lines tl
  end.

(** [handleConfigList] *)
Definition handleConfigList : M unit :=
  config <- getConfig ;;
  log Box (str "Configuration") ;;
  log_lines (map (fun key => config_line key (config key)) Config.CONFIG_KEYS).

(** [if (s && s.trim())] *)
Definition not_blank (s : jstring) : bool :=
  match trim s with [] => false | _ :: _ => true end.

(** [handleConfigModify] *)
Definition handleConfigModify : M unit :=
  log Start (str "Configure flow") ;;
  selected <- select (str "What would you like to configure?") ;;
  if jstring_eqb selected (str "back") then ret tt
  else
    (if jstring_eqb selected (str "linearEnabled") then
       currentConfig <- getConfig ;;
       let currentValue := Config.linear_enabled_of currentConfig in
       newValue <-
         confirm (str "Linear integration is currently "
                  ++ (if currentValue then str "enabled" else str "disabled")
                  ++ str ". Enable Linear integration?") ;;
       setConfigValue Config.linearEnabled (Config.VBool newValue) ;;
       log Success (str "Linear integration "
                    ++ (if newValue then str "enabled" else str "disabled"))
     else
       currentConfig <- getConfig ;;
       let currentValue :=
         match key_of_name selected with
         | Some k => currentConfig k
         | None => None
         end in
       let promptMessage :=
         match currentValue with
         | Some (Config.VStr ((_ :: _) as s)) =>
             str "Enter new value for " ++ selected ++ str " (current: "
             ++ mask s ++ str "):"
         | _ => str "Enter new value for " ++ selected ++ str ":"
         end in
       newValue <- ask_text promptMessage ;;
       if not_blank newValue then
         match key_of_name selected with
         | Some k =>
             setConfigValue k (Config.VStr (trim newValue)) ;;
             log Success (str "Updated " ++ selected ++ str " successfully")
         | None => block
         end
       else log Warning (str "No value provided. Configuration not changed.")) ;;
    handleConfigList.

(** [handleConfigInit]: the values are written one by one, in the order in
    which the object got them, once all the prompts are answered. *)
Definition handleConfigInit : M unit :=
  log Start (str "Setting up flow configuration...") ;;
  googleAiKey <- ask_text (str "Enter your Google AI API key (required):") ;;
  (if not_blank googleAiKey then ret tt
   else log Failure (str "Google AI API key is required!") ;; process_exit 1) ;;
  githubToken <- ask_text (str "Enter your GitHub token (required):") ;;
  (if not_blank githubToken then ret tt
   else log Failure (str "GitHub token is required!") ;; process_exit 1) ;;
  enableLinear <- confirm (str "Enable Linear integration?") ;;
  linearApiKey <-
    (if enableLinear then
       linearApiKey <- ask_text (str "Enter your Linear API key (optional):") ;;
       ret (if not_blank linearApiKey then Some (trim linearApiKey) else None)
     else ret None) ;;
  setConfigValue Config.googleAiKey (Config.VStr (trim googleAiKey)) ;;
  setConfigValue Config.githubToken (Config.VStr (trim githubToken)) ;;
  setConfigValue Config.linearEnabled (Config.VBool enableLinear) ;;
  (match linearApiKey with
   | Some key => setConfigValue Config.linearApiKey (Config.VStr key)
   | None => ret tt
   end) ;;
  log Success (str "Configuration saved successfully!") ;;
  handleConfigList.

End ConfigCommands.

(* ===================================================================== *)
(** ** JavaScript built-ins: numbers as text *)
(* ===================================================================== *)

Module JSNumbers.
Import JS.

(** [String(n)], and [n] inside a template literal, for a number that is a
    non-negative integer: its decimal digits, the most significant first.
    The count [fuel] bounds the number of digits.  These are the digits the
    code prints for every integer below 10^21 that a double holds exactly,
    so for every integer up to 2^53. *)
Definition digit_char (d : N) : ascii := ascii_of_N (48 + d).

Fixpoint digits_of (fuel : nat) (n : N) (acc : jstring) : jstring :=
  match fuel with
  | 0 => acc
  | S fuel' =>
      let acc' := digit_char (n mod 10) :: acc in
      if (n <? 10)%N then acc' else digits_of fuel' (n / 10) acc'
  end.

Definition String_of_N (n : N) : jstring :=
  digits_of (S (N.to_nat (N.size n))) n [].

(** [s.padStart(n, pad)] for a one-character [pad]. *)
Definition padStart (n : nat) (pad : ascii) (s : jstring) : jstring :=
  repeat pad (n - length s) ++ s.

(** [r.test(s)] *)
Definition test (r : regex) (s : jstring) : bool :=
  match exec r s with Some _ => true | None => false end.

End JSNumbers.

(* ===================================================================== *)
(** ** workflows/release-workflow.ts: starting and staging a release *)
(* ===================================================================== *)

Module ReleaseFlow.
Import JS IO JSNumbers.

(** What [new Date()] gives [getTodayDateFormat]: the year, the month counted
    from 0 and the day of the month. *)
Record Date : Type := { getFullYear : N; getMonth : N; getDate : N }.

(** [getTodayDateFormat] *)
Definition getTodayDateFormat (today : Date) : jstring :=
  let yyyy := getFullYear today in
  let mm := padStart 2 "0" (String_of_N (getMonth today + 1)) in
  let dd := padStart 2 "0" (String_of_N (getDate today)) in
  String_of_N yyyy ++ mm ++ dd.

(** [/^\d{8}$/], the pattern of the validator of the date prompt. *)
Fixpoint times (n : nat) (r : regex) : regex :=
  match n with
  | 0 => Eps
  | S n' => Seq r (times n' r)
  end.

Definition date_pattern : regex :=
  Seq Bol (Seq (times 8 (Chr is_digit)) Eol).

(** [getNextReleaseIncrement], with the command it runs. *)
Definition getNextReleaseIncrement (date : jstring) : M N :=
  try_catch
    (out <- execSync (str "git branch -r") ;;
     ret (Release.getNextReleaseIncrement (Some out) date))
    (fun _ => ret (Release.getNextReleaseIncrement None date)).

(** [`release/${release_date}.${increment}`] *)
Definition release_branch_name (release_date : jstring) (increment : N) : jstring :=
  str "release/" ++ release_date ++ str "." ++ String_of_N increment.

(** [startRelease].  The reply to the date prompt is the date the prompt
    returns, today's date when the user keeps the default.  The pictographs
    at the head of some messages are outside the strings of the model and
    left out. *)
Definition startRelease : M unit :=
  log Start (str "Starting new release...") ;;
  current_branch <- Commit.getCurrentBranch ;;
  (if jstring_eqb current_branch (str "develop") then ret tt
   else
     log Warning (str "You're currently on: " ++ current_branch) ;;
     should_switch <- confirm (str "Switch to develop first?") ;;
     if should_switch then
       log Start (str "Checking out develop...") ;;
       try_catch
         (execSync (str "git fetch origin develop") ;;
          execSync (str "git checkout develop") ;;
          execSync (str "git pull origin develop") ;;
          log Success (str "Switched to develop"))
         (fun _ => log Failure (str "Failed to switch to develop") ;; process_exit 1)
     else
       log Warning (str "Release should branch from develop") ;; process_exit 1) ;;
  release_date <- ask_text (str "Release date (YYYYMMDD):") ;;
  increment <- getNextReleaseIncrement release_date ;;
  let branch_name := release_branch_name release_date increment in
  log Start (str "Creating release branch: " ++ branch_name) ;;
  try_catch
    (execSync (str "git checkout -b " ++ branch_name) ;;
     execSync (str "git push -u origin " ++ branch_name) ;;
     log Success (str "Release branch created: " ++ branch_name) ;;
     log Info (str "Next steps:") ;;
     log Info (str "1. Test on staging: flow-automator -> Stage release") ;;
     log Info (str "2. When ready: flow-automator -> Finish release"))
    (fun error =>
       log Failure (str "Failed to create release branch") ;;
       log Failure error ;;
       process_exit 1).

Definition staging_push_command (branch : jstring) : jstring :=
  str "git push -u origin " ++ branch ++ str ":staging --force".

(** [stageRelease] *)
Definition stageRelease : M unit :=
  log Start (str "Preparing release for staging...") ;;
  current_branch <- Commit.getCurrentBranch ;;
  (if starts_with (str "release/") current_branch then ret tt
   else
     log Failure (str "You're not on a release branch! Current: " ++ current_branch) ;;
     process_exit 1) ;;
  log Info (str "Pushing " ++ current_branch ++ str " to staging branch...") ;;
  try_catch
    (execSync (staging_push_command current_branch) ;;
     log Success (str "Release pushed to staging") ;;
     log Info (str "Staging deployment is in progress...") ;;
     log Info (str "Testing will run automatically on your staging environment"))
    (fun error =>
       log Failure (str "Failed to push to staging") ;;
       log Failure error ;;
       process_exit 1).

(** The commands of [stageRelease]: the query of the current branch, and
    the forced push of a release branch to staging. *)
Definition stage_command (e : event) : Prop :=
  match e with
  | Exec c =>
      c = str "git branch --show-current" \/
      exists branch, starts_with (str "release/") branch = true /\
                     c = staging_push_command branch
  | _ => True
  end.

(** The commands of [startRelease]: the fixed ones, and the creation and
    the push of a release branch with a number from 1. *)
Definition release_command (e : event) : Prop :=
  match e with
  | Exec c =>
      In c [str "git branch --show-current"; str "git fetch origin develop";
            str "git checkout develop"; str "git pull origin develop";
            str "git branch -r"] \/
      exists date n, (1 <= n)%N /\
        (c = str "git checkout -b " ++ release_branch_name date n \/
         c = str "git push -u origin " ++ release_branch_name date n)
  | _ => True
  end.

End ReleaseFlow.

(* ===================================================================== *)
(** ** workflows/feature-workflow.ts and workflows/hotfix-workflow.ts: the branch names *)
(* ===================================================================== *)

Module Feature.
Import JS Linear Branches.

(** [/\s+/g] and [/[^a-z0-9-]/g] *)
Definition spaces_pattern : regex := Plus (Chr is_space).
Definition other_char (c : ascii) : bool :=
  negb (is_lower c || is_digit c || Ascii.eqb c "-").
Definition other_pattern : regex := Chr other_char.

(** [kebab_description] of [startFeature] and [startHotfix] *)
Definition kebab_description (description : jstring) : jstring :=
  replace_all
    (replace_all
       (replace_all
          (replace_all (toLowerCase description) spaces_pattern (str "-"))
          other_pattern (str "-"))
       dashes_pattern (str "-"))
    edge_dash_pattern [].

(** [branch_name] of [startFeature]: [null] and the empty string are
    falsy. *)
Definition feature_branch_name (linear_id : option jstring) (description : jstring)
  : jstring :=
  match linear_id with
  | Some ((_ :: _) as linear_id) =>
      str "feature/" ++ toLowerCase linear_id ++ str "-"
      ++ kebab_description description
  | _ => str "feature/" ++ kebab_description description
  end.

(** [branch_name] of [startHotfix] *)
Definition hotfix_branch_name (description : jstring) : jstring :=
  str "hotfix/" ++ kebab_description description.

(** The three [replace] calls before the last, read as list functions: a
    run of characters of a class becomes one hyphen, a character of a class
    becomes a hyphen. *)
Fixpoint squeeze (p : ascii -> bool) (in_run : bool) (s : jstring) : jstring :=
  match s with
  | [] => []
  | c :: t =>
      if p c then
        if in_run then squeeze p true t
        else "-"%char :: squeeze p true t
      else c :: squeeze p false t
  end.

Definition dash_class (p : ascii -> bool) (c : ascii) : ascii :=
  if p c then "-"%char else c.

(** A lower-case letter, a digit or a hyphen. *)
Definition kebab_char (c : ascii) : bool :=
  is_lower c || is_digit c || is_dash c.

End Feature.

(* ===================================================================== *)
(** ** workflows/ai.ts: the content of a Linear issue *)
(* ===================================================================== *)

Module AIContent.
Import JS IO AI.

(** What it means for a value to satisfy [linear_content_schema]. *)
Definition valid_linear_content (c : LinearContent) : Prop :=
  1 <= length (lc_title c) <= 200 /\
  1 <= length (lc_description c) /\
  (priority c <= 4)%N /\
  (forall n, estimate c = Some n -> (n <= 6)%N) /\
  (forall l, suggested_label c = Some l -> In l linear_labels).

(** A non-empty text without white space at its ends. *)
Definition trimmed_text (t : jstring) : Prop := t <> [] /\ trim t = t.

End AIContent.

(* ===================================================================== *)
(** * Properties *)
(* ===================================================================== *)

(** ** Facts about the JavaScript built-ins *)

Module JSFacts.
Import JS.

Lemma jstring_eqb_eq a b : jstring_eqb a b = true <-> a = b.
Proof.
  unfold jstring_eqb. destruct (list_eq_dec ascii_dec a b); split; congruence.
Qed.

Lemma jstring_eqb_refl a : jstring_eqb a a = true.
Proof. now apply jstring_eqb_eq. Qed.

Lemma orelse_none_r {A} (a : option A) : orelse a None = a.
Proof. now destruct a. Qed.

(** *** Unfolding the matcher one constructor at a time *)

Lemma rmatch_chr p st k :
  rmatch (Chr p) st k
  = match rest st with
    | c :: t => if p c then k (MState (S (pos st)) t (caps st)) else None
    | [] => None
    end.
Proof. reflexivity. Qed.

Lemma rmatch_seq r1 r2 st k :
  rmatch (Seq r1 r2) st k = rmatch r1 st (fun st' => rmatch r2 st' k).
Proof. reflexivity. Qed.

Lemma rmatch_alt r1 r2 st k :
  rmatch (Alt r1 r2) st k = orelse (rmatch r1 st k) (rmatch r2 st k).
Proof. reflexivity. Qed.

Lemma rmatch_opt r st k :
  rmatch (Opt r) st k = orelse (rmatch r st k) (k st).
Proof. reflexivity. Qed.

Lemma rmatch_grp i r st k :
  rmatch (Grp i r) st k
  = rmatch r st (fun st' =>
      k (set_cap i (firstn (pos st' - pos st) (rest st)) st')).
Proof. reflexivity. Qed.

Lemma rmatch_bol st k :
  rmatch Bol st k = if Nat.eqb (pos st) 0 then k st else None.
Proof. reflexivity. Qed.

Lemma rmatch_eol st k :
  rmatch Eol st k = match rest st with [] => k st | _ :: _ => None end.
Proof. reflexivity. Qed.

(** *** Runs of a character class *)

Lemma take_drop_while p s : take_while p s ++ drop_while p s = s.
Proof.
  induction s as [|c t IH]; simpl; [reflexivity|].
  destruct (p c); simpl; congruence.
Qed.

Lemma take_while_all p s : forallb p (take_while p s) = true.
Proof.
  induction s as [|c t IH]; simpl; [reflexivity|].
  destruct (p c) eqn:E; simpl; [now rewrite E|reflexivity].
Qed.

Lemma drop_while_head p s c t : drop_while p s = c :: t -> p c = false.
Proof.
  induction s as [|a s IH]; simpl; [discriminate|].
  destruct (p a) eqn:E; [exact IH|]. intros [= <- _]. exact E.
Qed.

(** A run followed by a character outside the class is the maximal run. *)
Lemma take_while_app p l s :
  forallb p l = true ->
  match s with [] => True | c :: _ => p c = false end ->
  take_while p (l ++ s) = l /\ drop_while p (l ++ s) = s.
Proof.
  intros Hl Hs. induction l as [|a l IH]; simpl in *.
  - destruct s as [|c t]; simpl; [auto|]. now rewrite Hs.
  - apply andb_prop in Hl as [Ha Hl]. rewrite Ha.
    destruct (IH Hl) as [-> ->]. auto.
Qed.

(** *** The greedy loop over a character class *)

Lemma plus_loop_class p k :
  forall n st, length (rest st) < n ->
  plus_loop (rmatch (Chr p)) k n st
  = try_runs p k (pos st) (rest st) (caps st).
Proof.
  induction n as [|n IH]; intros st Hn; [lia|].
  destruct st as [i s cs]. simpl in *.
  destruct s as [|c t]; simpl; [reflexivity|].
  destruct (p c); [|reflexivity].
  assert (Hlt : (length t <? S (length t)) = true) by (apply Nat.ltb_lt; lia).
  rewrite Hlt. rewrite IH by (simpl in *; lia). reflexivity.
Qed.

Lemma rmatch_plus_class p k st :
  rmatch (Plus (Chr p)) st k = try_runs p k (pos st) (rest st) (caps st).
Proof.
  change (rmatch (Plus (Chr p)) st k)
    with (plus_loop (rmatch (Chr p)) k (S (length (rest st))) st).
  apply plus_loop_class. lia.
Qed.

Lemma take_while_nil p s : take_while p s = [] -> drop_while p s = s.
Proof. destruct s as [|c t]; simpl; [reflexivity|]. now destruct (p c). Qed.

Lemma take_while_cons p s a run :
  take_while p s = a :: run -> exists t, s = a :: t /\ p a = true.
Proof.
  destruct s as [|c t]; simpl; [discriminate|].
  destruct (p c) eqn:E; [|discriminate]. intros [= <- _]. eauto.
Qed.

Lemma try_runs_step p k c t i cs :
  p c = true ->
  try_runs p k i (c :: t) cs
  = orelse (try_runs p k (S i) t cs) (k (MState (S i) t cs)).
Proof. intros H. simpl. now rewrite H. Qed.

(** When the continuation rejects every position inside the run, only the
    maximal run can succeed. *)
Lemma try_runs_maximal p k :
  (forall i c t cs, p c = true -> k (MState i (c :: t) cs) = None) ->
  forall s i cs,
  try_runs p k i s cs
  = match take_while p s with
    | [] => None
    | run => k (MState (i + length run) (drop_while p s) cs)
    end.
Proof.
  intros Hk. induction s as [|c t IH]; intros i cs; [reflexivity|].
  destruct (p c) eqn:Hc; [|simpl; now rewrite Hc].
  rewrite try_runs_step by assumption. rewrite IH.
  cbn [take_while drop_while]. rewrite Hc.
  destruct (take_while p t) as [|a run] eqn:Et.
  - rewrite (take_while_nil _ _ Et). simpl.
    now replace (i + 1) with (S i) by lia.
  - destruct (take_while_cons _ _ _ _ Et) as (t' & -> & Ha).
    rewrite (Hk (S i) a t' cs Ha), orelse_none_r.
    f_equal. f_equal. simpl. lia.
Qed.

(** When the continuation accepts every state, the loop stops at the end of
    the maximal run. *)
Lemma try_runs_greedy p (k : mstate -> option mstate) :
  (forall st, k st <> None) ->
  forall s i cs,
  try_runs p k i s cs
  = match take_while p s with
    | [] => None
    | run => k (MState (i + length run) (drop_while p s) cs)
    end.
Proof.
  intros Hk. induction s as [|c t IH]; intros i cs; [reflexivity|].
  destruct (p c) eqn:Hc; [|simpl; now rewrite Hc].
  rewrite try_runs_step by assumption. rewrite IH.
  cbn [take_while drop_while]. rewrite Hc.
  destruct (take_while p t) as [|a run] eqn:Et.
  - rewrite (take_while_nil _ _ Et). simpl.
    now replace (i + 1) with (S i) by lia.
  - replace (i + length (c :: a :: run)) with (S i + length (a :: run))
      by (simpl; lia).
    destruct (k (MState (S i + length (a :: run)) (drop_while p t) cs)) eqn:E;
      [reflexivity|]. now apply Hk in E.
Qed.

(** *** Literals under the [i] flag *)

Lemma rmatch_LitI w : forall st k,
  rmatch (LitI w) st k
  = match strip_i w (rest st) with
    | Some t => k (MState (pos st + length w) t (caps st))
    | None => None
    end.
Proof.
  induction w as [|a w IH]; intros [i s cs] k.
  - simpl. now rewrite Nat.add_0_r.
  - cbn [LitI]. rewrite rmatch_seq, rmatch_chr. cbn [rest pos caps strip_i].
    destruct s as [|c t]; [reflexivity|].
    destruct (is_char_i a c); [|reflexivity].
    rewrite IH. cbn [rest pos caps length].
    now replace (S i + length w) with (i + S (length w)) by lia.
Qed.

Lemma is_char_i_eq a c : is_char_i a c = true <-> upper_char c = upper_char a.
Proof. unfold is_char_i. apply Ascii.eqb_eq. Qed.

Lemma strip_i_inv w : forall s t,
  strip_i w s = Some t ->
  exists u, s = u ++ t /\ toUpperCase u = toUpperCase w.
Proof.
  induction w as [|a w IH]; intros s t H; simpl in H.
  - injection H as <-. now exists [].
  - destruct s as [|c s']; [discriminate|].
    destruct (is_char_i a c) eqn:E; [|discriminate].
    apply IH in H as (u & -> & Hu). exists (c :: u). split; [reflexivity|].
    simpl. apply is_char_i_eq in E. now rewrite E, Hu.
Qed.

Lemma strip_i_complete w : forall u t,
  toUpperCase u = toUpperCase w -> strip_i w (u ++ t) = Some t.
Proof.
  induction w as [|a w IH]; intros [|c u] t H; simpl in *; try discriminate.
  - reflexivity.
  - injection H as Hc Hu.
    assert (E : is_char_i a c = true) by now apply is_char_i_eq.
    rewrite E. now apply IH.
Qed.

(** *** Alternations of literals *)

Lemma rmatch_alternatives ws : forall st k,
  rmatch (alternatives (map LitI ws)) st k = try_words ws st k.
Proof.
  induction ws as [|w ws IH]; intros st k.
  - simpl. now destruct (rest st).
  - destruct ws as [|w' ws'].
    + cbn [map alternatives try_words]. rewrite rmatch_LitI.
      now rewrite orelse_none_r.
    + change (alternatives (map LitI (w :: w' :: ws')))
        with (Alt (LitI w) (alternatives (map LitI (w' :: ws')))).
      rewrite rmatch_alt, IH, rmatch_LitI. reflexivity.
Qed.

Lemma try_words_inv ws st k r :
  try_words ws st k = Some r ->
  exists w t, In w ws /\ strip_i w (rest st) = Some t /\
              k (MState (pos st + length w) t (caps st)) = Some r.
Proof.
  induction ws as [|w ws IH]; simpl; [discriminate|].
  destruct (strip_i w (rest st)) as [t|] eqn:E.
  - destruct (k (MState (pos st + length w) t (caps st))) eqn:Ek; simpl.
    + intros [= <-]. exists w, t. auto.
    + intros H. apply IH in H as (w' & t' & ? & ? & ?). exists w', t'. auto.
  - simpl. intros H. apply IH in H as (w' & t' & ? & ? & ?).
    exists w', t'. auto.
Qed.

Lemma try_words_complete ws st k w t :
  In w ws -> strip_i w (rest st) = Some t ->
  k (MState (pos st + length w) t (caps st)) <> None ->
  try_words ws st k <> None.
Proof.
  induction ws as [|w0 ws IH]; simpl; [tauto|].
  intros [->|Hin] Hs Hk.
  - rewrite Hs.
    destruct (k (MState (pos st + length w) t (caps st))); [discriminate|].
    congruence.
  - destruct (match strip_i w0 (rest st) with
              | Some t0 => k (MState (pos st + length w0) t0 (caps st))
              | None => None
              end); [discriminate|].
    simpl. now apply IH.
Qed.

(** *** The leftmost match *)

Lemma exec_from_some r : forall s p i st,
  exec_from r p s = Some (i, st) ->
  exists pre suf, s = pre ++ suf /\ i = p + length pre /\
    match_here r i suf = Some st /\
    forall pre' suf', s = pre' ++ suf' -> length pre' < length pre ->
      match_here r (p + length pre') suf' = None.
Proof.
  induction s as [|c t IH]; intros p i st H; simpl in H.
  - destruct (match_here r p []) eqn:E; [|discriminate].
    injection H as <- <-. exists [], []. simpl.
    rewrite Nat.add_0_r. repeat split; auto. intros; lia.
  - destruct (match_here r p (c :: t)) eqn:E.
    + injection H as <- <-. exists [], (c :: t). simpl.
      rewrite Nat.add_0_r. repeat split; auto. intros; lia.
    + apply IH in H as (pre & suf & -> & -> & Hm & Hleft).
      exists (c :: pre), suf. simpl.
      replace (p + S (length pre)) with (S p + length pre) by lia.
      repeat split; auto.
      intros [|c' pre'] suf' Heq Hlen; simpl in *.
      * subst suf'. now rewrite Nat.add_0_r.
      * injection Heq as <- Heq.
        replace (p + S (length pre')) with (S p + length pre') by lia.
        apply Hleft; [assumption|lia].
Qed.

Lemma exec_from_none r : forall s p,
  exec_from r p s = None ->
  forall pre suf, s = pre ++ suf -> match_here r (p + length pre) suf = None.
Proof.
  induction s as [|c t IH]; intros p H pre suf Heq; simpl in H.
  - destruct (match_here r p []) eqn:E; [discriminate|].
    destruct pre; [|discriminate]. simpl in *. subst suf.
    now rewrite Nat.add_0_r.
  - destruct (match_here r p (c :: t)) eqn:E; [discriminate|].
    destruct pre as [|c' pre]; simpl in *.
    + subst suf. now rewrite Nat.add_0_r.
    + injection Heq as <- Heq.
      replace (p + S (length pre)) with (S p + length pre) by lia.
      now apply IH.
Qed.

(** A pattern that starts with [^] can only match at index 0. *)
Lemma match_here_anchored_later r p s : match_here (Seq Bol r) (S p) s = None.
Proof. reflexivity. Qed.

Lemma exec_anchored r s :
  exec (Seq Bol r) s
  = match match_here (Seq Bol r) 0 s with
    | Some st => Some (0, st)
    | None => None
    end.
Proof.
  assert (H : forall t p, exec_from (Seq Bol r) (S p) t = None).
  { induction t as [|c t IH]; intros p; cbn [exec_from];
      rewrite match_here_anchored_later; [reflexivity|apply IH]. }
  unfold exec. destruct s as [|c t]; cbn [exec_from];
    destruct (match_here (Seq Bol r) 0 _); auto.
Qed.

Lemma firstn_app_exact {A} (l r : list A) n :
  n = length l -> firstn n (l ++ r) = l.
Proof.
  intros ->. rewrite firstn_app, Nat.sub_diag, firstn_all. simpl.
  apply app_nil_r.
Qed.

(** *** Literals *)

Lemma rmatch_Lit w : forall st k,
  rmatch (Lit w) st k
  = match strip w (rest st) with
    | Some t => k (MState (pos st + length w) t (caps st))
    | None => None
    end.
Proof.
  induction w as [|a w IH]; intros [i s cs] k.
  - simpl. now rewrite Nat.add_0_r.
  - cbn [Lit]. rewrite rmatch_seq, rmatch_chr. cbn [rest pos caps strip].
    destruct s as [|c t]; [reflexivity|].
    destruct (is_char a c); [|reflexivity].
    rewrite IH. cbn [rest pos caps length].
    now replace (S i + length w) with (i + S (length w)) by lia.
Qed.

Lemma strip_spec w : forall s t, strip w s = Some t <-> s = w ++ t.
Proof.
  induction w as [|a w IH]; intros s t; simpl.
  - split; [now intros [= ->]|now intros ->].
  - destruct s as [|c s']; [split; discriminate|].
    unfold is_char. destruct (Ascii.eqb_spec c a) as [->|Hne].
    + rewrite IH. split; [now intros ->|now intros [= ->]].
    + split; [discriminate|]. intros [= -> _]. congruence.
Qed.

Lemma starts_with_strip w : forall s,
  starts_with w s = match strip w s with Some _ => true | None => false end.
Proof.
  induction w as [|a w IH]; intros s; simpl; [reflexivity|].
  destruct s as [|c s']; [reflexivity|]. unfold is_char.
  rewrite (Ascii.eqb_sym a c). destruct (Ascii.eqb c a); simpl; auto.
Qed.

Lemma starts_with_spec w s :
  starts_with w s = true <-> exists t, s = w ++ t.
Proof.
  rewrite starts_with_strip. split.
  - destruct (strip w s) as [t|] eqn:E; [|discriminate].
    intros _. exists t. now apply strip_spec.
  - intros (t & H). apply strip_spec in H. now rewrite H.
Qed.

Lemma includes_spec sub : forall s,
  includes s sub = true <-> exists pre post, s = pre ++ sub ++ post.
Proof.
  induction s as [|c t IH].
  - cbn [includes]. rewrite orb_false_r, starts_with_spec. split.
    + intros (post & H). now exists [], post.
    + intros (pre & post & H). destruct pre; [|discriminate]. now exists post.
  - cbn [includes]. rewrite orb_true_iff, starts_with_spec, IH. split.
    + intros [(post & H)|(pre & post & H)].
      * now exists [], post.
      * exists (c :: pre), post. now rewrite H.
    + intros (pre & post & H). destruct pre as [|c' pre].
      * left. now exists post.
      * right. injection H as _ H. now exists pre, post.
Qed.

(** *** Counting occurrences *)

Lemma count_sub_occurrence sub : forall pre suf,
  starts_with sub suf = true -> 1 <= count_sub sub (pre ++ suf).
Proof.
  induction pre as [|c pre IH]; intros suf H; simpl.
  - destruct suf; simpl in *; rewrite H; lia.
  - specialize (IH suf H). lia.
Qed.

(** With at most one occurrence, two occurrences start at the same index. *)
Lemma count_sub_unique sub : forall p1 s1 p2 s2,
  p1 ++ s1 = p2 ++ s2 ->
  starts_with sub s1 = true -> starts_with sub s2 = true ->
  count_sub sub (p1 ++ s1) <= 1 ->
  length p1 = length p2.
Proof.
  assert (Hlt : forall p1 s1 p2 s2,
    p1 ++ s1 = p2 ++ s2 -> length p1 < length p2 ->
    starts_with sub s1 = true -> starts_with sub s2 = true ->
    2 <= count_sub sub (p1 ++ s1)).
  { induction p1 as [|c p1 IH]; intros s1 p2 s2 E Hlen H1 H2.
    - destruct p2 as [|c2 p2]; [simpl in Hlen; lia|].
      simpl in E. subst s1. cbn [app count_sub]. rewrite H1.
      pose proof (count_sub_occurrence sub p2 s2 H2). lia.
    - destruct p2 as [|c2 p2]; [simpl in Hlen; lia|].
      injection E as _ E. simpl in Hlen.
      specialize (IH s1 p2 s2 E ltac:(lia) H1 H2).
      cbn [app count_sub]. lia. }
  intros p1 s1 p2 s2 E H1 H2 Hc.
  destruct (Nat.lt_trichotomy (length p1) (length p2)) as [H|[H|H]];
    [|assumption|].
  - pose proof (Hlt p1 s1 p2 s2 E H H1 H2). lia.
  - pose proof (Hlt p2 s2 p1 s1 (eq_sym E) H H2 H1). rewrite <- E in *. lia.
Qed.

Lemma app_same_length {A} (p1 s1 p2 s2 : list A) :
  p1 ++ s1 = p2 ++ s2 -> length p1 = length p2 -> p1 = p2 /\ s1 = s2.
Proof.
  revert p2. induction p1 as [|a p1 IH]; intros [|b p2] E H;
    simpl in *; try discriminate; [auto|].
  injection E as -> E. injection H as H.
  destruct (IH p2 E H) as [-> ->]. auto.
Qed.

End JSFacts.

(** ** workflows/linear.ts *)

Module LinearFacts.
Import JS JSFacts Linear.

(** *** [detectLinearIssue] *)

Lemma letter_not_dash c : is_letter c = true -> is_char "-" c = false.
Proof.
  intros H. unfold is_char. destruct (Ascii.eqb_spec c "-"); [|reflexivity].
  subst c. discriminate H.
Qed.

Lemma digit_not_dash c : is_digit c = true -> is_char "-" c = false.
Proof.
  intros H. unfold is_char. destruct (Ascii.eqb_spec c "-"); [|reflexivity].
  subst c. discriminate H.
Qed.

(** One attempt of the pattern captures exactly the identifier of
    [issue_here]. *)
Lemma match_here_linear p s :
  option_map (fun st => caps st 1) (match_here linear_pattern p s)
  = option_map Some (issue_here s).
Proof.
  unfold match_here, linear_pattern.
  destruct s as [|c t]; [reflexivity|].
  rewrite rmatch_seq, rmatch_chr. cbn [rest pos caps issue_here].
  unfold is_char at 1.
  destruct (Ascii.eqb c "/"); [|reflexivity].
  rewrite rmatch_seq, rmatch_grp, rmatch_seq, rmatch_plus_class.
  cbn [rest pos caps].
  rewrite try_runs_maximal.
  2:{ intros i a u cs Ha. rewrite rmatch_seq, rmatch_chr. cbn [rest].
      now rewrite (letter_not_dash _ Ha). }
  pose proof (take_drop_while is_letter t) as Ht.
  destruct (take_while is_letter t) as [|l0 l] eqn:El; [reflexivity|].
  destruct (drop_while is_letter t) as [|c1 t1] eqn:Dl;
    [rewrite rmatch_seq, rmatch_chr; reflexivity|].
  rewrite rmatch_seq, rmatch_chr. cbn [rest pos caps]. unfold is_char at 1.
  destruct (Ascii.eqb c1 "-") eqn:E1; [|reflexivity].
  rewrite rmatch_plus_class. cbn [rest pos caps].
  rewrite try_runs_maximal.
  2:{ intros i a u cs Ha. rewrite rmatch_chr. cbn [rest set_cap].
      now rewrite (digit_not_dash _ Ha). }
  pose proof (take_drop_while is_digit t1) as Ht1.
  destruct (take_while is_digit t1) as [|d0 d] eqn:Ed; [reflexivity|].
  destruct (drop_while is_digit t1) as [|c2 t2] eqn:Dd;
    [rewrite rmatch_chr; reflexivity|].
  rewrite rmatch_chr. cbn [rest pos caps set_cap]. unfold is_char.
  destruct (Ascii.eqb c2 "-") eqn:E2; [|reflexivity].
  cbn [option_map caps Nat.eqb].
  apply (f_equal (fun x => Some (Some x))).
  apply Ascii.eqb_eq in E1. subst c1. rewrite <- Ht, <- Ht1.
  change (str "-" ++ d0 :: d) with ("-"%char :: d0 :: d).
  replace ((l0 :: l) ++ "-"%char :: (d0 :: d) ++ c2 :: t2)
    with (((l0 :: l) ++ "-"%char :: d0 :: d) ++ c2 :: t2)
    by (rewrite <- app_assoc; reflexivity).
  apply firstn_app_exact. rewrite length_app. cbn [length]. lia.
Qed.

Lemma issue_here_occurrence s id :
  issue_here s = Some id <->
  exists l d post, issue_occurrence s [] l d post /\ id = l ++ str "-" ++ d.
Proof.
  unfold issue_occurrence. split.
  - destruct s as [|c t]; simpl; [discriminate|].
    destruct (Ascii.eqb_spec c "/"); [subst c|discriminate].
    pose proof (take_drop_while is_letter t) as Ht.
    pose proof (take_while_all is_letter t) as Hl.
    destruct (take_while is_letter t) as [|l0 l]; [discriminate|].
    destruct (drop_while is_letter t) as [|c1 t1]; [discriminate|].
    destruct (Ascii.eqb_spec c1 "-"); [subst c1|discriminate].
    pose proof (take_drop_while is_digit t1) as Ht1.
    pose proof (take_while_all is_digit t1) as Hd.
    destruct (take_while is_digit t1) as [|d0 d]; [discriminate|].
    destruct (drop_while is_digit t1) as [|c2 t2]; [discriminate|].
    destruct (Ascii.eqb_spec c2 "-"); [subst c2|discriminate].
    intros [= <-]. exists (l0 :: l), (d0 :: d), t2.
    repeat split; try assumption; try discriminate.
    rewrite <- Ht, <- Ht1. reflexivity.
  - intros (l & d & post & (Hs & Hl0 & Hl & Hd0 & Hd) & ->).
    simpl in Hs. subst s. cbn [issue_here]. rewrite Ascii.eqb_refl.
    destruct (take_while_app is_letter l ("-"%char :: d ++ "-"%char :: post) Hl)
      as [E1 E2]; [reflexivity|].
    change (l ++ str "-" ++ d ++ str "-" ++ post)
      with (l ++ "-"%char :: d ++ "-"%char :: post).
    rewrite E1, E2.
    destruct l as [|l0 l]; [congruence|].
    rewrite Ascii.eqb_refl.
    destruct (take_while_app is_digit d ("-"%char :: post) Hd)
      as [E3 E4]; [reflexivity|].
    rewrite E3, E4.
    destruct d as [|d0 d]; [congruence|].
    now rewrite Ascii.eqb_refl.
Qed.

(** An occurrence anywhere is an occurrence at the head of a suffix. *)
Lemma issue_occurrence_suffix pre suf l d post :
  issue_occurrence (pre ++ suf) pre l d post <-> issue_occurrence suf [] l d post.
Proof.
  unfold issue_occurrence. simpl. split.
  - intros (H & ?). apply app_inv_head in H. auto.
  - intros (-> & ?). auto.
Qed.

Lemma issue_occurrence_split branch pre l d post :
  issue_occurrence branch pre l d post ->
  exists suf, branch = pre ++ suf /\ issue_here suf = Some (l ++ str "-" ++ d).
Proof.
  intros H. pose proof H as (Hb & _).
  exists (str "/" ++ l ++ str "-" ++ d ++ str "-" ++ post). split; [exact Hb|].
  apply issue_here_occurrence. exists l, d, post. split; [|reflexivity].
  rewrite Hb in H. now apply issue_occurrence_suffix in H.
Qed.

Lemma detect_exec branch :
  detectLinearIssue branch
  = match exec linear_pattern branch with
    | Some (_, st) => option_map toUpperCase (caps st 1)
    | None => None
    end.
Proof.
  unfold detectLinearIssue, jmatch.
  destruct (exec linear_pattern branch) as [[i st]|]; [|reflexivity].
  now destruct (caps st 1).
Qed.

Lemma match_here_linear_some p s id :
  issue_here s = Some id ->
  exists st, match_here linear_pattern p s = Some st /\ caps st 1 = Some id.
Proof.
  intros H. pose proof (match_here_linear p s) as E. rewrite H in E.
  destruct (match_here linear_pattern p s) as [st|]; [|discriminate].
  injection E as E. eauto.
Qed.

Lemma match_here_linear_inv p s st :
  match_here linear_pattern p s = Some st ->
  exists id, issue_here s = Some id /\ caps st 1 = Some id.
Proof.
  intros H. pose proof (match_here_linear p s) as E. rewrite H in E.
  destruct (issue_here s) as [id|]; [|discriminate].
  injection E as E. eauto.
Qed.

(** C6.  A branch name that contains a slash, letters, a dash, digits and a
    dash yields the identifier of the first such place, in upper case; a
    branch name that contains no such place yields null. *)
Theorem detectLinearIssue_spec (branch : jstring) :
  ((exists pre l d post, issue_occurrence branch pre l d post) ->
   exists pre l d post,
     issue_occurrence branch pre l d post /\
     (forall pre' l' d' post',
        issue_occurrence branch pre' l' d' post' -> length pre <= length pre') /\
     detectLinearIssue branch = Some (toUpperCase (l ++ str "-" ++ d)))
  /\
  ((forall pre l d post, ~ issue_occurrence branch pre l d post) ->
   detectLinearIssue branch = None).
Proof.
  rewrite detect_exec. unfold exec.
  destruct (exec_from linear_pattern 0 branch) as [[i st]|] eqn:E.
  - apply exec_from_some in E as (pre & suf & Hb & Hi & Hm & Hleft).
    apply match_here_linear_inv in Hm as (id & Hid & Hcap).
    apply issue_here_occurrence in Hid as (l & d & post & Hocc & ->).
    assert (Hocc' : issue_occurrence branch pre l d post)
      by (rewrite Hb; now apply issue_occurrence_suffix).
    split.
    + intros _. exists pre, l, d, post. repeat split; try apply Hocc'.
      * intros pre' l' d' post' H'.
        destruct (Nat.le_gt_cases (length pre) (length pre')) as [|Hlt];
          [assumption|exfalso].
        apply issue_occurrence_split in H' as (suf' & Hb' & Hh).
        destruct (match_here_linear_some (0 + length pre') _ _ Hh) as (st' & Hst & _).
        rewrite (Hleft pre' suf' Hb' Hlt) in Hst. discriminate.
      * now rewrite Hcap.
    + intros Hno. exfalso. exact (Hno _ _ _ _ Hocc').
  - split; [|reflexivity].
    intros (pre & l & d & post & Hocc). exfalso.
    apply issue_occurrence_split in Hocc as (suf & Hb & Hh).
    destruct (match_here_linear_some (0 + length pre) _ _ Hh) as (st' & Hst & _).
    rewrite (exec_from_none _ _ _ E pre suf Hb) in Hst. discriminate.
Qed.

Lemma detectLinearIssue_spec_witness :
  (exists pre l d post,
     issue_occurrence (str "aaron/dev-123-feature") pre l d post) /\
  exists pre l d post,
    issue_occurrence (str "aaron/dev-123-feature") pre l d post /\
    (forall pre' l' d' post',
       issue_occurrence (str "aaron/dev-123-feature") pre' l' d' post' ->
       length pre <= length pre') /\
    detectLinearIssue (str "aaron/dev-123-feature")
    = Some (toUpperCase (l ++ str "-" ++ d)).
Proof.
  assert (H : exists pre l d post,
            issue_occurrence (str "aaron/dev-123-feature") pre l d post).
  { exists (str "aaron"), (str "dev"), (str "123"), (str "feature").
    unfold issue_occurrence. repeat split; try reflexivity; discriminate. }
  split; [exact H|].
  exact (proj1 (detectLinearIssue_spec (str "aaron/dev-123-feature")) H).
Defined.

(** The scenarios of the specification and of the unit tests. *)
Example detectLinearIssue_scenarios :
  detectLinearIssue (str "aaron/dev-123-feature") = Some (str "DEV-123") /\
  detectLinearIssue (str "user/EV-456-description") = Some (str "EV-456") /\
  detectLinearIssue (str "a/bug-999-fix") = Some (str "BUG-999") /\
  detectLinearIssue (str "feature/test") = None /\
  detectLinearIssue (str "hotfix/fix") = None /\
  detectLinearIssue (str "main") = None.
Proof. repeat split; reflexivity. Qed.

(** *** [cleanTitleForLinear] *)

(** The [i] flag changes nothing for the punctuation of the pattern. *)
Lemma is_char_i_lparen c : is_char_i "(" c = is_char "(" c.
Proof. destruct c as [[] [] [] [] [] [] [] []]; reflexivity. Qed.

Lemma is_char_i_rparen c : is_char_i ")" c = is_char ")" c.
Proof. destruct c as [[] [] [] [] [] [] [] []]; reflexivity. Qed.

Lemma is_char_i_colon c : is_char_i ":" c = is_char ":" c.
Proof. destruct c as [[] [] [] [] [] [] [] []]; reflexivity. Qed.

Lemma is_char_i_space c : is_char_i " " c = is_char " " c.
Proof. destruct c as [[] [] [] [] [] [] [] []]; reflexivity. Qed.

Lemma strip_colon_space s t :
  strip_i (str ": ") s = Some t <-> s = str ": " ++ t.
Proof.
  cbn [str list_ascii_of_string strip_i app].
  destruct s as [|c1 [|c2 u]].
  - split; discriminate.
  - rewrite is_char_i_colon. unfold is_char.
    destruct (Ascii.eqb c1 ":"); split; discriminate.
  - rewrite is_char_i_colon, is_char_i_space. unfold is_char.
    destruct (Ascii.eqb_spec c1 ":"), (Ascii.eqb_spec c2 " ");
      split; intros H; try discriminate; try congruence.
Qed.

Lemma scope_group_maximal i a u cs k :
  not_char ")" a = true ->
  rmatch (Chr (is_char_i ")")) (MState i (a :: u) cs) k = None.
Proof.
  intros Ha. rewrite rmatch_chr. cbn [rest]. rewrite is_char_i_rparen.
  unfold not_char, is_char in *. now destruct (Ascii.eqb a ")").
Qed.

Lemma scope_and_colon_inv st r :
  rmatch scope_and_colon st Some = Some r ->
  exists scope, rest st = scope ++ str ": " ++ rest r /\ valid_scope scope.
Proof.
  unfold scope_and_colon. rewrite rmatch_seq, rmatch_opt.
  destruct st as [i s cs].
  destruct (rmatch (Grp 2 _) _ _) as [r'|] eqn:E; cbn [orelse].
  - intros [= <-]. revert E.
    rewrite rmatch_grp, rmatch_seq, rmatch_chr. cbn [rest pos caps].
    destruct s as [|c t]; [discriminate|].
    rewrite is_char_i_lparen. unfold is_char at 1.
    destruct (Ascii.eqb_spec c "("); [subst c|discriminate].
    rewrite rmatch_seq, rmatch_plus_class. cbn [rest pos caps].
    rewrite try_runs_maximal by (intros; now apply scope_group_maximal).
    pose proof (take_drop_while (not_char ")") t) as Ht.
    pose proof (take_while_all (not_char ")") t) as Hx.
    destruct (take_while (not_char ")") t) as [|x0 x]; [discriminate|].
    rewrite rmatch_chr. cbn [rest pos caps].
    destruct (drop_while (not_char ")") t) as [|c2 t2]; [discriminate|].
    rewrite is_char_i_rparen. unfold is_char at 1.
    destruct (Ascii.eqb_spec c2 ")"); [subst c2|discriminate].
    rewrite rmatch_LitI. cbn [rest pos caps set_cap].
    destruct (strip_i (str ": ") t2) as [t3|] eqn:E3; [|discriminate].
    intros [= <-]. cbn [rest]. apply strip_colon_space in E3. subst t2.
    exists (str "(" ++ (x0 :: x) ++ str ")"). split.
    + rewrite <- Ht. cbn [str list_ascii_of_string app].
      rewrite <- app_assoc. reflexivity.
    + right. exists (x0 :: x). repeat split; [discriminate|assumption].
  - rewrite rmatch_LitI. cbn [rest pos caps].
    destruct (strip_i (str ": ") s) as [t|] eqn:E3; [|discriminate].
    intros [= <-]. cbn [rest]. apply strip_colon_space in E3.
    exists []. split; [assumption|now left].
Qed.

Lemma scope_and_colon_complete i cs scope tl :
  valid_scope scope ->
  rmatch scope_and_colon (MState i (scope ++ str ": " ++ tl) cs) Some <> None.
Proof.
  unfold scope_and_colon. rewrite rmatch_seq, rmatch_opt.
  intros [->|(x & -> & Hx0 & Hx)].
  - destruct (rmatch (Grp 2 _) _ _); [discriminate|]. cbn [orelse app].
    rewrite rmatch_LitI. cbn [rest].
    rewrite (proj2 (strip_colon_space _ tl) eq_refl). discriminate.
  - assert (E : rmatch
        (Grp 2 (Seq (Chr (is_char_i "("))
                  (Seq (Plus (Chr (not_char ")"))) (Chr (is_char_i ")")))))
        (MState i ((str "(" ++ x ++ str ")") ++ str ": " ++ tl) cs)
        (fun st' => rmatch (LitI (str ": ")) st' Some) <> None).
    { rewrite rmatch_grp, rmatch_seq, rmatch_chr. cbn [rest pos caps].
      change ((str "(" ++ x ++ str ")") ++ str ": " ++ tl)
        with ("("%char :: (x ++ str ")") ++ str ": " ++ tl).
      rewrite <- app_assoc.
      change (str ")" ++ str ": " ++ tl) with (")"%char :: str ": " ++ tl).
      rewrite is_char_i_lparen. unfold is_char at 1. rewrite Ascii.eqb_refl.
      rewrite rmatch_seq, rmatch_plus_class. cbn [rest pos caps].
      rewrite try_runs_maximal by (intros; now apply scope_group_maximal).
      destruct (take_while_app (not_char ")") x (")"%char :: str ": " ++ tl) Hx)
        as [E1 E2]; [reflexivity|].
      rewrite E1, E2. destruct x as [|x0 x]; [congruence|].
      rewrite rmatch_chr. cbn [rest pos caps].
      rewrite is_char_i_rparen. unfold is_char at 1. rewrite Ascii.eqb_refl.
      rewrite rmatch_LitI. cbn [rest pos caps set_cap].
      rewrite (proj2 (strip_colon_space _ tl) eq_refl). discriminate. }
    destruct (rmatch (Grp 2 _) _ _); [discriminate|congruence].
Qed.

Lemma match_here_conventional_inv s r :
  match_here conventional_pattern 0 s = Some r ->
  exists pfx, conventional_prefix pfx /\ s = pfx ++ rest r.
Proof.
  unfold match_here, conventional_pattern.
  rewrite rmatch_seq, rmatch_bol. cbn [pos Nat.eqb].
  rewrite rmatch_seq, rmatch_grp, rmatch_alternatives.
  intros H. apply try_words_inv in H as (w & t & Hw & Hs & Hk).
  cbn [rest pos caps] in *.
  apply scope_and_colon_inv in Hk as (scope & Ht & Hscope).
  cbn [rest set_cap] in Ht.
  apply strip_i_inv in Hs as (u & -> & Hu).
  exists (u ++ scope ++ str ": "). split.
  - exists u, scope, w. auto.
  - rewrite Ht, <- !app_assoc. reflexivity.
Qed.

Lemma match_here_conventional_complete pfx tl :
  conventional_prefix pfx ->
  match_here conventional_pattern 0 (pfx ++ tl) <> None.
Proof.
  intros (ty & scope & w & -> & Hw & Hty & Hscope).
  unfold match_here, conventional_pattern.
  rewrite rmatch_seq, rmatch_bol. cbn [pos Nat.eqb].
  rewrite rmatch_seq, rmatch_grp, rmatch_alternatives.
  apply try_words_complete with (w := w) (t := scope ++ str ": " ++ tl).
  - assumption.
  - cbn [rest]. rewrite <- !app_assoc. now apply strip_i_complete.
  - cbn [rest pos caps].
    apply (scope_and_colon_complete _ _ scope tl Hscope).
Qed.

Lemma exec_conventional s :
  exec conventional_pattern s
  = match match_here conventional_pattern 0 s with
    | Some st => Some (0, st)
    | None => None
    end.
Proof. apply exec_anchored. Qed.

Lemma cleanTitleForLinear_eq s :
  cleanTitleForLinear s
  = match match_here conventional_pattern 0 s with
    | Some st => rest st
    | None => s
    end.
Proof.
  unfold cleanTitleForLinear, replace_first. rewrite exec_conventional.
  now destruct (match_here conventional_pattern 0 s).
Qed.

Lemma conventional_prefix_nonempty pfx : conventional_prefix pfx -> pfx <> [].
Proof.
  intros (ty & scope & w & -> & _) H.
  apply app_eq_nil in H as [_ H]. apply app_eq_nil in H as [_ H].
  discriminate.
Qed.

(** A title without a prefix is left alone. *)
Lemma cleanTitleForLinear_no_prefix s :
  ~ has_conventional_prefix s -> cleanTitleForLinear s = s.
Proof.
  intros Hno. rewrite cleanTitleForLinear_eq.
  destruct (match_here conventional_pattern 0 s) as [r|] eqn:E; [|reflexivity].
  exfalso. apply Hno. apply match_here_conventional_inv in E as (pfx & Hp & Hs).
  now exists pfx, (rest r).
Qed.

(** A title with a prefix loses one prefix. *)
Lemma cleanTitleForLinear_strips s :
  has_conventional_prefix s ->
  exists pfx, conventional_prefix pfx /\ s = pfx ++ cleanTitleForLinear s.
Proof.
  intros (pfx & tl & -> & Hp). rewrite cleanTitleForLinear_eq.
  pose proof (match_here_conventional_complete pfx tl Hp) as Hm.
  destruct (match_here conventional_pattern 0 (pfx ++ tl)) as [r|] eqn:E;
    [|congruence].
  now apply match_here_conventional_inv in E.
Qed.

(** C4, as the code has it.  One call removes one leading prefix, so a
    second call changes nothing exactly when the title cleaned once does not
    start with a conventional-commit prefix any more. *)
Theorem cleanTitleForLinear_idempotent_iff (s : jstring) :
  cleanTitleForLinear (cleanTitleForLinear s) = cleanTitleForLinear s
  <-> ~ has_conventional_prefix (cleanTitleForLinear s).
Proof.
  split.
  - intros Heq Hpre. apply cleanTitleForLinear_strips in Hpre as (pfx & Hp & Hs).
    rewrite Heq in Hs. apply conventional_prefix_nonempty in Hp.
    apply (f_equal (@length ascii)) in Hs. rewrite length_app in Hs.
    destruct pfx; [congruence|simpl in Hs; lia].
  - apply cleanTitleForLinear_no_prefix.
Qed.

Lemma cleanTitleForLinear_idempotent_iff_witness :
  cleanTitleForLinear (str "Add login") = str "Add login" /\
  ~ has_conventional_prefix (cleanTitleForLinear (str "feat(auth): Add login")).
Proof.
  assert (E : cleanTitleForLinear (str "feat(auth): Add login") = str "Add login")
    by reflexivity.
  split; [reflexivity|].
  apply (proj1 (cleanTitleForLinear_idempotent_iff (str "feat(auth): Add login"))).
  rewrite E. reflexivity.
Defined.

(** C4, as stated, fails: a title with two stacked prefixes loses one per
    call. *)
Lemma cleanTitleForLinear_not_idempotent :
  cleanTitleForLinear (str "feat: fix: bug") = str "fix: bug" /\
  cleanTitleForLinear (cleanTitleForLinear (str "feat: fix: bug")) = str "bug" /\
  cleanTitleForLinear (cleanTitleForLinear (str "feat: fix: bug"))
  <> cleanTitleForLinear (str "feat: fix: bug").
Proof. repeat split; try reflexivity. discriminate. Qed.

Example cleanTitleForLinear_scenarios :
  cleanTitleForLinear (str "feat(auth): Add login") = str "Add login" /\
  cleanTitleForLinear (str "Plain title") = str "Plain title" /\
  cleanTitleForLinear (str "FEAT: Uppercase") = str "Uppercase" /\
  cleanTitleForLinear (str "chore(ui): Update dependencies")
  = str "Update dependencies".
Proof. repeat split; reflexivity. Qed.

(** *** [generateLinearBranchName]: the author segment *)

Lemma has_slash_drop_while b :
  has_slash b = match drop_while (not_char "/") b with
                | [] => false
                | _ :: _ => true
                end.
Proof.
  unfold has_slash. induction b as [|c t IH]; [reflexivity|].
  cbn [existsb drop_while]. unfold not_char, is_char in *.
  destruct (Ascii.eqb c "/"); simpl; [reflexivity|exact IH].
Qed.

Lemma drop_while_not_slash_head b c t :
  drop_while (not_char "/") b = c :: t -> c = "/"%char.
Proof.
  intros H. apply drop_while_head in H. unfold not_char in H.
  apply negb_false_iff in H. now apply Ascii.eqb_eq.
Qed.

Lemma username_match b :
  jmatch b username_pattern
  = match take_while (not_char "/") b, drop_while (not_char "/") b with
    | (_ :: _) as u, _ :: _ =>
        Some (fun j => if Nat.eqb j 1 then Some u else None)
    | _, _ => None
    end.
Proof.
  unfold jmatch, username_pattern. rewrite exec_anchored.
  unfold match_here. rewrite rmatch_seq, rmatch_bol. cbn [pos Nat.eqb].
  rewrite rmatch_seq, rmatch_grp, rmatch_plus_class. cbn [rest pos caps].
  rewrite try_runs_maximal.
  2:{ intros i a u cs Ha. rewrite rmatch_chr. cbn [rest set_cap].
      unfold not_char, is_char in *. now destruct (Ascii.eqb a "/"). }
  pose proof (take_drop_while (not_char "/") b) as Hb.
  destruct (take_while (not_char "/") b) as [|u0 u] eqn:Eu; [reflexivity|].
  rewrite rmatch_chr. cbn [rest pos caps set_cap].
  destruct (drop_while (not_char "/") b) as [|c t] eqn:Ed; [reflexivity|].
  rewrite (drop_while_not_slash_head _ _ _ Ed).
  change (is_char "/" "/") with true. cbn iota beta. cbn [caps].
  replace (firstn (0 + length (u0 :: u) - 0) b) with (u0 :: u); [reflexivity|].
  rewrite <- Hb, Nat.sub_0_r, Nat.add_0_l.
  now rewrite firstn_app_exact.
Qed.

Lemma username_eq b :
  match jmatch b username_pattern with
  | Some m => match m 1 with Some u => u | None => str "feature" end
  | None => str "feature"
  end
  = if has_slash b
    then match before_first_slash b with
         | [] => str "feature"
         | author => author
         end
    else str "feature".
Proof.
  rewrite username_match, has_slash_drop_while. unfold before_first_slash.
  destruct (take_while (not_char "/") b) as [|u0 u];
    destruct (drop_while (not_char "/") b); reflexivity.
Qed.

(** *** [generateLinearBranchName]: the text after the last slash *)

Lemma split_on_no_sep t :
  forallb (not_char "/") t = true -> split_on "/" t = [t].
Proof.
  induction t as [|c t IH]; [reflexivity|].
  cbn [forallb split_on]. intros H. apply andb_prop in H as [Hc Ht].
  unfold not_char in Hc. apply negb_true_iff in Hc. rewrite Hc.
  now rewrite (IH Ht).
Qed.

Lemma split_on_sep t :
  forallb (not_char "/") t = false ->
  exists w w' ws, split_on "/" t = w :: w' :: ws.
Proof.
  induction t as [|c t IH]; [discriminate|].
  cbn [forallb split_on]. unfold not_char at 1.
  destruct (Ascii.eqb c "/") eqn:Ec; simpl.
  - intros _. destruct (split_on "/" t) as [|w ws] eqn:E.
    + destruct t; simpl in E; [discriminate|].
      destruct (Ascii.eqb a "/"); [discriminate|].
      destruct (split_on "/" t); discriminate.
    + eauto.
  - intros H. destruct (IH H) as (w & w' & ws & ->). eauto.
Qed.

Lemma take_while_snoc p l c :
  take_while p (l ++ [c])
  = if forallb p l then (if p c then l ++ [c] else l) else take_while p l.
Proof.
  induction l as [|a l IH]; simpl.
  - now destruct (p c).
  - destruct (p a); simpl; [|reflexivity]. rewrite IH.
    now destruct (forallb p l), (p c).
Qed.

Lemma forallb_rev {A} (p : A -> bool) l : forallb p (rev l) = forallb p l.
Proof.
  induction l as [|a l IH]; [reflexivity|]. simpl.
  rewrite forallb_app, IH. simpl. rewrite andb_true_r. apply andb_comm.
Qed.

Lemma after_last_slash_cons c t :
  after_last_slash (c :: t)
  = if forallb (not_char "/") t
    then (if not_char "/" c then c :: t else t)
    else after_last_slash t.
Proof.
  unfold after_last_slash. cbn [rev]. rewrite take_while_snoc, forallb_rev.
  destruct (forallb (not_char "/") t); [|reflexivity].
  destruct (not_char "/" c).
  - now rewrite rev_app_distr, rev_involutive.
  - apply rev_involutive.
Qed.

Lemma last_split_on b : last (split_on "/" b) [] = after_last_slash b.
Proof.
  induction b as [|c t IH]; [reflexivity|].
  rewrite after_last_slash_cons. cbn [split_on].
  destruct (forallb (not_char "/") t) eqn:Ht.
  - rewrite (split_on_no_sep _ Ht). unfold not_char.
    now destruct (Ascii.eqb c "/").
  - destruct (split_on_sep _ Ht) as (w & w' & ws & E).
    rewrite E in *. rewrite <- IH.
    now destruct (Ascii.eqb c "/").
Qed.

Lemma description_part_eq b :
  description_part b
  = match after_last_slash b with [] => str "work" | d => d end.
Proof. unfold description_part. now rewrite last_split_on. Qed.

(** *** [generateLinearBranchName]: the three [replace] calls *)

Lemma succ_sub_self p : S p - p = 1.
Proof. lia. Qed.

Lemma replace_special_from : forall s p,
  replace_all_from special_pattern (str "-") p 0 s = map dash_special s.
Proof.
  induction s as [|c t IH]; intros p; [reflexivity|].
  cbn [replace_all_from map]. unfold match_here, special_pattern at 1.
  rewrite rmatch_chr. cbn [rest pos caps]. unfold dash_special at 1.
  destruct (special_char c).
  - cbn [pos]. rewrite succ_sub_self. cbn [str list_ascii_of_string app].
    now rewrite IH.
  - now rewrite IH.
Qed.

Lemma replace_special s :
  replace_all s special_pattern (str "-") = map dash_special s.
Proof. apply replace_special_from. Qed.

Lemma match_here_dashes p s :
  match_here dashes_pattern p s
  = match take_while is_dash s with
    | [] => None
    | run => Some (MState (p + length run) (drop_while is_dash s) no_caps)
    end.
Proof.
  unfold match_here, dashes_pattern. rewrite rmatch_plus_class.
  cbn [rest pos caps]. now rewrite try_runs_greedy by discriminate.
Qed.

Lemma replace_dashes_from : forall s,
  (forall p, replace_all_from dashes_pattern (str "-") p 0 s
             = squeeze_dashes false s) /\
  (forall p, replace_all_from dashes_pattern (str "-") p
               (length (take_while is_dash s)) s
             = squeeze_dashes true s).
Proof.
  induction s as [|c t [IH0 IH1]]; [split; reflexivity|].
  assert (H0 : forall p, replace_all_from dashes_pattern (str "-") p 0 (c :: t)
                         = squeeze_dashes false (c :: t)).
  { intros p. cbn [replace_all_from squeeze_dashes]. rewrite match_here_dashes.
    cbn [take_while]. destruct (is_dash c).
    - cbn [pos length].
      replace (p + S (length (take_while is_dash t)) - p)
        with (S (length (take_while is_dash t))) by lia.
      cbn [str list_ascii_of_string app]. now rewrite IH1.
    - now rewrite IH0. }
  split; [exact H0|].
  intros p. cbn [take_while squeeze_dashes]. destruct (is_dash c) eqn:Ec.
  - cbn [length replace_all_from]. apply IH1.
  - cbn [length]. rewrite H0. cbn [squeeze_dashes]. now rewrite Ec.
Qed.

Lemma replace_dashes s :
  replace_all s dashes_pattern (str "-") = squeeze_dashes false s.
Proof. apply replace_dashes_from. Qed.

Lemma match_here_edge_later p s :
  match_here edge_dash_pattern (S p) s
  = match s with
    | [c] => if is_dash c then Some (MState (S (S p)) [] no_caps) else None
    | _ => None
    end.
Proof.
  unfold match_here, edge_dash_pattern, is_dash.
  destruct s as [|c [|c' t]]; cbn [rmatch pos rest caps Nat.eqb orelse];
    try reflexivity; destruct (is_char "-" c); reflexivity.
Qed.

Lemma replace_edges_later : forall s p,
  replace_all_from edge_dash_pattern [] (S p) 0 s = drop_last_dash s.
Proof.
  induction s as [|c t IH]; intros p; [reflexivity|].
  cbn [replace_all_from drop_last_dash]. rewrite match_here_edge_later.
  destruct t as [|c' t'].
  - destruct (is_dash c); [|reflexivity].
    cbn [pos]. now rewrite succ_sub_self.
  - now rewrite IH.
Qed.

Lemma replace_edges s :
  replace_all s edge_dash_pattern [] = drop_edge_dashes s.
Proof.
  unfold replace_all. destruct s as [|c t]; [reflexivity|].
  cbn [replace_all_from drop_edge_dashes].
  unfold match_here, edge_dash_pattern.
  cbn [rmatch pos rest caps Nat.eqb]. fold is_dash.
  destruct (is_dash c) eqn:Ec; cbn [orelse pos Nat.sub app].
  - apply replace_edges_later.
  - rewrite replace_edges_later. cbn [drop_last_dash]. rewrite Ec.
    now destruct t.
Qed.

(** *** [generateLinearBranchName]: the cleaned description *)

Lemma alnum_not_special c :
  is_alnum c = true -> dash_special c = c /\ is_dash c = false.
Proof.
  unfold is_alnum, is_letter, dash_special, special_char, is_dash, is_char.
  intros H. destruct (Ascii.eqb_spec c "-") as [->|_]; [discriminate H|].
  rewrite H. simpl. auto.
Qed.

Lemma not_alnum_dash c :
  is_alnum c = false -> is_dash (dash_special c) = true.
Proof.
  unfold is_alnum, is_letter, dash_special, special_char, is_dash, is_char.
  intros H. rewrite H. simpl.
  destruct (Ascii.eqb_spec c "-") as [->|_]; reflexivity.
Qed.

Lemma is_dash_eq c : is_dash c = true -> c = "-"%char.
Proof. unfold is_dash, is_char. apply Ascii.eqb_eq. Qed.

Lemma squeeze_collapse : forall d r,
  squeeze_dashes r (map dash_special d) = collapse_runs r d.
Proof.
  induction d as [|c t IH]; intros r; [reflexivity|].
  cbn [map squeeze_dashes collapse_runs].
  destruct (is_alnum c) eqn:E.
  - destruct (alnum_not_special _ E) as [-> ->]. now rewrite IH.
  - rewrite (not_alnum_dash _ E). now rewrite IH.
Qed.

Lemma collapse_sparse : forall d,
  sparse (collapse_runs false d) = true /\
  sparse (collapse_runs true d) = true /\
  starts_with_dash (collapse_runs true d) = false.
Proof.
  induction d as [|c t (IH0 & IH1 & IH2)]; [repeat split|].
  cbn [collapse_runs]. destruct (is_alnum c) eqn:E.
  - destruct (alnum_not_special _ E) as [_ Hd].
    assert (H : sparse (c :: collapse_runs false t) = true).
    { cbn [sparse]. destruct (collapse_runs false t); [reflexivity|].
      now rewrite Hd, IH0. }
    repeat split; try exact H. exact Hd.
  - repeat split; try assumption.
    cbn [sparse]. destruct (collapse_runs true t) as [|c' u]; [reflexivity|].
    cbn [starts_with_dash] in IH2. rewrite IH2, IH1.
    now rewrite andb_false_r.
Qed.

Lemma sparse_tail c t : sparse (c :: t) = true -> sparse t = true.
Proof.
  cbn [sparse]. destruct t; [reflexivity|].
  intros H. now apply andb_prop in H.
Qed.

Lemma sparse_drop_while s :
  sparse s = true ->
  drop_while is_dash s
  = match s with
    | c :: t => if is_dash c then t else s
    | [] => []
    end.
Proof.
  destruct s as [|c t]; [reflexivity|]. cbn [drop_while sparse].
  destruct (is_dash c); [|reflexivity].
  destruct t as [|c' u]; [reflexivity|]. cbn [drop_while].
  simpl. destruct (is_dash c'); [discriminate|reflexivity].
Qed.

Lemma drop_last_dash_snoc : forall u c,
  drop_last_dash (u ++ [c]) = if is_dash c then u else u ++ [c].
Proof.
  induction u as [|a u IH]; intros c; [reflexivity|].
  cbn [app drop_last_dash]. rewrite IH.
  destruct (u ++ [c]) eqn:E; [now destruct u|].
  now destruct (is_dash c).
Qed.

Lemma sparse_end : forall w a b,
  sparse (w ++ [a; b]) = true -> is_dash a && is_dash b = false.
Proof.
  induction w as [|c w IH]; intros a b H.
  - simpl in H. rewrite andb_true_r in H. now apply negb_true_iff.
  - apply IH. exact (sparse_tail _ _ H).
Qed.

Lemma sparse_trim_right u :
  sparse u = true -> rev (drop_while is_dash (rev u)) = drop_last_dash u.
Proof.
  destruct u as [|x u'] using rev_ind; [reflexivity|].
  intros H. rewrite drop_last_dash_snoc, rev_app_distr. cbn [rev app drop_while].
  destruct (is_dash x) eqn:Ex.
  - destruct u' as [|y u''] using rev_ind; [reflexivity|].
    rewrite <- app_assoc in H. apply sparse_end in H. rewrite Ex in H.
    rewrite andb_true_r in H. rewrite rev_app_distr. cbn [rev app drop_while].
    rewrite H. cbn [rev]. now rewrite rev_involutive.
  - cbn [rev]. now rewrite rev_involutive.
Qed.

Lemma sparse_trim s :
  sparse s = true -> drop_edge_dashes s = trim_hyphens s.
Proof.
  intros H. unfold trim_hyphens. rewrite (sparse_drop_while _ H).
  destruct s as [|c t]; [reflexivity|]. cbn [drop_edge_dashes].
  destruct (is_dash c).
  - symmetry. apply sparse_trim_right. exact (sparse_tail _ _ H).
  - symmetry. now apply sparse_trim_right.
Qed.

Lemma clean_description_eq d :
  replace_all
    (replace_all (replace_all d special_pattern (str "-"))
       dashes_pattern (str "-"))
    edge_dash_pattern []
  = clean_description_spec d.
Proof.
  rewrite replace_special, replace_dashes, replace_edges, squeeze_collapse.
  apply sparse_trim. apply collapse_sparse.
Qed.

Lemma generateLinearBranchName_eq issue_identifier current_branch :
  generateLinearBranchName issue_identifier current_branch
  = branch_name_with_defaults issue_identifier current_branch.
Proof.
  unfold generateLinearBranchName, branch_name_with_defaults.
  cbv zeta. now rewrite username_eq, clean_description_eq, description_part_eq.
Qed.

(** C7, as the code has it.  The branch name is
    [author/identifier-description] with the identifier in lower case; the
    author is the text before the first slash, or "feature" when the branch
    has no slash or starts with one; the description is the text after the
    last slash, or "work" when that text is empty, with every run of
    non-alphanumeric characters collapsed to one hyphen and the hyphens at
    both ends removed; and the scenario of the specification holds. *)
Theorem generateLinearBranchName_spec (issue_identifier current_branch : jstring) :
  generateLinearBranchName issue_identifier current_branch
  = branch_name_with_defaults issue_identifier current_branch /\
  generateLinearBranchName (str "DEV-123") (str "user/-desc!@#-")
  = str "user/dev-123-desc".
Proof. split; [apply generateLinearBranchName_eq|reflexivity]. Qed.

(** C7, as stated, fails where the code falls back on a default: a branch
    that ends with a slash gets the description "work", and a branch that
    starts with a slash gets the author "feature". *)
Lemma generateLinearBranchName_defaults :
  generateLinearBranchName (str "DEV-123") (str "user/") = str "user/dev-123-work" /\
  branch_name_as_specified (str "DEV-123") (str "user/") = str "user/dev-123-" /\
  generateLinearBranchName (str "DEV-123") (str "user/")
  <> branch_name_as_specified (str "DEV-123") (str "user/") /\
  generateLinearBranchName (str "DEV-123") (str "/x") = str "feature/dev-123-x" /\
  branch_name_as_specified (str "DEV-123") (str "/x") = str "/dev-123-x".
Proof. repeat split; try reflexivity. discriminate. Qed.

(** Where no default applies the words of the specification hold. *)
Lemma generateLinearBranchName_as_specified issue_identifier current_branch :
  before_first_slash current_branch <> [] ->
  after_last_slash current_branch <> [] ->
  generateLinearBranchName issue_identifier current_branch
  = branch_name_as_specified issue_identifier current_branch.
Proof.
  intros Ha Hd. rewrite generateLinearBranchName_eq.
  unfold branch_name_with_defaults, branch_name_as_specified.
  destruct (before_first_slash current_branch); [congruence|].
  destruct (after_last_slash current_branch); [congruence|]. reflexivity.
Qed.

Example generateLinearBranchName_scenarios :
  generateLinearBranchName (str "DEV-123") (str "user/-desc!@#-")
  = str "user/dev-123-desc" /\
  generateLinearBranchName (str "DEV-789") (str "no-slash-branch")
  = str "feature/dev-789-no-slash-branch" /\
  generateLinearBranchName (str "DEV-123") (str "user/multiple---dashes")
  = str "user/dev-123-multiple-dashes".
Proof. repeat split; reflexivity. Qed.

End LinearFacts.

(** ** workflows/release-workflow.ts *)

Module ReleaseFacts.
Import JS JSFacts Release.

Lemma digit_not_dot c : is_digit c = true -> is_char "." c = false.
Proof.
  intros H. unfold is_char. destruct (Ascii.eqb_spec c "."); [|reflexivity].
  subst c. discriminate H.
Qed.

(** One attempt of the pattern captures the digits that [release_here]
    reads. *)
Lemma match_here_release p s :
  option_map (fun st => caps st 1) (match_here release_pattern p s)
  = option_map Some (release_here s).
Proof.
  unfold match_here, release_pattern, release_here.
  rewrite rmatch_seq, rmatch_Lit. cbn [rest pos caps].
  destruct (strip (str "release/") s) as [t|]; [|reflexivity].
  rewrite rmatch_seq, rmatch_plus_class. cbn [rest pos caps].
  rewrite try_runs_maximal.
  2:{ intros i a u cs Ha. rewrite rmatch_seq, rmatch_chr. cbn [rest].
      now rewrite (digit_not_dot _ Ha). }
  destruct (take_while is_digit t) as [|d0 d]; [reflexivity|].
  rewrite rmatch_seq, rmatch_chr. cbn [rest pos caps].
  destruct (drop_while is_digit t) as [|c t1]; [reflexivity|].
  destruct (is_char "." c); [|reflexivity].
  rewrite rmatch_grp, rmatch_plus_class. cbn [rest pos caps].
  rewrite try_runs_greedy by discriminate.
  pose proof (take_drop_while is_digit t1) as Ht1.
  destruct (take_while is_digit t1) as [|n0 n]; [reflexivity|].
  cbn [option_map caps set_cap pos rest Nat.eqb].
  apply (f_equal (fun x => Some (Some x))).
  rewrite <- Ht1. apply firstn_app_exact. lia.
Qed.

Lemma increment_of_exec b :
  increment_of b
  = match exec release_pattern b with
    | Some (_, st) =>
        match caps st 1 with
        | Some digits => parse_digits digits
        | None => 0%N
        end
    | None => 0%N
    end.
Proof.
  unfold increment_of, jmatch.
  now destruct (exec release_pattern b) as [[i st]|].
Qed.

(** The tag of the date [d] read at its own place. *)
Lemma release_here_date d tl :
  d <> [] -> forallb is_digit d = true ->
  release_here (str "release/" ++ d ++ str "." ++ tl)
  = match take_while is_digit tl with
    | [] => None
    | digits => Some digits
    end.
Proof.
  intros Hd0 Hd. unfold release_here.
  rewrite (proj2 (strip_spec (str "release/") _ (d ++ str "." ++ tl)) eq_refl).
  destruct (take_while_app is_digit d (str "." ++ tl) Hd) as [E1 E2];
    [reflexivity|].
  rewrite E1, E2. destruct d as [|d0 d]; [congruence|]. reflexivity.
Qed.

Lemma release_here_starts s id :
  release_here s = Some id -> starts_with (str "release/") s = true.
Proof.
  unfold release_here. rewrite starts_with_strip.
  now destruct (strip (str "release/") s).
Qed.

(** In a line that holds [release/] once, the increment is read right after
    the date. *)
Lemma increment_unique d pre tl :
  d <> [] -> forallb is_digit d = true ->
  count_sub (str "release/") (pre ++ str "release/" ++ d ++ str "." ++ tl) <= 1 ->
  increment_of (pre ++ str "release/" ++ d ++ str "." ++ tl)
  = parse_digits (take_while is_digit tl).
Proof.
  intros Hd0 Hd Hc. rewrite increment_of_exec. unfold exec.
  pose proof (release_here_date d tl Hd0 Hd) as Hhere.
  destruct (exec_from release_pattern 0 _) as [[i st]|] eqn:E.
  - apply exec_from_some in E as (pre' & suf' & Hb & _ & Hm & _).
    pose proof (match_here_release i suf') as Hr.
    rewrite Hm in Hr. cbn [option_map] in Hr.
    destruct (release_here suf') as [id|] eqn:Eid; [|discriminate].
    injection Hr as Hr. rewrite Hr.
    pose proof (release_here_starts _ _ Eid) as Hs.
    assert (Hlen : length pre = length pre').
    { apply (count_sub_unique (str "release/") pre _ pre' suf' Hb);
        [|exact Hs|exact Hc].
      apply starts_with_spec. now exists (d ++ str "." ++ tl). }
    destruct (app_same_length _ _ _ _ Hb Hlen) as [_ <-].
    rewrite Hhere in Eid.
    destruct (take_while is_digit tl); [discriminate|]. now injection Eid as <-.
  - pose proof (exec_from_none _ _ _ E pre _ eq_refl) as Hm.
    pose proof (match_here_release (0 + length pre)
                  (str "release/" ++ d ++ str "." ++ tl)) as Hr.
    rewrite Hm, Hhere in Hr.
    destruct (take_while is_digit tl); [reflexivity|discriminate].
Qed.

Lemma holds_release_unique d pre tl n :
  count_sub (str "release/") (pre ++ str "release/" ++ d ++ str "." ++ tl) <= 1 ->
  holds_release d n (pre ++ str "release/" ++ d ++ str "." ++ tl)
  <-> take_while is_digit tl <> [] /\ n = parse_digits (take_while is_digit tl).
Proof.
  intros Hc. split.
  - intros (pre' & ds & post & Hb & Hds0 & Hds & Hpost & ->).
    assert (Hlen : length pre = length pre').
    { apply (count_sub_unique (str "release/") pre _ pre' _ Hb);
        [| |exact Hc]; apply starts_with_spec; eauto. }
    destruct (app_same_length _ _ _ _ Hb Hlen) as [_ Hs].
    apply app_inv_head in Hs. apply app_inv_head in Hs.
    apply app_inv_head in Hs. subst tl.
    destruct (take_while_app is_digit ds post Hds) as [E _].
    { destruct post; [exact I|exact Hpost]. }
    rewrite E. auto.
  - intros (H0 & ->).
    exists pre, (take_while is_digit tl), (drop_while is_digit tl).
    rewrite take_drop_while. repeat split; auto.
    + apply take_while_all.
    + destruct (drop_while is_digit tl) as [|c u] eqn:E; [reflexivity|].
      exact (drop_while_head _ _ _ _ E).
Qed.

Lemma holds_release_includes d n b :
  holds_release d n b -> includes b (str "release/" ++ d ++ str ".") = true.
Proof.
  intros (pre & ds & post & -> & _). apply includes_spec.
  exists pre, (ds ++ post). now rewrite <- !app_assoc.
Qed.

Lemma list_max_ge l x : In x l -> (x <= list_max l)%N.
Proof.
  induction l as [|a l IH]; simpl; [tauto|].
  intros [->|H]; [lia|]. specialize (IH H). lia.
Qed.

Lemma list_max_attained l : list_max l = 0%N \/ In (list_max l) l.
Proof.
  induction l as [|a l IH]; simpl; [now left|].
  destruct (N.max_spec a (list_max l)) as [[_ ->]|[_ ->]]; [|now right; left].
  destruct IH as [->|H]; [now left|now right; right].
Qed.

(** C5, as the code has it.  For a date of one or more digits and a
    listing whose lines hold the text [release/] at most once, the next
    increment is one more than the largest [n] of the lines that hold
    [release/d.n], and 1 when there is none.  The listing is within the
    bounds of the numbers of the code: fewer than 65536 lines, and every
    number read below 2^53. *)
Theorem getNextReleaseIncrement_spec (d out : jstring) :
  d <> [] -> forallb is_digit d = true ->
  (forall b, In b (split_on LF out) -> count_sub (str "release/") b <= 1) ->
  within_number_limits out ->
  next_increment d (split_on LF out) (getNextReleaseIncrement (Some out) d).
Proof.
  intros Hd0 Hd Hone _. unfold getNextReleaseIncrement. cbv zeta.
  set (keep := fun b => includes b (str "release/" ++ d ++ str ".")).
  assert (Hinc : forall b, In b (filter keep (split_on LF out)) ->
            exists pre tl,
              b = pre ++ str "release/" ++ d ++ str "." ++ tl /\
              increment_of b = parse_digits (take_while is_digit tl) /\
              forall n, holds_release d n b <->
                take_while is_digit tl <> [] /\
                n = parse_digits (take_while is_digit tl)).
  { intros b Hb. apply filter_In in Hb as [Hin Hk]. unfold keep in Hk.
    apply includes_spec in Hk as (pre & tl & Hb).
    rewrite <- !app_assoc in Hb. specialize (Hone b Hin). subst b.
    exists pre, tl. split; [reflexivity|]. split.
    - now apply increment_unique.
    - intros n. now apply holds_release_unique. }
  assert (Hkeep : forall b n, In b (split_on LF out) -> holds_release d n b ->
            In b (filter keep (split_on LF out))).
  { intros b n Hin Hn. apply filter_In. split; [assumption|].
    exact (holds_release_includes _ _ _ Hn). }
  destruct (filter keep (split_on LF out)) as [|b0 l] eqn:El.
  - exists 0%N. repeat split; [|now left].
    intros b n Hin Hn. destruct (Hkeep b n Hin Hn).
  - set (lst := b0 :: l) in *.
    exists (list_max (map increment_of lst)). repeat split.
    + intros b n Hin Hn. pose proof (Hkeep b n Hin Hn) as Hb.
      destruct (Hinc b Hb) as (pre & tl & _ & Hi & Hnames).
      apply Hnames in Hn as [_ ->]. rewrite <- Hi.
      apply list_max_ge. now apply in_map.
    + destruct (list_max_attained (map increment_of lst)) as [H|H];
        [now left|].
      apply in_map_iff in H as (b & Hi & Hb).
      destruct (Hinc b Hb) as (pre & tl & Heq & Hi' & Hnames).
      destruct (take_while is_digit tl) as [|x xs] eqn:Et.
      * left. rewrite <- Hi, Hi'. reflexivity.
      * right. exists b. split.
        -- rewrite <- El in Hb. now apply filter_In in Hb.
        -- apply Hnames. rewrite <- Hi, Hi'. split; [discriminate|reflexivity].
Qed.

Lemma getNextReleaseIncrement_spec_witness :
  let d := str "20250106" in
  let out := str "  origin/main" ++ [LF]
             ++ str "  origin/release/20250106.1" ++ [LF]
             ++ str "  origin/release/20250106.12" ++ [LF]
             ++ str "  origin/release/20250105.40" in
  getNextReleaseIncrement (Some out) d = 13%N /\
  next_increment d (split_on LF out) (getNextReleaseIncrement (Some out) d).
Proof.
  intros d out. split; [reflexivity|].
  apply getNextReleaseIncrement_spec.
  - discriminate.
  - reflexivity.
  - intros b Hb. simpl in Hb.
    repeat (destruct Hb as [<-|Hb]; [vm_compute; lia|]). destruct Hb.
  - split; [vm_compute; reflexivity|].
    intros b Hb. simpl in Hb.
    repeat (destruct Hb as [<-|Hb]; [vm_compute; reflexivity|]). destruct Hb.
Defined.

(** When [git branch -r] fails the increment is 1. *)
Lemma getNextReleaseIncrement_on_failure d :
  getNextReleaseIncrement None d = 1%N.
Proof. reflexivity. Qed.

(** C5, as stated for any date and any listing, fails: a date that is not
    made of digits is filtered but never read, a line with two release
    tags is read at the first one, and a branch that is not a release
    branch counts when its name holds the text, as [prerelease/d.7] does. *)
Lemma getNextReleaseIncrement_not_max :
  (let d := str "20250106" in
   let out := str "  origin/prerelease/20250106.7" in
   getNextReleaseIncrement (Some out) d = 8%N /\
   forall b n, In b (split_on LF out) -> ~ release_branch_line d n b)
  /\
  (let d := str "rc" in
   let out := str "  origin/release/rc.3" in
   getNextReleaseIncrement (Some out) d = 1%N /\
   holds_release d 3 (str "  origin/release/rc.3") /\
   ~ next_increment d (split_on LF out) (getNextReleaseIncrement (Some out) d))
  /\
  (let d := str "20250106" in
   let out := str "  origin/release/20250105.9-release/20250106.1" in
   getNextReleaseIncrement (Some out) d = 10%N /\
   holds_release d 1 (str "  origin/release/20250105.9-release/20250106.1") /\
   ~ next_increment d (split_on LF out) (getNextReleaseIncrement (Some out) d)).
Proof.
  split; [|split]; intros d out.
  - split; [reflexivity|].
    intros b n [<-|[]] (remote & digits & Hb & Hr0 & Hr & _).
    injection Hb as Hb.
    do 7 (destruct remote as [|c remote]; cbn in Hb;
          [discriminate Hb
          |injection Hb as Hc Hb; subst c; cbn in Hr; try discriminate Hr]).
  - assert (Hn : holds_release d 3 (str "  origin/release/rc.3")).
    { exists (str "  origin/"), (str "3"), []. repeat split. discriminate. }
    repeat split; [exact Hn|].
    intros (n & Hr & Hmax & _).
    change (getNextReleaseIncrement (Some out) d) with 1%N in Hr.
    specialize (Hmax (str "  origin/release/rc.3") 3%N (or_introl eq_refl) Hn).
    lia.
  - assert (Hn : holds_release d 1
                   (str "  origin/release/20250105.9-release/20250106.1")).
    { exists (str "  origin/release/20250105.9-"), (str "1"), [].
      repeat split. discriminate. }
    repeat split; [exact Hn|].
    intros (n & Hr & Hmax & Hatt).
    change (getNextReleaseIncrement (Some out) d) with 10%N in Hr.
    assert (n = 9%N) by lia. subst n.
    destruct Hatt as [H|(b & Hin & Hb)]; [discriminate|].
    simpl in Hin. destruct Hin as [<-|[]].
    destruct Hb as (pre & ds & post & Hb & Hds0 & Hds & _ & Hval).
    assert (Hlen : length (str "  origin/release/20250105.9-") = length pre).
    { apply (count_sub_unique (str "release/20250106.")
               (str "  origin/release/20250105.9-")
               (str "release/20250106.1") pre
               (str "release/" ++ d ++ str "." ++ ds ++ post) Hb).
      - reflexivity.
      - apply starts_with_spec. exists (ds ++ post). reflexivity.
      - vm_compute. lia. }
    destruct (app_same_length (str "  origin/release/20250105.9-")
                (str "release/" ++ d ++ str "." ++ str "1") pre
                (str "release/" ++ d ++ str "." ++ ds ++ post) Hb Hlen)
      as [_ Hs].
    do 3 apply app_inv_head in Hs.
    destruct ds as [|c [|c' ds']]; [congruence| |discriminate].
    injection Hs as <- _. discriminate Hval.
Qed.

End ReleaseFacts.

(** ** config/config-manager.ts and config/config-validation.ts *)

Module ConfigFacts.
Import JS JSFacts Config.

Lemma readConfigFile_parses fs p c :
  parses_to fs p c -> readConfigFile fs p = (Some c, []).
Proof. intros (j & Hf & Hp). unfold readConfigFile. now rewrite Hf, Hp. Qed.

Lemma readConfigFile_unusable fs p :
  unusable fs p -> fst (readConfigFile fs p) = None.
Proof.
  unfold readConfigFile.
  intros [Hf|[(raw & Hf)|(j & Hf & Hp)]]; rewrite Hf; [reflexivity..|].
  now rewrite Hp.
Qed.

(** A file parses or it is unusable. *)
Lemma parses_or_unusable fs p : (exists c, parses_to fs p c) \/ unusable fs p.
Proof.
  unfold parses_to, unusable.
  destruct (file fs p) as [[raw|j]|] eqn:Hf; [right; eauto| |now right; left].
  destruct (configSchema_parse j) as [c|] eqn:Hp; [left; eauto|].
  right. right. right. eauto.
Qed.

Lemma parses_not_unusable fs p c : parses_to fs p c -> ~ unusable fs p.
Proof.
  intros (j & Hf & Hp) [H|[(raw & H)|(j' & H & Hp')]]; rewrite Hf in H;
    try discriminate. injection H as <-. congruence.
Qed.

Lemma getConfig_local fs env c :
  parses_to fs LocalConfigPath c -> getConfig fs env = (c, []).
Proof.
  intros H. unfold getConfig. now rewrite (readConfigFile_parses _ _ _ H).
Qed.

Lemma getConfig_global fs env c :
  unusable fs LocalConfigPath -> parses_to fs GlobalConfigPath c ->
  fst (getConfig fs env) = c.
Proof.
  intros Hl Hg. unfold getConfig.
  pose proof (readConfigFile_unusable _ _ Hl) as El.
  destruct (readConfigFile fs LocalConfigPath) as [l w1]. simpl in El. subst l.
  now rewrite (readConfigFile_parses _ _ _ Hg).
Qed.

Lemma getConfig_env fs env :
  unusable fs LocalConfigPath -> unusable fs GlobalConfigPath ->
  fst (getConfig fs env) = getConfigFromEnv env.
Proof.
  intros Hl Hg. unfold getConfig.
  pose proof (readConfigFile_unusable _ _ Hl) as El.
  pose proof (readConfigFile_unusable _ _ Hg) as Eg.
  destruct (readConfigFile fs LocalConfigPath) as [l w1]. simpl in El. subst l.
  destruct (readConfigFile fs GlobalConfigPath) as [g w2]. simpl in Eg.
  now subst g.
Qed.

Lemma file_with_file_same fs p t : file (with_file fs p t) p = t.
Proof. simpl. now destruct p. Qed.

Lemma file_with_file_other fs p q t :
  q <> p -> file (with_file fs p t) q = file fs q.
Proof. simpl. destruct q, p; simpl; congruence. Qed.

Lemma readConfigFile_with_file_other fs p q t :
  q <> p -> readConfigFile (with_file fs p t) q = readConfigFile fs q.
Proof.
  intros H. unfold readConfigFile. now rewrite file_with_file_other.
Qed.

(** A malformed file gives the same configuration as no file. *)
Lemma getConfig_malformed fs env p raw :
  file fs p = Some (Malformed raw) ->
  fst (getConfig fs env) = fst (getConfig (with_file fs p None) env).
Proof.
  intros Hf. unfold getConfig. destruct p.
  - rewrite (readConfigFile_with_file_other fs LocalConfigPath GlobalConfigPath)
      by discriminate.
    unfold readConfigFile at 1 3. rewrite Hf, file_with_file_same.
    now destruct (readConfigFile fs GlobalConfigPath) as [[g|] w2].
  - rewrite (readConfigFile_with_file_other fs GlobalConfigPath LocalConfigPath)
      by discriminate.
    destruct (readConfigFile fs LocalConfigPath) as [[l|] w1]; [reflexivity|].
    unfold readConfigFile. now rewrite Hf, file_with_file_same.
Qed.

(** C3.  [getConfig] takes the first usable source whole: the project-local
    file when it exists and parses, whatever the global file and the
    environment hold; else the global file when it exists and parses,
    whatever the environment holds; else the environment.  A malformed file
    is warned about and then counts as absent. *)
Theorem getConfig_first_match_wins (fs : filesystem) (env : environment) :
  (forall c, parses_to fs LocalConfigPath c ->
     forall g env', fst (getConfig (with_file fs GlobalConfigPath g) env') = c) /\
  (forall c, unusable fs LocalConfigPath -> parses_to fs GlobalConfigPath c ->
     forall env', fst (getConfig fs env') = c) /\
  (unusable fs LocalConfigPath -> unusable fs GlobalConfigPath ->
     fst (getConfig fs env) = getConfigFromEnv env) /\
  (forall p raw, file fs p = Some (Malformed raw) ->
     readConfigFile fs p = (None, [Warn_read_failed p]) /\
     fst (getConfig fs env) = fst (getConfig (with_file fs p None) env)).
Proof.
  repeat split.
  - intros c (j & Hf & Hp) g env'.
    rewrite (getConfig_local (with_file fs GlobalConfigPath g) env' c);
      [reflexivity|].
    exists j. split; [|assumption]. now rewrite file_with_file_other.
  - intros c Hl Hg env'. now apply getConfig_global.
  - apply getConfig_env.
  - unfold readConfigFile. now rewrite H.
  - now apply getConfig_malformed with raw.
Qed.

Lemma getConfig_first_match_wins_witness :
  parses_to sample_fs LocalConfigPath sample_local_config /\
  fst (getConfig (with_file sample_fs GlobalConfigPath None) sample_env)
  = sample_local_config.
Proof.
  assert (H : parses_to sample_fs LocalConfigPath sample_local_config).
  { eexists. split; reflexivity. }
  split; [exact H|].
  exact (proj1 (getConfig_first_match_wins sample_fs sample_env)
           sample_local_config H None sample_env).
Defined.

(** The precedence scenario of the specification: the same field set in the
    three sources; the project file wins; without it the global file; without
    both the environment. *)
Example getConfig_precedence_scenario :
  fst (getConfig sample_fs sample_env) googleAiKey
  = Some (VStr (str "from-project")) /\
  fst (getConfig (with_file sample_fs LocalConfigPath None) sample_env) googleAiKey
  = Some (VStr (str "from-home")) /\
  fst (getConfig
         (with_file (with_file sample_fs LocalConfigPath None)
            GlobalConfigPath None) sample_env) googleAiKey
  = Some (VStr (str "from-env")).
Proof. repeat split; reflexivity. Qed.

(** *** [linearEnabled] *)

Lemma parse_linearEnabled fields c :
  configSchema_parse (JObj fields) = Some c ->
  (c linearEnabled = Some (VBool false) <->
   json_get (str "linearEnabled") fields = Some (JBool false)).
Proof.
  unfold configSchema_parse.
  destruct (parse_field _ (json_get (key_name googleAiKey) fields));
    [|discriminate].
  destruct (parse_field _ (json_get (key_name githubToken) fields));
    [|discriminate].
  destruct (parse_field _ (json_get (key_name linearApiKey) fields));
    [|discriminate].
  change (key_name linearEnabled) with (str "linearEnabled").
  change (configSchema linearEnabled) with OptionalBooleanDefaultTrue.
  destruct (json_get (str "linearEnabled") fields) as [[| [|] | | | |]|];
    cbn [parse_field]; try discriminate; intros [= <-]; split; congruence.
Qed.

Lemma parses_to_object fs p c :
  parses_to fs p c ->
  exists fields, file fs p = Some (JsonText (JObj fields)) /\
                 configSchema_parse (JObj fields) = Some c.
Proof.
  intros (j & Hf & Hp). destruct j; try discriminate. eauto.
Qed.

Lemma parsed_says_false fs p c :
  parses_to fs p c ->
  (linear_enabled_of c = false <->
   file_field fs p (str "linearEnabled") = Some (JBool false)).
Proof.
  intros H. apply parses_to_object in H as (fields & Hf & Hp).
  unfold file_field. rewrite Hf. rewrite <- (parse_linearEnabled _ _ Hp).
  unfold linear_enabled_of. destruct (c linearEnabled) as [[s|[|]]|];
    split; congruence.
Qed.

Lemma getConfigFromEnv_linearEnabled env :
  getConfigFromEnv env linearEnabled
  = match env (str "LINEAR_ENABLED") with
    | Some ((_ :: _) as v) => Some (VBool (parse_boolean v))
    | _ => None
    end.
Proof.
  unfold getConfigFromEnv. cbn [fold_left ENV_TO_CONFIG].
  destruct (env (str "LINEAR_ENABLED")) as [[|c v]|];
    destruct (env (str "LINEAR_API_KEY")) as [[|? ?]|];
    destruct (env (str "GITHUB_TOKEN")) as [[|? ?]|];
    destruct (env (str "GH_TOKEN")) as [[|? ?]|];
    destruct (env (str "GOOGLE_AI_KEY")) as [[|? ?]|]; reflexivity.
Qed.

Lemma parse_boolean_false v :
  parse_boolean v = false <-> toLowerCase v <> str "true" /\ v <> str "1".
Proof.
  unfold parse_boolean. rewrite orb_false_iff. split.
  - intros [H1 H2]. split; intros E; apply jstring_eqb_eq in E; congruence.
  - intros [H1 H2]. split.
    + destruct (jstring_eqb (toLowerCase v) (str "true")) eqn:E; [|reflexivity].
      apply jstring_eqb_eq in E. contradiction.
    + destruct (jstring_eqb v (str "1")) eqn:E; [|reflexivity].
      apply jstring_eqb_eq in E. contradiction.
Qed.

Lemma env_says_false env :
  linear_enabled_of (getConfigFromEnv env) = false <->
  exists v, env (str "LINEAR_ENABLED") = Some v /\ v <> [] /\
            toLowerCase v <> str "true" /\ v <> str "1".
Proof.
  unfold linear_enabled_of. rewrite getConfigFromEnv_linearEnabled.
  destruct (env (str "LINEAR_ENABLED")) as [[|c v]|].
  - split; [discriminate|]. intros (v & [= <-] & H & _). congruence.
  - destruct (parse_boolean (c :: v)) eqn:E.
    + split; [discriminate|]. intros (v' & [= <-] & _ & H).
      apply parse_boolean_false in H. congruence.
    + split; [|reflexivity]. intros _. exists (c :: v).
      apply parse_boolean_false in E. repeat split; try apply E. discriminate.
  - split; [discriminate|]. intros (v & [=] & _).
Qed.

(** C8, as the code has it.  The integration is disabled exactly when the
    one source [getConfig] resolves to says false: the project file when it
    parses, else the global file when it parses, else the environment
    variable, set to a non-empty value other than "true" (in any case) or
    "1".  Otherwise it is enabled. *)
Theorem isLinearEnabled_spec (fs : filesystem) (env : environment) :
  isLinearEnabled fs env = false <-> resolved_source_says_false fs env.
Proof.
  unfold isLinearEnabled, resolved_source_says_false.
  destruct (parses_or_unusable fs LocalConfigPath) as [(c & Hl)|Hl].
  - rewrite (getConfig_local fs env c Hl). cbn [fst].
    rewrite (parsed_says_false _ _ _ Hl). split.
    + intros H. left. eauto.
    + intros [[_ H]|[(Hu & _)|(Hu & _)]]; [assumption| |];
        now apply parses_not_unusable in Hl.
  - destruct (parses_or_unusable fs GlobalConfigPath) as [(c & Hg)|Hg].
    + rewrite (getConfig_global fs env c Hl Hg).
      rewrite (parsed_says_false _ _ _ Hg). split.
      * intros H. right. left. eauto.
      * intros [[(c' & Hc') _]|[(_ & _ & H)|(_ & Hu & _)]]; [|assumption|].
        -- now apply parses_not_unusable in Hc'.
        -- now apply parses_not_unusable in Hg.
    + rewrite (getConfig_env fs env Hl Hg). rewrite env_says_false. split.
      * intros H. right. right. auto.
      * intros [[(c' & Hc') _]|[(_ & (c' & Hc') & _)|(_ & _ & H)]];
          [| |assumption].
        -- now apply parses_not_unusable in Hc'.
        -- now apply parses_not_unusable in Hc'.
Qed.

Lemma isLinearEnabled_spec_witness :
  resolved_source_says_false no_files (env_linear (str "false")) /\
  isLinearEnabled no_files (env_linear (str "false")) = false.
Proof.
  assert (H : resolved_source_says_false no_files (env_linear (str "false"))).
  { right. right. repeat split; try (now left).
    exists (str "false"). repeat split; discriminate. }
  split; [exact H|].
  exact (proj2 (isLinearEnabled_spec no_files (env_linear (str "false"))) H).
Defined.

(** C8, as stated, fails: a false in a source that an earlier source shadows
    is not honoured, and neither is an environment variable set to the empty
    string. *)
Lemma isLinearEnabled_shadowed_false :
  says_false_somewhere shadowed_fs (env_linear (str "false")) /\
  isLinearEnabled shadowed_fs (env_linear (str "false")) = true /\
  says_false_somewhere no_files (env_linear []) /\
  isLinearEnabled no_files (env_linear []) = true.
Proof.
  repeat split.
  - right. right. exists (str "false"). repeat split; discriminate.
  - right. right. exists []. repeat split; discriminate.
Qed.

(** The default applies when nothing sets the field, and an explicit false
    of the resolved source is honoured. *)
Example isLinearEnabled_scenarios :
  isLinearEnabled no_files (fun _ => None) = true /\
  isLinearEnabled no_files (env_linear (str "TRUE")) = true /\
  isLinearEnabled no_files (env_linear (str "1")) = true /\
  isLinearEnabled no_files (env_linear (str "false")) = false /\
  isLinearEnabled no_files (env_linear (str "0")) = false /\
  isLinearEnabled shadowed_fs (fun _ => None) = true /\
  isLinearEnabled
    (with_file no_files GlobalConfigPath
       (Some (JsonText (JObj [(str "linearEnabled", JBool false)]))))
    (env_linear (str "true")) = false.
Proof. repeat split; reflexivity. Qed.

(** *** [setConfigValue] and [setConfigValues] *)

Lemma key_eqb_eq a b : key_eqb a b = true <-> a = b.
Proof. destruct a, b; simpl; split; congruence. Qed.

Lemma key_eqb_neq a b : a <> b -> key_eqb a b = false.
Proof. destruct a, b; simpl; congruence. Qed.

(** Reading back what [JSON.stringify] wrote. *)
Lemma json_get_config_to_json c k :
  match config_to_json c with
  | JObj fields => json_get (key_name k) fields
  | _ => None
  end = option_map cvalue_to_json (c k).
Proof.
  unfold config_to_json. cbn [CONFIG_KEYS flat_map].
  destruct k; destruct (c googleAiKey), (c githubToken), (c linearApiKey),
    (c linearEnabled); reflexivity.
Qed.

Lemma file_field_written fs c k :
  file fs GlobalConfigPath = Some (JsonText (config_to_json c)) ->
  file_field fs GlobalConfigPath (key_name k) = option_map cvalue_to_json (c k).
Proof.
  intros H. unfold file_field. rewrite H.
  exact (json_get_config_to_json c k).
Qed.

(** The fields of a file that parses are the fields of its configuration. *)
Lemma parse_field_value sch v r cv :
  parse_field sch (Some v) = Some r -> r = Some cv -> cvalue_to_json cv = v.
Proof.
  destruct sch, v; simpl; try discriminate; intros [= <-] [= <-]; reflexivity.
Qed.

Lemma parse_field_some sch v r :
  parse_field sch (Some v) = Some r -> exists cv, r = Some cv.
Proof. destruct sch, v; simpl; try discriminate; intros [= <-]; eauto. Qed.

Lemma parsed_field fields c k v :
  configSchema_parse (JObj fields) = Some c ->
  json_get (key_name k) fields = Some v ->
  option_map cvalue_to_json (c k) = Some v.
Proof.
  unfold configSchema_parse.
  destruct (parse_field _ (json_get (key_name googleAiKey) fields)) as [a|] eqn:Ea;
    [|discriminate].
  destruct (parse_field _ (json_get (key_name githubToken) fields)) as [b|] eqn:Eb;
    [|discriminate].
  destruct (parse_field _ (json_get (key_name linearApiKey) fields)) as [d|] eqn:Ed;
    [|discriminate].
  destruct (parse_field _ (json_get (key_name linearEnabled) fields)) as [e|] eqn:Ee;
    [|discriminate].
  intros [= <-] Hv.
  destruct k; rewrite Hv in *;
    match goal with
    | H : parse_field _ (Some v) = Some ?r |- _ =>
        destruct (parse_field_some _ _ _ H) as (cv & ->);
        cbn [option_map]; f_equal;
        exact (parse_field_value _ _ _ cv H eq_refl)
    end.
Qed.

Lemma write_global fs c :
  writable fs GlobalConfigPath = true ->
  writeConfigFile fs GlobalConfigPath c
  = (true, with_file fs GlobalConfigPath (Some (JsonText (config_to_json c))), []).
Proof. intros H. unfold writeConfigFile. now rewrite H. Qed.

Lemma write_global_failed fs c :
  writable fs GlobalConfigPath = false ->
  writeConfigFile fs GlobalConfigPath c
  = (false, fs, [Error_write_failed GlobalConfigPath]).
Proof. intros H. unfold writeConfigFile. now rewrite H. Qed.

(** What both operations do: read the global file (or start from the empty
    object), change the named keys, write the global file. *)
Lemma setConfigValues_run values fs :
  let existing := fst (read_or_empty fs) in
  let '(ok, fs', _) := setConfigValues values fs in
  file fs' LocalConfigPath = file fs LocalConfigPath /\
  (ok = true ->
   file fs' GlobalConfigPath
   = Some (JsonText (config_to_json (spread existing values)))) /\
  (ok = false -> fs' = fs).
Proof.
  unfold setConfigValues. destruct (read_or_empty fs) as [existing w].
  cbn [fst]. destruct (writable fs GlobalConfigPath) eqn:Hw.
  - rewrite (write_global _ _ Hw). repeat split; [discriminate].
  - rewrite (write_global_failed _ _ Hw). repeat split; discriminate.
Qed.

Lemma setConfigValue_run key value fs :
  let existing := fst (read_or_empty fs) in
  let '(ok, fs', _) := setConfigValue key value fs in
  file fs' LocalConfigPath = file fs LocalConfigPath /\
  (ok = true ->
   file fs' GlobalConfigPath
   = Some (JsonText (config_to_json (set_key key (Some value) existing)))) /\
  (ok = false -> fs' = fs).
Proof.
  unfold setConfigValue. destruct (read_or_empty fs) as [existing w].
  cbn [fst]. destruct (writable fs GlobalConfigPath) eqn:Hw.
  - rewrite (write_global _ _ Hw). repeat split; [discriminate].
  - rewrite (write_global_failed _ _ Hw). repeat split; discriminate.
Qed.

Lemma read_or_empty_parses fs c :
  parses_to fs GlobalConfigPath c -> fst (read_or_empty fs) = c.
Proof.
  intros H. unfold read_or_empty.
  now rewrite (readConfigFile_parses _ _ _ H).
Qed.

(** C9, as the code has it.  Both operations leave the project-local file
    alone and write the global file only.  When the existing global file
    parses against the schema, every schema field it has that the key or the
    patch does not name is in the written file with its previous value. *)
Theorem setConfig_read_merge_write (fs : filesystem) :
  (forall key value,
     let '(ok, fs', _) := setConfigValue key value fs in
     file fs' LocalConfigPath = file fs LocalConfigPath /\
     forall c, parses_to fs GlobalConfigPath c -> ok = true ->
     forall k v, k <> key ->
       file_field fs GlobalConfigPath (key_name k) = Some v ->
       file_field fs' GlobalConfigPath (key_name k) = Some v) /\
  (forall values,
     let '(ok, fs', _) := setConfigValues values fs in
     file fs' LocalConfigPath = file fs LocalConfigPath /\
     forall c, parses_to fs GlobalConfigPath c -> ok = true ->
     forall k v, values k = None ->
       file_field fs GlobalConfigPath (key_name k) = Some v ->
       file_field fs' GlobalConfigPath (key_name k) = Some v).
Proof.
  split.
  - intros key value. pose proof (setConfigValue_run key value fs) as H.
    cbv zeta in H. destruct (setConfigValue key value fs) as [[ok fs'] w].
    destruct H as (Hlocal & Hglobal & _). split; [exact Hlocal|].
    intros c Hc Hok k v Hk Hv. specialize (Hglobal Hok).
    rewrite (read_or_empty_parses _ _ Hc) in Hglobal.
    rewrite (file_field_written _ _ k Hglobal).
    unfold set_key. rewrite (key_eqb_neq _ _ Hk).
    apply parses_to_object in Hc as (fields & Hf & Hp).
    unfold file_field in Hv. rewrite Hf in Hv.
    exact (parsed_field _ _ _ _ Hp Hv).
  - intros values. pose proof (setConfigValues_run values fs) as H.
    cbv zeta in H. destruct (setConfigValues values fs) as [[ok fs'] w].
    destruct H as (Hlocal & Hglobal & _). split; [exact Hlocal|].
    intros c Hc Hok k v Hk Hv. specialize (Hglobal Hok).
    rewrite (read_or_empty_parses _ _ Hc) in Hglobal.
    rewrite (file_field_written _ _ k Hglobal).
    unfold spread. rewrite Hk.
    apply parses_to_object in Hc as (fields & Hf & Hp).
    unfold file_field in Hv. rewrite Hf in Hv.
    exact (parsed_field _ _ _ _ Hp Hv).
Qed.

Lemma setConfig_read_merge_write_witness :
  parses_to (with_file sample_fs LocalConfigPath None) GlobalConfigPath
    (fun k => match k with
              | googleAiKey => Some (VStr (str "from-home"))
              | githubToken => None
              | linearApiKey => None
              | linearEnabled => Some (VBool true)
              end) /\
  let '(ok, fs', _) :=
    setConfigValue linearApiKey (VStr (str "lin_key"))
      (with_file sample_fs LocalConfigPath None) in
  ok = true /\
  file fs' LocalConfigPath = None /\
  file_field fs' GlobalConfigPath (str "googleAiKey")
  = Some (JStr (str "from-home")) /\
  file_field fs' GlobalConfigPath (str "linearApiKey")
  = Some (JStr (str "lin_key")).
Proof.
  pose (fs := with_file sample_fs LocalConfigPath None).
  assert (Hp : parses_to fs GlobalConfigPath
            (fun k => match k with
                      | googleAiKey => Some (VStr (str "from-home"))
                      | githubToken => None
                      | linearApiKey => None
                      | linearEnabled => Some (VBool true)
                      end)).
  { eexists. split; reflexivity. }
  split; [exact Hp|].
  pose proof (proj1 (setConfig_read_merge_write fs) linearApiKey
                (VStr (str "lin_key"))) as H.
  fold fs.
  destruct (setConfigValue linearApiKey (VStr (str "lin_key")) fs)
    as [[ok fs'] w] eqn:E.
  destruct H as [Hlocal Hframe].
  assert (Hok : ok = true) by (vm_compute in E; congruence).
  repeat split.
  - exact Hok.
  - exact Hlocal.
  - apply (Hframe _ Hp Hok googleAiKey); [discriminate|reflexivity].
  - vm_compute in E. injection E as _ <- _. reflexivity.
Defined.

(** C9, as stated, fails for a global file that does not parse against the
    schema, which is read as the empty object, and for a field the schema
    does not know, which the parse strips: those fields are not written
    back. *)
Lemma setConfigValue_drops_fields :
  (let '(ok, fs', _) :=
     setConfigValue linearApiKey (VStr (str "lin_key")) ill_typed_global in
   ok = true /\
   file_field ill_typed_global GlobalConfigPath (str "googleAiKey")
   = Some (JStr (str "abc")) /\
   file_field fs' GlobalConfigPath (str "googleAiKey") = None) /\
  (let '(ok, fs', _) :=
     setConfigValue linearApiKey (VStr (str "lin_key")) extra_field_global in
   ok = true /\
   file_field extra_field_global GlobalConfigPath (str "editor")
   = Some (JStr (str "vim")) /\
   file_field fs' GlobalConfigPath (str "editor") = None).
Proof. repeat split; reflexivity. Qed.

End ConfigFacts.

(** ** A program logic for the runs *)

Module IOFacts.
Import JS IO.

Section Invariant.

(** An invariant of the runs: [G] holds of the repository state and [P] of
    every event so far.  [G] must survive the two ways of staging and
    committing, and the commits made from a state in [G] must be in [P]. *)
Variable G : git_state -> Prop.
Variable P : event -> Prop.

Hypothesis G_stage_here : forall g, G g -> G (stage_here g).
Hypothesis G_stage_all : forall g, G g -> G (stage_all g).
Hypothesis G_after_commit : forall g, G g -> G (after_commit g).
Hypothesis P_Committed :
  forall g, G g -> staged g <> [] ->
  P (Committed (staged g) (unstaged g ++ untracked g)).

Local Abbreviation inv := (IO.inv G P).
Local Abbreviation ht := (IO.ht G P).

Lemma ht_weaken {A} (m : M A) (Q Q' : A -> Prop) :
  ht m Q -> (forall a, Q a -> Q' a) -> ht m Q'.
Proof.
  intros H HQ w Hw. specialize (H w Hw).
  destruct (m w) as [[a| | |] w']; intuition.
Qed.

Lemma ht_ret {A} (a : A) (Q : A -> Prop) : Q a -> ht (ret a) Q.
Proof. intros HQ w Hw. simpl. auto. Qed.

Lemma ht_bind {A B} (m : M A) (f : A -> M B) (Q : A -> Prop) (R : B -> Prop) :
  ht m Q -> (forall a, Q a -> ht (f a) R) -> ht (bind m f) R.
Proof.
  intros Hm Hf w Hw. unfold bind. specialize (Hm w Hw).
  destruct (m w) as [[a| | |] w']; try assumption.
  destruct Hm as [Hw' Ha]. exact (Hf a Ha w' Hw').
Qed.

Lemma ht_seq {A B} (m : M A) (f : A -> M B) (R : B -> Prop) :
  ht m any -> (forall a, ht (f a) R) -> ht (bind m f) R.
Proof. intros Hm Hf. apply ht_bind with (Q := any); auto. Qed.

Lemma ht_try {A} (m : M A) (h : jstring -> M A) (Q : A -> Prop) :
  ht m Q -> (forall e, ht (h e) Q) -> ht (try_catch m h) Q.
Proof.
  intros Hm Hh w Hw. unfold try_catch. specialize (Hm w Hw).
  destruct (m w) as [[a| e | |] w']; try assumption.
  exact (Hh e w' Hm).
Qed.

Lemma ht_throw {A} e (Q : A -> Prop) : ht (throw e) Q.
Proof. intros w Hw. exact Hw. Qed.

Lemma ht_exit {A} c (Q : A -> Prop) : ht (process_exit c) Q.
Proof. intros w Hw. exact Hw. Qed.

Lemma ht_block {A} (Q : A -> Prop) : ht block Q.
Proof. intros w Hw. exact Hw. Qed.

Lemma ht_emit e : P e -> ht (emit e) any.
Proof.
  intros He w [Hg Ht]. simpl. repeat split; [exact Hg|].
  apply Forall_app. split; [exact Ht|]. now constructor.
Qed.

Lemma ht_log l message : P (Logged l message) -> ht (log l message) any.
Proof. apply ht_emit. Qed.

Lemma ht_next_reply : ht next_reply any.
Proof.
  intros w [Hg Ht]. unfold next_reply.
  destruct (script w); simpl; repeat split; assumption.
Qed.

Lemma ht_get_git : ht get_git G.
Proof. intros w [Hg Ht]. simpl. repeat split; assumption. Qed.

Lemma ht_put_git g : G g -> ht (put_git g) any.
Proof. intros Hg w [_ Ht]. simpl. repeat split; assumption. Qed.

Lemma ht_git_effect command : ht (git_effect command) any.
Proof.
  unfold git_effect. apply ht_bind with (Q := G); [apply ht_get_git|].
  intros g Hg.
  destruct (is_add_here command); [apply ht_put_git; now apply G_stage_here|].
  destruct (is_add_all command); [apply ht_put_git; now apply G_stage_all|].
  destruct (is_commit command); [|now apply ht_ret].
  destruct (commit_message_of command) as [message|]; [|apply ht_block].
  destruct (blank_message message); [apply ht_throw|].
  destruct (staged g) as [|f fs] eqn:E; [apply ht_throw|].
  apply ht_seq.
  - apply ht_emit. rewrite <- E. apply P_Committed; [exact Hg|].
    rewrite E. discriminate.
  - intros _. apply ht_put_git. now apply G_after_commit.
Qed.

Lemma ht_execSync command : P (Exec command) -> ht (execSync command) any.
Proof.
  intros Hc. unfold execSync. apply ht_seq; [now apply ht_emit|]. intros _.
  apply ht_seq; [apply ht_next_reply|]. intros r.
  destruct r; try apply ht_block; [apply ht_throw|].
  apply ht_seq; [apply ht_git_effect|]. intros _. now apply ht_ret.
Qed.

Lemma ht_confirm q : P (Asked q) -> ht (confirm q) any.
Proof.
  intros Hq. unfold confirm. apply ht_seq; [now apply ht_emit|]. intros _.
  apply ht_seq; [apply ht_next_reply|]. intros r.
  destruct r; try apply ht_block. now apply ht_ret.
Qed.

Lemma ht_select q : P (Asked q) -> ht (select q) any.
Proof.
  intros Hq. unfold select. apply ht_seq; [now apply ht_emit|]. intros _.
  apply ht_seq; [apply ht_next_reply|]. intros r.
  destruct r; try apply ht_block. now apply ht_ret.
Qed.

Lemma ht_ask_text q : P (Asked q) -> ht (ask_text q) any.
Proof.
  intros Hq. unfold ask_text. apply ht_seq; [now apply ht_emit|]. intros _.
  apply ht_seq; [apply ht_next_reply|]. intros r.
  destruct r; try apply ht_block. now apply ht_ret.
Qed.

Lemma ht_request s : P (Called s) -> ht (request s) any.
Proof.
  intros Hs. unfold request. apply ht_seq; [now apply ht_emit|]. intros _.
  apply ht_seq; [apply ht_next_reply|]. intros r.
  destruct r; try (now apply ht_ret). apply ht_throw.
Qed.

Lemma ht_getConfig :
  (forall l message, P (Logged l message)) -> ht getConfig any.
Proof.
  intros HL w [Hg Ht]. unfold getConfig.
  destruct (Config.getConfig (files w) (env w)) as [c warnings]. simpl.
  repeat split; [exact Hg|].
  apply Forall_app. split; [exact Ht|].
  apply Forall_forall. intros e He. apply in_map_iff in He as (x & <- & _).
  apply HL.
Qed.

Lemma ht_runCommandCaptureOrThrow command errorMessage :
  P (Exec command) -> (forall l message, P (Logged l message)) ->
  ht (runCommandCaptureOrThrow command errorMessage) any.
Proof.
  intros Hc HL. unfold runCommandCaptureOrThrow. apply ht_try.
  - apply ht_seq; [now apply ht_execSync|]. intros out. now apply ht_ret.
  - intros _. apply ht_seq; [apply ht_log, HL|]. intros _. apply ht_throw.
Qed.

Lemma ht_runCommandWithOutput command message :
  P (Exec command) -> (forall l m, P (Logged l m)) ->
  ht (runCommandWithOutput command message) any.
Proof.
  intros Hc HL. unfold runCommandWithOutput. apply ht_try.
  - apply ht_seq; [apply ht_log, HL|]. intros _.
    apply ht_seq; [now apply ht_execSync|]. intros _.
    apply ht_seq; [apply ht_log, HL|]. intros _. now apply ht_ret.
  - intros _. apply ht_seq; [apply ht_log, HL|]. intros _. now apply ht_ret.
Qed.

(** A program that looks at the script it is given. *)
Lemma ht_with_script {A} (f : nat -> M A) (Q : A -> Prop) :
  (forall n, ht (f n) Q) -> ht (fun w => f (S (length (script w))) w) Q.
Proof. intros H w Hw. exact (H _ w Hw). Qed.

End Invariant.

(** *** The trace only grows *)

Create HintDb grows.

Lemma grows_ret {A} (a : A) : grows (ret a).
Proof. intros w. exists []. cbn. now rewrite app_nil_r. Qed.

Lemma grows_throw {A} e : grows (@throw A e).
Proof. intros w. exists []. cbn. now rewrite app_nil_r. Qed.

Lemma grows_exit {A} c : grows (@process_exit A c).
Proof. intros w. exists []. cbn. now rewrite app_nil_r. Qed.

Lemma grows_block {A} : grows (@block A).
Proof. intros w. exists []. cbn. now rewrite app_nil_r. Qed.

Lemma grows_emit e : grows (emit e).
Proof. intros w. exists [e]. reflexivity. Qed.

Lemma grows_log l message : grows (log l message).
Proof. apply grows_emit. Qed.

Lemma grows_next_reply : grows next_reply.
Proof.
  intros w. exists []. unfold next_reply.
  destruct (script w); cbn; now rewrite app_nil_r.
Qed.

Lemma grows_get_git : grows get_git.
Proof. intros w. exists []. cbn. now rewrite app_nil_r. Qed.

Lemma grows_put_git g : grows (put_git g).
Proof. intros w. exists []. cbn. now rewrite app_nil_r. Qed.

Lemma grows_getConfig : grows getConfig.
Proof.
  intros w. unfold getConfig.
  destruct (Config.getConfig (files w) (env w)) as [c warnings]. cbn. eauto.
Qed.

Lemma grows_bind {A B} (m : M A) (f : A -> M B) :
  grows m -> (forall a, grows (f a)) -> grows (bind m f).
Proof.
  intros Hm Hf w. unfold bind. destruct (Hm w) as (tl & E).
  destruct (m w) as [[a| e | c |] w1]; cbn [snd] in *; eauto.
  destruct (Hf a w1) as (tl' & E'). exists (tl ++ tl').
  now rewrite E', E, app_assoc.
Qed.

Lemma grows_try {A} (m : M A) (h : jstring -> M A) :
  grows m -> (forall e, grows (h e)) -> grows (try_catch m h).
Proof.
  intros Hm Hh w. unfold try_catch. destruct (Hm w) as (tl & E).
  destruct (m w) as [[a| e | c |] w1]; cbn [snd] in *; eauto.
  destruct (Hh e w1) as (tl' & E'). exists (tl ++ tl').
  now rewrite E', E, app_assoc.
Qed.

Lemma grows_with_script {A} (f : nat -> M A) :
  (forall n, grows (f n)) -> grows (fun w => f (S (length (script w))) w).
Proof. intros H w. exact (H _ w). Qed.

#[export] Hint Resolve grows_ret grows_throw grows_exit grows_block grows_emit
  grows_log grows_next_reply grows_get_git grows_put_git grows_getConfig : grows.

Ltac grow_step :=
  lazymatch goal with
  | |- grows (bind _ _) => apply grows_bind; [|intros ?]
  | |- grows (try_catch _ _) => apply grows_try; [|intros ?]
  | |- grows (if ?c then _ else _) => destruct c
  | |- grows (match ?x with _ => _ end) => destruct x
  | |- grows (let _ := _ in _) => cbv zeta
  end.

Ltac grow := repeat first [ solve [eauto with grows] | grow_step ].

Lemma grows_git_effect command : grows (git_effect command).
Proof. unfold git_effect. grow. Qed.
#[export] Hint Resolve grows_git_effect : grows.

Lemma grows_execSync command : grows (execSync command).
Proof. unfold execSync. grow. Qed.

Lemma grows_confirm q : grows (confirm q).
Proof. unfold confirm. grow. Qed.

Lemma grows_select q : grows (select q).
Proof. unfold select. grow. Qed.

Lemma grows_ask_text q : grows (ask_text q).
Proof. unfold ask_text. grow. Qed.

Lemma grows_request s : grows (request s).
Proof. unfold request. grow. Qed.

#[export] Hint Resolve grows_execSync grows_confirm grows_select grows_ask_text
  grows_request : grows.

Lemma grows_runCommandCaptureOrThrow command errorMessage :
  grows (runCommandCaptureOrThrow command errorMessage).
Proof. unfold runCommandCaptureOrThrow. grow. Qed.

Lemma grows_runCommandWithOutput command message :
  grows (runCommandWithOutput command message).
Proof. unfold runCommandWithOutput. grow. Qed.

#[export] Hint Resolve grows_runCommandCaptureOrThrow
  grows_runCommandWithOutput : grows.

(** *** What a computation begins with *)

Lemma bind_assoc {A B C} (m : M A) (f : A -> M B) (k : B -> M C) w :
  bind (bind m f) k w = bind m (fun a => bind (f a) k) w.
Proof. unfold bind. now destruct (m w) as [[a| e | c |] w1]. Qed.

Lemma begins_nil {A} (m : M A) w : grows m -> begins_at w [] m.
Proof. intros H. exact (H w). Qed.

Lemma begins_bind {A B} (m : M A) (f : A -> M B) w es :
  begins_at w es m -> (forall a, grows (f a)) -> begins_at w es (bind m f).
Proof.
  intros (tl & E) Hf. unfold begins_at, bind.
  destruct (m w) as [[a| e | c |] w1]; cbn [snd] in *; eauto.
  destruct (Hf a w1) as (tl' & E'). exists (tl ++ tl').
  now rewrite E', E, <- !app_assoc.
Qed.

Lemma begins_try {A} (m : M A) (h : jstring -> M A) w es :
  begins_at w es m -> (forall e, grows (h e)) -> begins_at w es (try_catch m h).
Proof.
  intros (tl & E) Hh. unfold begins_at, try_catch.
  destruct (m w) as [[a| e | c |] w1]; cbn [snd] in *; eauto.
  destruct (Hh e w1) as (tl' & E'). exists (tl ++ tl').
  now rewrite E', E, <- !app_assoc.
Qed.

Lemma begins_step {A B} (m : M A) (f : A -> M B) w a w1 es1 es2 :
  m w = (Returned a, w1) -> trace w1 = trace w ++ es1 ->
  begins_at w1 es2 (f a) -> begins_at w (es1 ++ es2) (bind m f).
Proof.
  intros Hm Ht (tl & E). exists tl. unfold bind. rewrite Hm, E, Ht.
  now rewrite <- !app_assoc.
Qed.

Lemma begins_log {A} l message (k : M A) w es :
  begins_at (snd (log l message w)) es k ->
  begins_at w (Logged l message :: es) (log l message ;; k).
Proof.
  intros H. change (Logged l message :: es) with ([Logged l message] ++ es).
  eapply (begins_step _ _ w tt); [reflexivity|reflexivity|exact H].
Qed.

(** A command is in the trace before anything else happens. *)
Lemma begins_execSync {A} command (k : jstring -> M A) w :
  (forall out, grows (k out)) ->
  begins_at w [Exec command] (bind (execSync command) k).
Proof.
  intros Hk. unfold begins_at, execSync. rewrite bind_assoc.
  unfold bind at 1, emit. cbv beta iota.
  match goal with
  | |- context [bind ?m k ?w1] =>
      assert (H : grows (bind m k)) by grow; destruct (H w1) as (tl & E)
  end.
  exists tl. rewrite E. cbn [trace]. now rewrite <- app_assoc.
Qed.

Lemma begins_execSync_alone command w : begins_at w [Exec command] (execSync command).
Proof.
  unfold execSync. rewrite <- (app_nil_r [Exec command]).
  eapply (begins_step _ _ w tt); [reflexivity|reflexivity|].
  apply begins_nil. grow.
Qed.

(** The two commands that change the index, when the shell reports
    success. *)
Lemma execSync_add_here w out rest :
  script w = Prints out :: rest ->
  execSync (str "git add .") w
  = (Returned out,
     {| git := stage_here (git w); files := files w; env := env w;
        script := rest; trace := trace w ++ [Exec (str "git add .")] |}).
Proof. destruct w as [g fs e sc tr]. cbn. intros ->. reflexivity. Qed.

Lemma commit_message_of_quoted message flag :
  plain_message message = true ->
  flag = [] \/ flag = str " --no-verify" ->
  commit_message_of (str "git commit -m " ++ [DQ] ++ message ++ [DQ] ++ flag)
  = Some message.
Proof.
  intros Hp Hf. unfold commit_message_of.
  rewrite (proj2 (JSFacts.strip_spec (str "git commit -m " ++ [DQ]) _
                    (message ++ [DQ] ++ flag)))
    by now rewrite <- !app_assoc.
  cbv zeta.
  destruct (JSFacts.take_while_app shell_plain message ([DQ] ++ flag) Hp eq_refl)
    as [-> ->].
  destruct Hf as [-> | ->]; reflexivity.
Qed.

Lemma git_effect_commit command message w :
  is_add_here command = false -> is_add_all command = false ->
  is_commit command = true ->
  commit_message_of command = Some message ->
  blank_message message = false ->
  staged (git w) <> [] ->
  git_effect command w
  = (Returned tt,
     {| git := after_commit (git w); files := files w; env := env w;
        script := script w;
        trace := trace w ++ [Committed (staged (git w))
                               (unstaged (git w) ++ untracked (git w))] |}).
Proof.
  intros H1 H2 H3 H4 H5 H6. unfold git_effect, bind, get_git.
  rewrite H1, H2, H3, H4, H5.
  destruct (staged (git w)) as [|f fs] eqn:E; [congruence|]. reflexivity.
Qed.

End IOFacts.

(** ** workflows/commit-workflow.ts *)

Module CommitFacts.
Import JS IO IOFacts Commit.

Create HintDb ht.

Section Workflow.

(** The invariants of interest let every log line, every request and every
    prompt but the staging prompt through, and every command but a force
    push. *)
Variable G : git_state -> Prop.
Variable P : event -> Prop.

Hypothesis G_stage_here : forall g, G g -> G (stage_here g).
Hypothesis G_stage_all : forall g, G g -> G (stage_all g).
Hypothesis G_after_commit : forall g, G g -> G (after_commit g).
Hypothesis P_Committed :
  forall g, G g -> staged g <> [] ->
  P (Committed (staged g) (unstaged g ++ untracked g)).
Hypothesis P_Logged : forall l message, P (Logged l message).
Hypothesis P_Called : forall s, P (Called s).
Hypothesis P_Asked : forall q, q <> staged_question -> P (Asked q).
Hypothesis P_Exec : forall c, (forall b, c <> force_push_command b) -> P (Exec c).

Local Abbreviation ht := (IO.ht G P).

Ltac side :=
  first
    [ exact I
    | apply P_Logged
    | apply P_Called
    | apply P_Asked; discriminate
    | apply P_Exec; let b := fresh "b" in let H := fresh "H" in
      intros b H; cbn in H; discriminate H ].

Ltac leaf :=
  first
    [ apply ht_ret; exact I
    | apply ht_throw
    | apply ht_exit
    | apply ht_block
    | apply ht_log; side
    | apply (ht_execSync G P G_stage_here G_stage_all G_after_commit P_Committed); side
    | apply ht_confirm; side
    | apply ht_select; side
    | apply ht_ask_text; side
    | apply ht_request; side
    | apply ht_getConfig; exact P_Logged
    | apply (ht_runCommandCaptureOrThrow G P G_stage_here G_stage_all G_after_commit P_Committed);
      [side|exact P_Logged]
    | apply (ht_runCommandWithOutput G P G_stage_here G_stage_all G_after_commit P_Committed);
      [side|exact P_Logged] ].

Ltac step :=
  lazymatch goal with
  | |- IO.ht _ _ (bind _ _) _ => apply ht_seq; [|intros ?]
  | |- IO.ht _ _ (try_catch _ _) _ => apply ht_try; [|intros ?]
  | |- IO.ht _ _ (if ?c then _ else _) _ => destruct c eqn:?
  | |- IO.ht _ _ (match ?x with _ => _ end) _ => destruct x eqn:?
  | |- IO.ht _ _ (let _ := _ in _) _ => cbv zeta
  end.

Ltac run := repeat first [ solve [eauto with ht] | leaf | step ].

Lemma ht_getGitStatus :
  ht getGitStatus (fun status => exists g, G g /\ status = status_of g).
Proof.
  unfold getGitStatus. apply ht_try.
  - apply ht_seq; [leaf|intros ?]. apply ht_seq; [leaf|intros ?].
    apply ht_seq; [leaf|intros ?].
    apply ht_bind with (Q := G); [apply ht_get_git|].
    intros g Hg. apply ht_ret. eauto.
  - intros ?. apply ht_seq; [leaf|intros ?]. apply ht_exit.
Qed.

Lemma ht_log_each l prefix paths : ht (log_each l prefix paths) any.
Proof. induction paths as [|f tl IH]; cbn [log_each]; run. Qed.
#[local] Hint Resolve ht_log_each : ht.

Lemma ht_displayGitStatus status : ht (displayGitStatus status) any.
Proof. unfold displayGitStatus. run. Qed.
#[local] Hint Resolve ht_displayGitStatus : ht.

Lemma ht_getCurrentBranch : ht getCurrentBranch any.
Proof. unfold getCurrentBranch. run. Qed.
#[local] Hint Resolve ht_getCurrentBranch : ht.

Lemma ht_fetchLinearLabels : ht fetchLinearLabels any.
Proof. unfold fetchLinearLabels. run. Qed.
#[local] Hint Resolve ht_fetchLinearLabels : ht.

Lemma ht_confirmLinearMetadata c : ht (confirmLinearMetadata c) any.
Proof. unfold confirmLinearMetadata. run. Qed.
#[local] Hint Resolve ht_confirmLinearMetadata : ht.

Lemma ht_createLinearIssue t d k o : ht (createLinearIssue t d k o) any.
Proof. unfold createLinearIssue. run. Qed.
#[local] Hint Resolve ht_createLinearIssue : ht.

Lemma ht_renameBranchToLinearPattern n c :
  ht (renameBranchToLinearPattern n c) any.
Proof. unfold renameBranchToLinearPattern. run. Qed.
#[local] Hint Resolve ht_renameBranchToLinearPattern : ht.

Lemma ht_getAI : ht AI.getAI any.
Proof. unfold AI.getAI. run. Qed.
#[local] Hint Resolve ht_getAI : ht.

Lemma ht_OutputSchema_parse {A} (schema : json -> option A) r :
  ht (AI.OutputSchema_parse schema r) any.
Proof. unfold AI.OutputSchema_parse. run. Qed.
#[local] Hint Resolve ht_OutputSchema_parse : ht.

Lemma ht_generate {A} (schema : json -> option A) what failed :
  ht (AI.generate schema what failed) any.
Proof. unfold AI.generate. run. Qed.
#[local] Hint Resolve ht_generate : ht.

Lemma ht_generateCommitMessage d : ht (AI.generateCommitMessage d) any.
Proof. unfold AI.generateCommitMessage. run. Qed.
#[local] Hint Resolve ht_generateCommitMessage : ht.

Lemma ht_generateLinearContent d : ht (AI.generateLinearContent d) any.
Proof. unfold AI.generateLinearContent. run. Qed.
#[local] Hint Resolve ht_generateLinearContent : ht.

Lemma ht_explainError e : ht (AI.explainError e) any.
Proof. unfold AI.explainError. run. Qed.
#[local] Hint Resolve ht_explainError : ht.

Lemma ht_pull_then_push b : ht (pull_then_push b) any.
Proof. unfold pull_then_push. run. Qed.
#[local] Hint Resolve ht_pull_then_push : ht.

Lemma ht_rebase_then_push b : ht (rebase_then_push b) any.
Proof. unfold rebase_then_push. run. Qed.
#[local] Hint Resolve ht_rebase_then_push : ht.

Lemma ht_commit_and_push on_push_failure message :
  (forall branch error, ht (on_push_failure branch error) any) ->
  ht (commit_and_push on_push_failure message) any.
Proof. intros H. unfold commit_and_push. run. Qed.

Lemma ht_create_issue_steps b hint : ht (create_issue_steps b hint) any.
Proof. unfold create_issue_steps. run. Qed.
#[local] Hint Resolve ht_create_issue_steps : ht.

Lemma ht_message_loop processCommit :
  (forall message, ht (processCommit message) any) ->
  forall rounds c, ht (message_loop processCommit rounds c) any.
Proof.
  intros H. induction rounds as [|n IH]; intros c; cbn [message_loop]; run.
Qed.

Lemma ht_Named_on_push_failure branch error :
  (forall b, P (Exec (force_push_command b))) ->
  ht (Named.on_push_failure branch error) any.
Proof.
  intros HF. unfold Named.on_push_failure.
  repeat first
    [ solve [eauto with ht]
    | apply (ht_execSync G P G_stage_here G_stage_all G_after_commit P_Committed); apply HF
    | leaf | step ].
Qed.

Lemma ht_Named_processCommit message :
  (forall b, P (Exec (force_push_command b))) ->
  ht (Named.processCommit message) any.
Proof.
  intros HF. unfold Named.processCommit.
  apply ht_seq; [leaf|intros ?]. apply ht_try; [|intros ?; run].
  apply ht_commit_and_push. intros. now apply ht_Named_on_push_failure.
Qed.

Lemma ht_refuse_force_push b hint : ht (Guarded.refuse_force_push b hint) any.
Proof. unfold Guarded.refuse_force_push. run. Qed.
#[local] Hint Resolve ht_refuse_force_push : ht.

Lemma ht_Guarded_on_push_failure branch error :
  (forall b, Git.isProtectedBranch b = false -> P (Exec (force_push_command b))) ->
  ht (Guarded.on_push_failure branch error) any.
Proof.
  intros HF. unfold Guarded.on_push_failure.
  repeat first
    [ solve [eauto with ht]
    | apply (ht_execSync G P G_stage_here G_stage_all G_after_commit P_Committed);
      apply HF; assumption
    | leaf | step ].
Qed.

Lemma ht_on_hook_failure message error_message :
  ht (Guarded.on_hook_failure message error_message) any.
Proof. unfold Guarded.on_hook_failure. run. Qed.

Lemma ht_Guarded_processCommit message :
  (forall b, Git.isProtectedBranch b = false -> P (Exec (force_push_command b))) ->
  ht (Guarded.processCommit message) any.
Proof.
  intros HF. unfold Guarded.processCommit.
  apply ht_seq; [leaf|intros ?]. apply ht_try.
  - apply ht_commit_and_push. intros. now apply ht_Guarded_on_push_failure.
  - intros e. destruct (Guarded.isHookFailure e); [apply ht_on_hook_failure|run].
Qed.

Lemma ht_isLinearEnabled : ht Guarded.isLinearEnabled any.
Proof. unfold Guarded.isLinearEnabled. run. Qed.

Lemma ht_getGitStatus_any : ht getGitStatus any.
Proof. eapply ht_weaken; [apply ht_getGitStatus|intros; exact I]. Qed.
#[local] Hint Resolve ht_getGitStatus_any : ht.

(** [commitWorkflow] from the branch name on. *)
Ltac after_status processCommit Hpc Hgate :=
  apply ht_seq; [apply ht_getCurrentBranch|intros ?current_branch];
  cbv zeta; apply ht_seq; [exact Hgate|intros ?linear_enabled];
  apply ht_seq; [run|intros ?];
  apply ht_seq; [run|intros ?];
  let generated := fresh "generated" in
  let c := fresh "c" in
  apply ht_seq; [apply ht_generateCommitMessage|intros generated];
  destruct generated as [c|];
  [ apply (ht_with_script G P (fun n => message_loop processCommit n c));
    intros ?; now apply ht_message_loop
  | run ].

(** After a [git add .] that left nothing modified and nothing untracked the
    staging prompt is out of reach: such a state is clean or has staged
    files. *)
Lemma ht_after_staging processCommit linear_gate hint :
  (forall g, G g -> unstaged g = [] /\ untracked g = []) ->
  (forall message, ht (processCommit message) any) ->
  ht linear_gate any ->
  ht (after_staging processCommit linear_gate hint) any.
Proof.
  intros Hclean Hpc Hgate. unfold after_staging.
  apply ht_bind with (Q := fun status => exists g, G g /\ status = status_of g);
    [apply ht_getGitStatus|].
  intros status (g & Hg & ->). destruct (Hclean g Hg) as [Hu Ht].
  cbn [status_of staged unstaged untracked]. rewrite Hu, Ht.
  cbn [filter map].
  destruct (staged g) as [|f fs].
  - run.
  - apply ht_seq; [apply ht_displayGitStatus|intros ?].
    apply ht_seq; [run|intros ?].
    after_status processCommit Hpc Hgate.
Qed.

(** Where the staging prompt is allowed, [commitWorkflow] keeps the
    invariant from any state. *)
Lemma ht_after_staging_asked processCommit linear_gate hint :
  P (Asked staged_question) ->
  (forall message, ht (processCommit message) any) ->
  ht linear_gate any ->
  ht (after_staging processCommit linear_gate hint) any.
Proof.
  intros Hask Hpc Hgate. unfold after_staging.
  apply ht_seq; [apply ht_getGitStatus_any|intros status].
  assert (Hstage :
    ht (should_stage <- confirm staged_question ;;
        if should_stage then
          log Start (str "Staging all changes...") ;;
          try_catch
            (execSync (str "git add -A") ;;
             log Success (str "All changes staged!") ;;
             getGitStatus ;;
             ret tt)
            (fun _ => log Failure (str "Failed to stage changes") ;; process_exit 1)
        else
          log Warning (str "Please stage your changes first.") ;; process_exit 0)
       any).
  { apply ht_seq; [apply ht_confirm; exact Hask|intros should_stage].
    destruct should_stage; run. }
  destruct (staged status) as [|f fs];
    destruct (unstaged status) as [|u us];
    destruct (untracked status) as [|t ts];
    try solve [run];
    (apply ht_seq; [apply ht_displayGitStatus|intros ?];
     apply ht_seq; [first [exact Hstage|run]|intros ?];
     after_status processCommit Hpc Hgate).
Qed.

End Workflow.

Lemma all_staged_stage_here all g :
  all_staged all g -> all_staged all (stage_here g).
Proof.
  intros (Hu & Ht & Hs). unfold all_staged, stage_here. simpl.
  rewrite Hu, Ht. simpl. rewrite app_nil_r. auto.
Qed.

Lemma all_staged_stage_all all g : all_staged all g -> all_staged all (stage_all g).
Proof.
  intros (Hu & Ht & Hs). unfold all_staged, stage_all. simpl.
  rewrite Hu, Ht, app_nil_r. auto.
Qed.

Lemma all_staged_after_commit all g :
  all_staged all g -> all_staged all (after_commit g).
Proof. intros (Hu & Ht & Hs). unfold all_staged, after_commit. simpl. auto. Qed.

Lemma filter_all {A} (p : A -> bool) l :
  (forall x, In x l -> p x = true) ->
  filter p l = l /\ filter (fun x => negb (p x)) l = [].
Proof.
  induction l as [|a l IH]; intros H; [split; reflexivity|]. simpl.
  rewrite (H a (or_introl eq_refl)). simpl.
  destruct IH as [-> ->]; [intros x Hx; apply H; now right|]. split; reflexivity.
Qed.

(** With every change under the directory of the process, [git add .]
    stages everything. *)
Lemma stage_here_all g :
  all_under_cwd g ->
  staged (stage_here g) = all_changes g /\
  unstaged (stage_here g) = [] /\ untracked (stage_here g) = [].
Proof.
  intros H. unfold stage_here, all_changes, outside_cwd. simpl.
  destruct (filter_all (under_cwd g) (unstaged g)) as [-> ->].
  { intros p Hp. apply H, in_or_app. now left. }
  destruct (filter_all (under_cwd g) (untracked g)) as [-> ->].
  { intros p Hp. apply H, in_or_app. now right. }
  auto.
Qed.

Lemma all_staged_first g :
  all_under_cwd g -> all_staged (all_changes g) (stage_here g).
Proof.
  intros H. destruct (stage_here_all g H) as (Hs & Hu & Ht).
  unfold all_staged. auto.
Qed.

(** [commitWorkflow] keeps an invariant of the events: its first command is
    [git add .], and the invariant of the states must hold after it. *)
Lemma commitWorkflow_of_keeps (G : git_state -> Prop) (P : event -> Prop)
  processCommit linear_gate hint w :
  G (stage_here (git w)) ->
  (forall g, G g -> G (stage_here g)) ->
  (forall g, G g -> G (stage_all g)) ->
  (forall g, G g -> G (after_commit g)) ->
  (forall g, G g -> staged g <> [] ->
     P (Committed (staged g) (unstaged g ++ untracked g))) ->
  (forall l message, P (Logged l message)) ->
  (forall s, P (Called s)) ->
  (forall q, q <> staged_question -> P (Asked q)) ->
  (forall c, (forall b, c <> force_push_command b) -> P (Exec c)) ->
  (P (Asked staged_question) \/
   forall g, G g -> unstaged g = [] /\ untracked g = []) ->
  (forall message, IO.ht G P (processCommit message) any) ->
  IO.ht G P linear_gate any ->
  Forall P (trace w) ->
  Forall P (trace (snd (commitWorkflow_of processCommit linear_gate hint w))).
Proof.
  intros Hfirst Gh Ga Gc HCm HL HC HA HE Hprompt Hpc Hgate Htr.
  assert (Hadd : P (Exec (str "git add ."))).
  { apply HE. intros b H. cbn in H. discriminate H. }
  assert (Hafter : IO.ht G P (after_staging processCommit linear_gate hint) any).
  { destruct Hprompt as [Hask|Hclean].
    - now apply ht_after_staging_asked.
    - now apply ht_after_staging. }
  assert (Htr' : Forall P (trace w ++ [Exec (str "git add .")])).
  { apply Forall_app. split; [assumption|]. now constructor. }
  unfold commitWorkflow_of, bind at 1, execSync, bind at 1, emit.
  unfold bind at 1, next_reply. cbn [script trace git files env].
  destruct (script w) as [|r rest]; [exact Htr'|].
  destruct r; try exact Htr'.
  unfold bind at 1, git_effect, bind at 1, get_git.
  cbn [script trace git files env].
  change (is_add_here (str "git add .")) with true. cbv iota. unfold put_git, ret.
  match goal with
  | |- context [after_staging _ _ _ ?w1] =>
      specialize (Hafter w1); destruct (after_staging processCommit linear_gate hint w1)
        as [[a| e | c |] w2]
  end; cbn [snd]; apply Hafter; (split; [exact Hfirst|exact Htr']).
Qed.

(** *** The force push of a protected branch *)

Lemma force_push_command_inj b b' :
  force_push_command b = force_push_command b' -> b = b'.
Proof. unfold force_push_command. apply app_inv_head. Qed.

Lemma no_protected_force_other c :
  (forall b, c <> force_push_command b) -> no_protected_force (Exec c).
Proof. intros H b Hb. now apply H in Hb. Qed.

Lemma no_protected_force_unprotected b :
  Git.isProtectedBranch b = false -> no_protected_force (Exec (force_push_command b)).
Proof. intros H b' Hb. apply force_push_command_inj in Hb. now subst. Qed.

(** The guarded revision never hands a force push of a protected branch to
    the shell: not in [processCommit], and so nowhere in [commitWorkflow]. *)
Lemma Guarded_processCommit_ht G message :
  (forall g, G g -> G (stage_here g)) ->
  (forall g, G g -> G (stage_all g)) -> (forall g, G g -> G (after_commit g)) ->
  IO.ht G no_protected_force (Guarded.processCommit message) any.
Proof.
  intros H0 H1 H2.
  apply ht_Guarded_processCommit; try assumption; try exact (fun _ => I);
    try (intros; exact I).
  - apply no_protected_force_other.
  - apply no_protected_force_unprotected.
Qed.

Lemma Guarded_processCommit_never_forces_protected message w :
  Forall no_protected_force (trace w) ->
  Forall no_protected_force (trace (snd (Guarded.processCommit message w))).
Proof.
  intros Ht.
  pose proof (Guarded_processCommit_ht (fun _ => True) message
                (fun _ _ => I) (fun _ _ => I) (fun _ _ => I) w (conj I Ht)) as H.
  destruct (Guarded.processCommit message w) as [[a| e | c |] w']; apply H.
Qed.

Lemma Guarded_commitWorkflow_never_forces_protected w :
  Forall no_protected_force (trace w) ->
  Forall no_protected_force (trace (snd (Guarded.commitWorkflow w))).
Proof.
  intros Ht. unfold Guarded.commitWorkflow.
  apply (commitWorkflow_of_keeps (fun _ => True)); try assumption;
    try (intros; exact I).
  - apply no_protected_force_other.
  - left. exact I.
  - intros message. apply Guarded_processCommit_ht; intros; exact I.
  - apply ht_isLinearEnabled; try (intros; exact I).
Qed.

(** In the guarded revision a rejected push of a protected branch answered
    with "force" is refused and reported, and the run ends there. *)
Lemma Guarded_force_push_blocked_and_reported
  message g fs e out1 out2 branch_out error rest :
  plain_message message = true -> blank_message message = false ->
  staged (stage_here g) <> [] ->
  Git.isProtectedBranch (trim branch_out) = true ->
  includes (String_of_error error) (str "non-fast-forward")
  || includes (String_of_error error) (str "rejected") = true ->
  let '(o, w) :=
    Guarded.processCommit message
      (start g fs e
         (Prints out1 :: Prints out2 :: Prints branch_out :: Confirms true ::
          Fails error :: Selects (str "force") :: rest)) in
  o = Returned tt /\ script w = rest /\
  In (Logged Failure (blocked_message (trim branch_out))) (trace w) /\
  ~ In (Exec (force_push_command (trim branch_out))) (trace w).
Proof.
  intros Hplain Hblank Hall Hprot Hrej. cbn -[includes String_of_error] in Hrej.
  destruct (JSFacts.take_while_app shell_plain message [DQ] Hplain eq_refl)
    as [E1 E2].
  unfold Guarded.processCommit, commit_and_push, Guarded.on_push_failure,
    Guarded.refuse_force_push, start, log, execSync, confirm, select, git_effect,
    bind, try_catch, emit, next_reply, get_git, put_git, ret, throw.
  cbn -[includes trim Git.isProtectedBranch String_of_error
        Guarded.isHookFailure Guarded.on_hook_failure
        take_while drop_while shell_plain blank_message stage_here DQ].
  unfold commit_message_of.
  cbn -[includes trim Git.isProtectedBranch String_of_error
        Guarded.isHookFailure Guarded.on_hook_failure
        take_while drop_while shell_plain blank_message stage_here DQ].
  change (is_char DQ DQ) with true. cbv iota. rewrite E1, E2.
  cbn -[includes trim Git.isProtectedBranch String_of_error
        Guarded.isHookFailure Guarded.on_hook_failure
        take_while drop_while shell_plain blank_message stage_here].
  rewrite Hblank.
  destruct (staged (stage_here g)) as [|f fs0] eqn:Eall; [congruence|].
  cbn -[includes trim Git.isProtectedBranch String_of_error
        Guarded.isHookFailure Guarded.on_hook_failure stage_here].
  rewrite Hrej.
  cbn -[includes trim Git.isProtectedBranch String_of_error
        Guarded.isHookFailure Guarded.on_hook_failure].
  rewrite Hprot.
  cbn -[includes trim Git.isProtectedBranch String_of_error].
  repeat split.
  - tauto.
  - intros H.
    repeat match goal with
           | H : _ \/ _ |- _ => destruct H as [H|H]
           | H : False |- _ => destruct H
           | H : _ = _ |- _ => discriminate H
           end.
Qed.

(** C1 at the failing input.  The file that is named
    [workflows/commit-workflow.ts] has no guard: a rejected push of [main]
    answered with "force" runs [git push --force origin main], and nothing
    is reported. *)
Theorem Named_processCommit_force_pushes_protected :
  let '(o, w) := run_processCommit Named.processCommit one_change rejected_then_force in
  o = Returned tt /\
  Git.isProtectedBranch (str "main") = true /\
  In (Exec (force_push_command (str "main"))) (trace w) /\
  ~ In (Logged Failure (blocked_message (str "main"))) (trace w).
Proof.
  vm_compute. repeat split.
  - do 12 right. left. reflexivity.
  - intros H.
    repeat (destruct H as [H|H]; [discriminate H|]). exact H.
Qed.

(** The same script in the guarded revision. *)
Example Guarded_processCommit_blocks_main :
  let '(o, w) := run_processCommit Guarded.processCommit one_change rejected_then_force in
  o = Returned tt /\
  ~ In (Exec (force_push_command (str "main"))) (trace w) /\
  In (Logged Failure (blocked_message (str "main"))) (trace w).
Proof.
  vm_compute. repeat split.
  - intros H.
    repeat (destruct H as [H|H]; [discriminate H|]). exact H.
  - do 12 right. left. reflexivity.
Qed.

(** *** Staging *)

(** *** The workflows only add events *)

Lemma grows_getGitStatus : grows getGitStatus.
Proof. unfold getGitStatus. grow. Qed.

Lemma grows_log_each l prefix paths : grows (log_each l prefix paths).
Proof. induction paths as [|f tl IH]; cbn [log_each]; grow. Qed.

#[local] Hint Resolve grows_getGitStatus grows_log_each : grows.

Lemma grows_displayGitStatus status : grows (displayGitStatus status).
Proof. unfold displayGitStatus. grow. Qed.

Lemma grows_getCurrentBranch : grows getCurrentBranch.
Proof. unfold getCurrentBranch. grow. Qed.

Lemma grows_fetchLinearLabels : grows fetchLinearLabels.
Proof. unfold fetchLinearLabels. grow. Qed.

#[local] Hint Resolve grows_displayGitStatus grows_getCurrentBranch
  grows_fetchLinearLabels : grows.

Lemma grows_confirmLinearMetadata c : grows (confirmLinearMetadata c).
Proof. unfold confirmLinearMetadata. grow. Qed.

Lemma grows_createLinearIssue t d k o : grows (createLinearIssue t d k o).
Proof. unfold createLinearIssue. grow. Qed.

Lemma grows_renameBranchToLinearPattern n c :
  grows (renameBranchToLinearPattern n c).
Proof. unfold renameBranchToLinearPattern. grow. Qed.

Lemma grows_getAI : grows AI.getAI.
Proof. unfold AI.getAI. grow. Qed.

Lemma grows_OutputSchema_parse {A} (schema : json -> option A) r :
  grows (AI.OutputSchema_parse schema r).
Proof. unfold AI.OutputSchema_parse. grow. Qed.

#[local] Hint Resolve grows_confirmLinearMetadata grows_createLinearIssue
  grows_renameBranchToLinearPattern grows_getAI grows_OutputSchema_parse : grows.

Lemma grows_generate {A} (schema : json -> option A) what failed :
  grows (AI.generate schema what failed).
Proof. unfold AI.generate. grow. Qed.
#[local] Hint Resolve grows_generate : grows.

Lemma grows_generateCommitMessage d : grows (AI.generateCommitMessage d).
Proof. unfold AI.generateCommitMessage. grow. Qed.

Lemma grows_generateLinearContent d : grows (AI.generateLinearContent d).
Proof. unfold AI.generateLinearContent. grow. Qed.

Lemma grows_explainError e : grows (AI.explainError e).
Proof. unfold AI.explainError. grow. Qed.

Lemma grows_pull_then_push b : grows (pull_then_push b).
Proof. unfold pull_then_push. grow. Qed.

Lemma grows_rebase_then_push b : grows (rebase_then_push b).
Proof. unfold rebase_then_push. grow. Qed.

#[local] Hint Resolve grows_generateCommitMessage grows_generateLinearContent
  grows_explainError grows_pull_then_push grows_rebase_then_push : grows.

Lemma grows_create_issue_steps b hint : grows (create_issue_steps b hint).
Proof. unfold create_issue_steps. grow. Qed.

Lemma grows_refuse_force_push b hint : grows (Guarded.refuse_force_push b hint).
Proof. unfold Guarded.refuse_force_push. grow. Qed.

Lemma grows_isLinearEnabled : grows Guarded.isLinearEnabled.
Proof. unfold Guarded.isLinearEnabled. grow. Qed.

#[local] Hint Resolve grows_create_issue_steps grows_refuse_force_push
  grows_isLinearEnabled : grows.

Lemma grows_Named_on_push_failure branch error :
  grows (Named.on_push_failure branch error).
Proof. unfold Named.on_push_failure. grow. Qed.

Lemma grows_Guarded_on_push_failure branch error :
  grows (Guarded.on_push_failure branch error).
Proof. unfold Guarded.on_push_failure. grow. Qed.

Lemma grows_on_hook_failure message error_message :
  grows (Guarded.on_hook_failure message error_message).
Proof. unfold Guarded.on_hook_failure. grow. Qed.

#[local] Hint Resolve grows_Named_on_push_failure grows_Guarded_on_push_failure
  grows_on_hook_failure : grows.

(** [commit_and_push] after its two commands. *)
Lemma grows_after_commit on_push_failure :
  (forall branch error, grows (on_push_failure branch error)) ->
  grows (log Success (str "Changes committed successfully!") ;;
         out <- execSync (str "git branch --show-current") ;;
         let branch := trim out in
         log Info (str "Current branch: " ++ branch) ;;
         should_push <- confirm (str "Push to origin?") ;;
         if should_push then
           log Start (str "Pushing to origin/" ++ branch ++ str "...") ;;
           try_catch
             (execSync (push_command branch) ;;
              log Success (str "Changes pushed successfully!"))
             (fun error => on_push_failure branch error)
         else ret tt).
Proof. intros H. grow. Qed.

Lemma grows_commit_and_push on_push_failure message :
  (forall branch error, grows (on_push_failure branch error)) ->
  grows (commit_and_push on_push_failure message).
Proof. intros H. unfold commit_and_push. grow. Qed.

Lemma grows_Named_processCommit message : grows (Named.processCommit message).
Proof.
  unfold Named.processCommit. apply grows_bind; [grow|intros _].
  apply grows_try; [|intros ?; grow].
  apply grows_commit_and_push. intros. apply grows_Named_on_push_failure.
Qed.

Lemma grows_Guarded_processCommit message : grows (Guarded.processCommit message).
Proof.
  unfold Guarded.processCommit. apply grows_bind; [grow|intros _].
  apply grows_try; [|intros ?; grow].
  apply grows_commit_and_push. intros. apply grows_Guarded_on_push_failure.
Qed.

Lemma grows_message_loop processCommit :
  (forall message, grows (processCommit message)) ->
  forall rounds c, grows (message_loop processCommit rounds c).
Proof.
  intros H. induction rounds as [|n IH]; intros c; cbn [message_loop]; grow.
Qed.

Lemma grows_after_staging processCommit linear_gate hint :
  (forall message, grows (processCommit message)) ->
  grows linear_gate ->
  grows (after_staging processCommit linear_gate hint).
Proof.
  intros Hpc Hgate. unfold after_staging.
  apply grows_bind; [grow|intros status].
  assert (Hloop : forall c,
            grows (fun w => message_loop processCommit (S (length (script w))) c w)).
  { intros c. apply (grows_with_script (fun n => message_loop processCommit n c)).
    intros n. now apply grows_message_loop. }
  destruct (staged status); destruct (unstaged status);
    destruct (untracked status); grow.
Qed.

(** *** [git add .] comes first *)

Lemma commitWorkflow_of_stages_before_status processCommit linear_gate hint :
  (forall message, grows (processCommit message)) ->
  grows linear_gate ->
  stages_before_status (commitWorkflow_of processCommit linear_gate hint).
Proof.
  intros Hpc Hgate w.
  assert (Hafter : grows (after_staging processCommit linear_gate hint))
    by now apply grows_after_staging.
  split.
  - unfold commitWorkflow_of. apply begins_execSync. intros _. exact Hafter.
  - intros out rest Hs. unfold commitWorkflow_of.
    change [Exec (str "git add ."); Exec (str "git diff --cached --name-only")]
      with ([Exec (str "git add .")]
            ++ [Exec (str "git diff --cached --name-only")]).
    eapply begins_step; [exact (execSync_add_here w out rest Hs)|reflexivity|].
    unfold after_staging. apply begins_bind; [|intros status].
    + unfold getGitStatus. apply begins_try; [|intros ?; grow].
      apply begins_bind; [|intros ?; grow].
      unfold runCommandCaptureOrThrow. apply begins_try; [|intros ?; grow].
      apply begins_execSync. intros ?. grow.
    + assert (Hloop : forall c,
                grows (fun w => message_loop processCommit (S (length (script w))) c w)).
      { intros c.
        apply (grows_with_script (fun n => message_loop processCommit n c)).
        intros n. now apply grows_message_loop. }
      destruct (staged status); destruct (unstaged status);
        destruct (untracked status); grow.
Qed.

Lemma is_commit_command message flag :
  is_add_here (commit_command message ++ flag) = false /\
  is_add_all (commit_command message ++ flag) = false /\
  is_commit (commit_command message ++ flag) = true.
Proof.
  unfold is_add_here, is_add_all, is_commit, commit_command.
  repeat split.
Qed.

(** A commit that the shell reports as done. *)
Lemma execSync_commit message w out rest :
  script w = Prints out :: rest ->
  plain_message message = true -> blank_message message = false ->
  staged (git w) <> [] ->
  execSync (commit_command message) w
  = (Returned out,
     {| git := after_commit (git w); files := files w; env := env w;
        script := rest;
        trace := trace w ++ [Exec (commit_command message);
                             Committed (staged (git w))
                               (unstaged (git w) ++ untracked (git w))] |}).
Proof.
  intros Hs Hp Hb Hst.
  destruct (is_commit_command message []) as (H1 & H2 & H3).
  rewrite app_nil_r in H1, H2, H3.
  assert (H4 : commit_message_of (commit_command message) = Some message).
  { pose proof (commit_message_of_quoted message [] Hp (or_introl eq_refl)) as H.
    rewrite app_nil_r in H. exact H. }
  unfold execSync, bind at 1, emit. unfold bind at 1, next_reply.
  cbn [script git files env trace]. rewrite Hs.
  unfold bind at 1.
  rewrite (git_effect_commit _ message _ H1 H2 H3 H4 Hb) by exact Hst.
  cbn [git trace files env script ret]. rewrite <- app_assoc. reflexivity.
Qed.

Lemma processCommit_stages_before_commit on_push_failure
  (processCommit : jstring -> M unit) (h : jstring -> jstring -> M unit) :
  (forall message,
     processCommit message
     = (log Start (str "Committing changes...") ;;
        try_catch (commit_and_push on_push_failure message) (h message))) ->
  (forall branch error, grows (on_push_failure branch error)) ->
  (forall message error, grows (h message error)) ->
  stages_before_commit processCommit.
Proof.
  intros Hdef Hpush Hh message w. rewrite Hdef. split.
  - apply begins_log. apply begins_try; [|intros ?; apply Hh].
    unfold commit_and_push. apply begins_execSync. intros _.
    apply grows_bind; [grow|intros _]. now apply grows_after_commit.
  - intros out1 out2 rest Hs Hp Hb Hst.
    apply begins_log. apply begins_try; [|intros ?; apply Hh].
    unfold commit_and_push.
    match goal with
    | |- begins_at _ [?a; ?c; ?d] _ => change [a; c; d] with ([a] ++ ([c; d] ++ []))
    end.
    eapply begins_step;
      [apply (execSync_add_here _ out1 (Prints out2 :: rest)); exact Hs
      |reflexivity|].
    eapply begins_step;
      [apply (execSync_commit message _ out2 rest);
       [reflexivity|exact Hp|exact Hb|exact Hst]
      |reflexivity|].
    apply begins_nil. now apply grows_after_commit.
Qed.

Lemma stages_everything_ht_hyps all :
  (forall l message, stages_everything all (Logged l message)) /\
  (forall s, stages_everything all (Called s)) /\
  (forall q, q <> staged_question -> stages_everything all (Asked q)) /\
  (forall c, stages_everything all (Exec c)) /\
  (forall g, all_staged all g -> staged g <> [] ->
     stages_everything all (Committed (staged g) (unstaged g ++ untracked g))).
Proof.
  split; [intros; exact I|]. split; [intros; exact I|].
  split; [intros q Hq; exact Hq|]. split; [intros; exact I|].
  intros g (Hu & Ht & Hs) Hne. cbn [stages_everything]. rewrite Hu, Ht.
  destruct Hs as [Hs|Hs]; [auto|congruence].
Qed.

Lemma commitWorkflow_of_commits_everything
  processCommit linear_gate hint g fs e replies :
  (forall all message,
     IO.ht (all_staged all) (stages_everything all) (processCommit message) any) ->
  (forall all, IO.ht (all_staged all) (stages_everything all) linear_gate any) ->
  all_under_cwd g ->
  commits_everything (commitWorkflow_of processCommit linear_gate hint)
    g fs e replies.
Proof.
  intros Hpc Hgate Hunder. unfold commits_everything. cbv zeta.
  destruct (stages_everything_ht_hyps (all_changes g))
    as (HL & HC & HA & HE & HCm).
  assert (H : Forall (stages_everything (all_changes g))
                (trace (snd (commitWorkflow_of processCommit linear_gate hint
                               (start g fs e replies))))).
  { apply (commitWorkflow_of_keeps (all_staged (all_changes g))
             (stages_everything (all_changes g)));
      [ now apply all_staged_first
      | apply all_staged_stage_here
      | apply all_staged_stage_all
      | apply all_staged_after_commit
      | exact HCm | exact HL | exact HC | exact HA
      | intros c _; apply HE
      | right; intros g' (Hu & Ht & _); auto
      | intros message; apply Hpc
      | apply Hgate
      | constructor ]. }
  rewrite Forall_forall in H. split.
  - intros Hin. apply H in Hin. now apply Hin.
  - intros files left_out Hin. exact (H _ Hin).
Qed.




(** A run that commits: one modified file, nothing staged beforehand. *)
Example commitWorkflow_commits_the_unstaged_file :
  let w := snd (Named.commitWorkflow
                  (start one_change Config.no_files (fun _ => None)
                     manual_commit_replies)) in
  In (Committed [str "src/cli.ts"] []) (trace w).
Proof. vm_compute. repeat first [left; reflexivity | right]. Qed.

End CommitFacts.

(** ** workflows/ai.ts *)

Module AIFacts.
Import JS JSFacts IO AI.

(** *** What the schemas accept *)

Lemma required_string_length lo hi v s :
  required_string lo hi v = Some s ->
  lo <= length s /\ match hi with Some h => length s <= h | None => True end.
Proof.
  unfold required_string. destruct v as [[| | |s'| |]|]; try discriminate.
  destruct (lo <=? length s') eqn:E1; [|discriminate].
  destruct hi as [h|]; simpl.
  - destruct (length s' <=? h) eqn:E2; [|discriminate]. intros [= <-].
    split; [now apply Nat.leb_le|now apply Nat.leb_le].
  - intros [= <-]. split; [now apply Nat.leb_le|exact I].
Qed.

Lemma commit_message_schema_valid j c :
  commit_message_schema j = Some c -> valid_commit_message c.
Proof.
  unfold commit_message_schema. destruct j as [| | | | |fields]; try discriminate.
  destruct (required_string 0 None _) as [t|]; [|discriminate].
  destruct (optional_string _) as [sc|]; [|discriminate].
  destruct (required_string 1 None _) as [d|] eqn:Ed; [|discriminate].
  destruct (existsb (jstring_eqb t) commit_type) eqn:Et; [|discriminate].
  intros [= <-]. split; simpl.
  - apply existsb_exists in Et as (x & Hx & Heq).
    apply jstring_eqb_eq in Heq. now subst.
  - now apply required_string_length in Ed.
Qed.

Lemma pr_content_schema_valid j c :
  pr_content_schema j = Some c -> valid_pr_content c.
Proof.
  unfold pr_content_schema. destruct j as [| | | | |fields]; try discriminate.
  destruct (required_string 1 (Some 72) _) as [t|] eqn:Et; [|discriminate].
  destruct (required_string 1 None _) as [d|] eqn:Ed; [|discriminate].
  destruct (optional_string _) as [lc|]; [|discriminate].
  intros [= <-]. split; simpl.
  - now apply required_string_length in Et.
  - now apply required_string_length in Ed.
Qed.

(** *** The [try] of the generators *)

Lemma generate_returns_or_null {A} (schema : json -> option A) what failed w :
  returns_or_null (fun c => exists j, schema j = Some c)
    (fst (generate schema what failed w)).
Proof.
  unfold generate, getAI, OutputSchema_parse, request, log, IO.getConfig,
    try_catch, bind, emit, next_reply, ret, throw.
  destruct w as [g fs e scr tr]. cbn [git files env script trace].
  destruct (Config.getConfig fs e) as [config warnings].
  cbn [git files env script trace fst].
  destruct (config Config.googleAiKey) as [[[|k ks]|b]|]; cbn; try exact I.
  destruct scr as [|r1 rest]; cbn; [exact I|].
  destruct r1 as [err|out|b|v|t|[raw|j]]; cbn;
    try (destruct rest as [|r2 rest2]; cbn; [exact I|];
         destruct r2 as [err2|out2|b2|v2|t2|[raw2|j2]]; cbn; try exact I;
         destruct (schema j2) eqn:E2; cbn; eauto; exact I).
  destruct (schema j) eqn:E; cbn; [eauto|].
  destruct rest as [|r2 rest2]; cbn; [exact I|].
  destruct r2 as [err2|out2|b2|v2|t2|[raw2|j2]]; cbn; try exact I.
  destruct (schema j2) eqn:E2; cbn; eauto.
Qed.

Lemma returns_or_null_weaken {A} (Q Q' : A -> Prop) r :
  (forall c, Q c -> Q' c) -> returns_or_null Q r -> returns_or_null Q' r.
Proof. intros H. destruct r as [[c|]| | |]; simpl; auto. Qed.

(** Once the commands that gather the context have succeeded, the
    generators return a value that satisfies the schema, or [null]. *)
Lemma generateCommitMessage_after_context user_description g fs e out1 out2 rest :
  returns_or_null valid_commit_message
    (fst (generateCommitMessage user_description
            (start g fs e (Prints out1 :: Prints out2 :: rest)))).
Proof.
  unfold generateCommitMessage, start, log, execSync, git_effect, bind, emit,
    next_reply, get_git, put_git, ret.
  cbn -[generate].
  eapply returns_or_null_weaken; [|apply generate_returns_or_null].
  intros c (j & Hj). exact (commit_message_schema_valid _ _ Hj).
Qed.

Lemma generatePRContent_after_context
  current_branch base_branch user_description g fs e out1 out2 out3 out4 rest :
  returns_or_null valid_pr_content
    (fst (generatePRContent current_branch base_branch user_description
            (start g fs e
               (Prints out1 :: Prints out2 :: Prints out3 :: Prints out4 :: rest)))).
Proof.
  unfold generatePRContent, start, log, execSync, git_effect, bind, emit,
    next_reply, get_git, put_git, ret.
  cbn -[generate trim].
  eapply returns_or_null_weaken; [|apply generate_returns_or_null].
  intros c (j & Hj). exact (pr_content_schema_valid _ _ Hj).
Qed.

(** The sibling that gathers its context inside the [try] never throws. *)
Lemma generateLinearUpdateComment_context_never_throws w :
  match fst (generateLinearUpdateComment_context w) with
  | Thrown _ | Exited _ => False
  | _ => True
  end.
Proof.
  unfold generateLinearUpdateComment_context, log, execSync, git_effect,
    try_catch, bind, emit, next_reply, get_git, put_git, ret, throw, block.
  destruct w as [g fs e scr tr]. cbn.
  destruct scr as [|r1 rest]; cbn; [exact I|].
  destruct r1; cbn; try exact I.
  destruct rest as [|r2 rest2]; cbn; [exact I|].
  destruct r2; cbn; exact I.
Qed.

(** C2 at the failing input.  When a command that gathers the context
    fails, the exception leaves the generator: the [execSync] calls stand
    before the [try]. *)
Theorem generators_throw_when_context_fails
  (g : git_state) (fs : Config.filesystem) (e : Config.environment)
  (error : jstring) (rest : list reply) :
  (forall user_description,
     fst (generateCommitMessage user_description (start g fs e (Fails error :: rest)))
     = Thrown error) /\
  (forall current_branch base_branch user_description,
     fst (generatePRContent current_branch base_branch user_description
            (start g fs e (Fails error :: rest)))
     = Thrown error).
Proof. split; reflexivity. Qed.

(** Outside a repository, with the key configured. *)
Example generateCommitMessage_outside_a_repository :
  fst (generateCommitMessage []
         (start clean_tree Config.no_files key_in_env
            [Fails (str "fatal: not a git repository")]))
  = Thrown (str "fatal: not a git repository").
Proof. reflexivity. Qed.

End AIFacts.

(** ** Facts about the types of branches *)

Module BranchesFacts.
Import JS JSFacts Git Branches.

(** X1.  The protected branches are the branches whose type is their own
    name: main, develop and staging. *)
Theorem isProtectedBranch_iff_branch_type (branch : jstring) :
  isProtectedBranch branch = true <->
  (getBranchType branch = TMain \/ getBranchType branch = TDevelop \/
   getBranchType branch = TStaging).
Proof.
  unfold isProtectedBranch, PROTECTED_BRANCHES, getBranchType. cbn [existsb].
  destruct (jstring_eqb branch (str "main")); [cbn; tauto|].
  destruct (jstring_eqb branch (str "develop")); [cbn; tauto|].
  destruct (jstring_eqb branch (str "staging")); [cbn; tauto|].
  cbn [orb].
  destruct (starts_with (str "feature/") branch);
    [split; [discriminate|intros [H|[H|H]]; discriminate]|].
  destruct (starts_with (str "release/") branch);
    [split; [discriminate|intros [H|[H|H]]; discriminate]|].
  destruct (starts_with (str "hotfix/") branch);
    split; try discriminate; intros [H|[H|H]]; discriminate.
Qed.

(** X2.  The base branch of every branch is a protected branch, and it is
    develop exactly for the branches whose name starts with feature/. *)
Theorem getBaseBranchFor_getBranchType (branch : jstring) :
  isProtectedBranch (getBaseBranchFor (getBranchType branch)) = true /\
  (getBaseBranchFor (getBranchType branch) = str "develop" <->
   starts_with (str "feature/") branch = true).
Proof.
  split; [now destruct (getBranchType branch)|].
  unfold getBranchType.
  destruct (jstring_eqb branch (str "main")) eqn:E1.
  { apply jstring_eqb_eq in E1. subst branch. split; discriminate. }
  destruct (jstring_eqb branch (str "develop")) eqn:E2.
  { apply jstring_eqb_eq in E2. subst branch. split; discriminate. }
  destruct (jstring_eqb branch (str "staging")) eqn:E3.
  { apply jstring_eqb_eq in E3. subst branch. split; discriminate. }
  destruct (starts_with (str "feature/") branch); [split; reflexivity|].
  destruct (starts_with (str "release/") branch); [split; discriminate|].
  destruct (starts_with (str "hotfix/") branch); split; discriminate.
Qed.

End BranchesFacts.

(** ** Facts about the Linear helpers: round trips and shapes *)

Module LinearShapes.
Import JS JSFacts Linear LinearFacts.

(** The search moves past a prefix inside which no match starts. *)
Lemma exec_from_skip r : forall pre s p,
  (forall pre1 c pre2, pre = pre1 ++ c :: pre2 ->
     match_here r (p + length pre1) (c :: pre2 ++ s) = None) ->
  exec_from r p (pre ++ s) = exec_from r (p + length pre) s.
Proof.
  induction pre as [|c pre IH]; intros s p H.
  - simpl. now rewrite Nat.add_0_r.
  - cbn [app exec_from].
    pose proof (H [] c pre eq_refl) as H0. cbn [length] in H0.
    rewrite Nat.add_0_r in H0. cbn [app] in H0. rewrite H0.
    rewrite IH.
    + f_equal. cbn [length]. lia.
    + intros pre1 c' pre2 E. specialize (H (c :: pre1) c' pre2).
      cbn [app length] in H.
      replace (S p + length pre1) with (p + S (length pre1)) by lia.
      apply H. now rewrite E.
Qed.

Lemma match_here_linear_not_slash p c t :
  Ascii.eqb c "/" = false -> match_here linear_pattern p (c :: t) = None.
Proof.
  intros Hc. pose proof (match_here_linear p (c :: t)) as H.
  cbn [issue_here] in H. rewrite Hc in H.
  now destruct (match_here linear_pattern p (c :: t)).
Qed.

(** An identifier right after the first slash is the one detected. *)
Lemma detectLinearIssue_first_slash u l d post :
  forallb (not_char "/") u = true ->
  l <> [] -> forallb is_letter l = true ->
  d <> [] -> forallb is_digit d = true ->
  detectLinearIssue (u ++ str "/" ++ l ++ str "-" ++ d ++ str "-" ++ post)
  = Some (toUpperCase (l ++ str "-" ++ d)).
Proof.
  intros Hu Hl0 Hl Hd0 Hd. rewrite detect_exec. unfold exec.
  rewrite exec_from_skip.
  2:{ intros pre1 c pre2 E. apply match_here_linear_not_slash.
      rewrite E, forallb_app in Hu. apply andb_prop in Hu as [_ Hu].
      cbn [forallb] in Hu. apply andb_prop in Hu as [Hc _].
      unfold not_char in Hc. now apply negb_true_iff in Hc. }
  assert (Hh : issue_here (str "/" ++ l ++ str "-" ++ d ++ str "-" ++ post)
               = Some (l ++ str "-" ++ d)).
  { apply issue_here_occurrence. exists l, d, post. split; [|reflexivity].
    unfold issue_occurrence. auto. }
  destruct (match_here_linear_some (0 + length u) _ _ Hh) as (st & Hst & Hcap).
  destruct (str "/" ++ l ++ str "-" ++ d ++ str "-" ++ post) eqn:E;
    [discriminate|].
  cbn [exec_from]. rewrite Hst. now rewrite Hcap.
Qed.

Lemma upper_lower_char c : upper_char (lower_char c) = upper_char c.
Proof. destruct c as [[] [] [] [] [] [] [] []]; reflexivity. Qed.

Lemma lower_char_letter c : is_letter c = true -> is_letter (lower_char c) = true.
Proof. destruct c as [[] [] [] [] [] [] [] []]; intros H; try discriminate H; reflexivity. Qed.

Lemma lower_char_digit c : is_digit c = true -> lower_char c = c.
Proof. destruct c as [[] [] [] [] [] [] [] []]; intros H; try discriminate H; reflexivity. Qed.

Lemma upper_char_letter c : is_letter c = true -> is_upper (upper_char c) = true.
Proof. destruct c as [[] [] [] [] [] [] [] []]; intros H; try discriminate H; reflexivity. Qed.

Lemma upper_char_digit c : is_digit c = true -> upper_char c = c.
Proof. destruct c as [[] [] [] [] [] [] [] []]; intros H; try discriminate H; reflexivity. Qed.

Lemma toUpperCase_toLowerCase s : toUpperCase (toLowerCase s) = toUpperCase s.
Proof.
  unfold toUpperCase, toLowerCase. rewrite map_map.
  apply map_ext. apply upper_lower_char.
Qed.

Lemma toLowerCase_letters l :
  forallb is_letter l = true -> forallb is_letter (toLowerCase l) = true.
Proof.
  induction l as [|c l IH]; [reflexivity|]. cbn [forallb toLowerCase map].
  intros H. apply andb_prop in H as [Hc Hl].
  rewrite (lower_char_letter _ Hc). now apply IH.
Qed.

Lemma toLowerCase_digits d : forallb is_digit d = true -> toLowerCase d = d.
Proof.
  induction d as [|c d IH]; [reflexivity|]. cbn [forallb toLowerCase map].
  intros H. apply andb_prop in H as [Hc Hd].
  rewrite (lower_char_digit _ Hc). f_equal. now apply IH.
Qed.

Lemma toUpperCase_letters l :
  forallb is_letter l = true -> forallb is_upper (toUpperCase l) = true.
Proof.
  induction l as [|c l IH]; [reflexivity|]. cbn [forallb toUpperCase map].
  intros H. apply andb_prop in H as [Hc Hl].
  rewrite (upper_char_letter _ Hc). now apply IH.
Qed.

Lemma toUpperCase_digits d : forallb is_digit d = true -> toUpperCase d = d.
Proof.
  induction d as [|c d IH]; [reflexivity|]. cbn [forallb toUpperCase map].
  intros H. apply andb_prop in H as [Hc Hd].
  rewrite (upper_char_digit _ Hc). f_equal. now apply IH.
Qed.

Lemma author_no_slash b :
  let author := if has_slash b
                then match before_first_slash b with
                     | [] => str "feature"
                     | a => a
                     end
                else str "feature" in
  author <> [] /\ forallb (not_char "/") author = true.
Proof.
  cbv zeta. destruct (has_slash b); [|split; [discriminate|reflexivity]].
  unfold before_first_slash.
  pose proof (take_while_all (not_char "/") b) as H.
  destruct (take_while (not_char "/") b); [split; [discriminate|reflexivity]|].
  split; [discriminate|exact H].
Qed.

(** X3.  The branch name made for an issue identifier of the form letters,
    dash, digits is one on which [detectLinearIssue] finds that identifier,
    in upper case, whatever the branch it was made from. *)
Theorem detectLinearIssue_generateLinearBranchName
  (issue_identifier current_branch l d : jstring) :
  issue_identifier = l ++ str "-" ++ d ->
  l <> [] -> forallb is_letter l = true ->
  d <> [] -> forallb is_digit d = true ->
  detectLinearIssue (generateLinearBranchName issue_identifier current_branch)
  = Some (toUpperCase issue_identifier) /\
  hasLinearPattern (generateLinearBranchName issue_identifier current_branch)
  = true.
Proof.
  intros -> Hl0 Hl Hd0 Hd.
  assert (E : detectLinearIssue
                (generateLinearBranchName (l ++ str "-" ++ d) current_branch)
              = Some (toUpperCase (l ++ str "-" ++ d))).
  { rewrite generateLinearBranchName_eq. unfold branch_name_with_defaults.
    destruct (author_no_slash current_branch) as [_ Ha]. cbv zeta in Ha.
    unfold toLowerCase at 1. rewrite map_app. fold (toLowerCase l).
    change (map lower_char (str "-" ++ d)) with (str "-" ++ toLowerCase d).
    rewrite (toLowerCase_digits _ Hd), <- !app_assoc.
    rewrite detectLinearIssue_first_slash; auto.
    - f_equal. unfold toUpperCase. rewrite !map_app.
      fold (toUpperCase (toLowerCase l)). now rewrite toUpperCase_toLowerCase.
    - destruct l; [congruence|discriminate].
    - now apply toLowerCase_letters. }
  split; [exact E|]. unfold hasLinearPattern. now rewrite E.
Qed.

Lemma detectLinearIssue_generateLinearBranchName_witness :
  detectLinearIssue (generateLinearBranchName (str "DEV-444") (str "aaron/quick-fix"))
  = Some (toUpperCase (str "DEV-444")) /\
  hasLinearPattern (generateLinearBranchName (str "DEV-444") (str "aaron/quick-fix"))
  = true.
Proof.
  apply (detectLinearIssue_generateLinearBranchName
           (str "DEV-444") (str "aaron/quick-fix") (str "DEV") (str "444"));
    try reflexivity; discriminate.
Defined.

(** X4.  An identifier that [detectLinearIssue] returns is made of upper-case
    letters, a dash and digits. *)
Theorem detectLinearIssue_shape (branch id : jstring) :
  detectLinearIssue branch = Some id ->
  exists l d, id = l ++ str "-" ++ d /\
    l <> [] /\ forallb is_upper l = true /\
    d <> [] /\ forallb is_digit d = true.
Proof.
  rewrite detect_exec. unfold exec.
  destruct (exec_from linear_pattern 0 branch) as [[i st]|] eqn:E; [|discriminate].
  apply exec_from_some in E as (pre & suf & Hb & Hi & Hm & _).
  apply match_here_linear_inv in Hm as (id0 & Hid & Hcap).
  apply issue_here_occurrence in Hid as (l & d & post & Hocc & ->).
  destruct Hocc as (_ & Hl0 & Hl & Hd0 & Hd).
  rewrite Hcap. cbn [option_map]. intros [= <-].
  exists (toUpperCase l), d. repeat split.
  - unfold toUpperCase at 1. rewrite map_app. fold (toUpperCase l). f_equal.
    cbn [map app str list_ascii_of_string]. f_equal.
    exact (toUpperCase_digits _ Hd).
  - destruct l; [congruence|discriminate].
  - now apply toUpperCase_letters.
  - assumption.
  - assumption.
Qed.

Lemma detectLinearIssue_shape_witness :
  exists l d, str "EV-456" = l ++ str "-" ++ d /\
    l <> [] /\ forallb is_upper l = true /\
    d <> [] /\ forallb is_digit d = true.
Proof.
  apply (detectLinearIssue_shape (str "user/EV-456-description") (str "EV-456")).
  reflexivity.
Defined.

(** X5.  [cleanTitleForLinear] removes one leading conventional-commit
    prefix, and nothing else; a title that has no such prefix comes back
    unchanged. *)
Theorem cleanTitleForLinear_removes_one_prefix (pr_title : jstring) :
  (has_conventional_prefix pr_title /\
   exists pfx, conventional_prefix pfx /\
               pr_title = pfx ++ cleanTitleForLinear pr_title) \/
  (~ has_conventional_prefix pr_title /\ cleanTitleForLinear pr_title = pr_title).
Proof.
  rewrite cleanTitleForLinear_eq.
  destruct (match_here conventional_pattern 0 pr_title) as [r|] eqn:E.
  - left. apply match_here_conventional_inv in E as (pfx & Hp & Hs).
    split; [now exists pfx, (rest r)|]. now exists pfx.
  - right. split; [|reflexivity].
    intros (pfx & tl & -> & Hp).
    now apply (match_here_conventional_complete pfx tl).
Qed.

(** *** The cleaned description of [generateLinearBranchName] *)

Lemma forallb_drop_while (q p : ascii -> bool) s :
  forallb q s = true -> forallb q (drop_while p s) = true.
Proof.
  induction s as [|c t IH]; [reflexivity|]. cbn [drop_while].
  destruct (p c); [|auto]. cbn [forallb]. intros H.
  apply andb_prop in H as [_ H]. auto.
Qed.

Lemma collapse_runs_chars : forall d r,
  forallb (fun c => is_alnum c || is_dash c) (collapse_runs r d) = true.
Proof.
  induction d as [|c t IH]; intros r; [reflexivity|]. cbn [collapse_runs].
  destruct (is_alnum c) eqn:E.
  - cbn [forallb]. now rewrite E, IH.
  - destruct r; [apply IH|]. cbn [forallb]. rewrite IH.
    reflexivity.
Qed.

Lemma sparse_drop_while_suffix p s :
  sparse s = true -> sparse (drop_while p s) = true.
Proof.
  induction s as [|c t IH]; [reflexivity|]. intros H. cbn [drop_while].
  destruct (p c); [|exact H]. apply IH. exact (sparse_tail _ _ H).
Qed.

Lemma sparse_app_l : forall a b, sparse (a ++ b) = true -> sparse a = true.
Proof.
  induction a as [|c a IH]; intros b H; [reflexivity|].
  cbn [app] in H. pose proof (IH b (sparse_tail _ _ H)) as Ha.
  cbn [sparse]. destruct a as [|c' a']; [reflexivity|].
  cbn [app sparse] in H. apply andb_prop in H as [H _]. now rewrite H, Ha.
Qed.

(** Dropping a class at the right end leaves a prefix. *)
Lemma trim_right_prefix p x :
  rev (drop_while p (rev x)) ++ rev (take_while p (rev x)) = x.
Proof.
  rewrite <- rev_app_distr, take_drop_while. apply rev_involutive.
Qed.

Lemma trim_hyphens_shape (q : ascii -> bool) s :
  forallb q s = true ->
  sparse s = true ->
  forallb q (trim_hyphens s) = true /\
  sparse (trim_hyphens s) = true /\
  starts_with_dash (trim_hyphens s) = false /\
  starts_with_dash (rev (trim_hyphens s)) = false.
Proof.
  intros Hc Hs. unfold trim_hyphens.
  set (x := drop_while is_dash s).
  assert (Hxc : forallb q x = true)
    by now apply forallb_drop_while.
  assert (Hxs : sparse x = true) by now apply sparse_drop_while_suffix.
  assert (Hxh : starts_with_dash x = false).
  { unfold x. destruct (drop_while is_dash s) as [|c t] eqn:E; [reflexivity|].
    exact (drop_while_head _ _ _ _ E). }
  pose proof (trim_right_prefix is_dash x) as Hp.
  set (y := rev (drop_while is_dash (rev x))) in *.
  repeat split.
  - rewrite <- Hp, forallb_app in Hxc. now apply andb_prop in Hxc.
  - rewrite <- Hp in Hxs. exact (sparse_app_l _ _ Hxs).
  - destruct y as [|c t]; [reflexivity|]. rewrite <- Hp in Hxh. exact Hxh.
  - unfold y. rewrite rev_involutive.
    destruct (drop_while is_dash (rev x)) as [|c t] eqn:E; [reflexivity|].
    exact (drop_while_head _ _ _ _ E).
Qed.

(** X6.  The branch name [generateLinearBranchName] builds has an author
    segment that is not empty and holds no slash, then the identifier in
    lower case, then a description made of letters, digits and single
    hyphens that neither starts nor ends with a hyphen. *)
Theorem generateLinearBranchName_well_formed
  (issue_identifier current_branch : jstring) :
  exists author description,
    generateLinearBranchName issue_identifier current_branch
    = author ++ str "/" ++ toLowerCase issue_identifier ++ str "-" ++ description /\
    author <> [] /\ forallb (not_char "/") author = true /\
    forallb (fun c => is_alnum c || is_dash c) description = true /\
    sparse description = true /\
    starts_with_dash description = false /\
    starts_with_dash (rev description) = false.
Proof.
  rewrite generateLinearBranchName_eq. unfold branch_name_with_defaults.
  destruct (author_no_slash current_branch) as [Ha0 Ha]. cbv zeta in Ha0, Ha.
  eexists _, _. split; [reflexivity|].
  split; [exact Ha0|]. split; [exact Ha|].
  unfold clean_description_spec.
  apply (trim_hyphens_shape (fun c => is_alnum c || is_dash c)).
  - apply collapse_runs_chars.
  - apply collapse_sparse.
Qed.

End LinearShapes.

(** ** Facts about the queries of the configuration *)

Module ConfigQueriesFacts.
Import JS JSFacts Config ConfigFacts ConfigQueries.

Lemma parse_config_to_json c :
  well_typed c ->
  exists c', configSchema_parse (config_to_json c) = Some c' /\
             forall k, c' k = with_default c k.
Proof.
  intros Hc. unfold configSchema_parse.
  pose proof (json_get_config_to_json c) as Hg.
  destruct (config_to_json c) as [| | | | |fields] eqn:E; try discriminate E.
  rewrite !Hg.
  pose proof (Hc googleAiKey) as H1. pose proof (Hc githubToken) as H2.
  pose proof (Hc linearApiKey) as H3. pose proof (Hc linearEnabled) as H4.
  unfold with_default.
  destruct (c googleAiKey) as [[s1|b1]|] eqn:E1;
    [|specialize (H1 _ eq_refl); discriminate|];
  (destruct (c githubToken) as [[s2|b2]|] eqn:E2;
     [|specialize (H2 _ eq_refl); discriminate|]);
  (destruct (c linearApiKey) as [[s3|b3]|] eqn:E3;
     [|specialize (H3 _ eq_refl); discriminate|]);
  (destruct (c linearEnabled) as [[s4|b4]|] eqn:E4;
     [specialize (H4 _ eq_refl); discriminate| |]);
  cbn [option_map cvalue_to_json configSchema parse_field];
  eexists; (split; [reflexivity|]); intros [];
  rewrite ?E1, ?E2, ?E3, ?E4; reflexivity.
Qed.

Lemma with_default_set c k v : c k = Some v -> with_default c k = Some v.
Proof. unfold with_default. now intros ->. Qed.

Lemma parse_field_fits k v r cv :
  parse_field (configSchema k) v = Some r -> r = Some cv -> fits k cv = true.
Proof.
  unfold fits. destruct (configSchema k), v as [[]|]; simpl;
    try discriminate; intros [= <-] [= <-]; reflexivity.
Qed.

Lemma parse_well_typed j c : configSchema_parse j = Some c -> well_typed c.
Proof.
  unfold configSchema_parse. destruct j as [| | | | |fields]; try discriminate.
  destruct (parse_field _ (json_get (key_name googleAiKey) fields)) as [a|] eqn:Ea;
    [|discriminate].
  destruct (parse_field _ (json_get (key_name githubToken) fields)) as [b|] eqn:Eb;
    [|discriminate].
  destruct (parse_field _ (json_get (key_name linearApiKey) fields)) as [d|] eqn:Ed;
    [|discriminate].
  destruct (parse_field _ (json_get (key_name linearEnabled) fields)) as [e|] eqn:Ee;
    [|discriminate].
  intros [= <-] k v Hv. destruct k.
  - exact (parse_field_fits googleAiKey _ _ _ Ea Hv).
  - exact (parse_field_fits githubToken _ _ _ Eb Hv).
  - exact (parse_field_fits linearApiKey _ _ _ Ed Hv).
  - exact (parse_field_fits linearEnabled _ _ _ Ee Hv).
Qed.

Lemma read_or_empty_well_typed fs : well_typed (fst (read_or_empty fs)).
Proof.
  unfold read_or_empty, readConfigFile.
  destruct (file fs GlobalConfigPath) as [[raw|j]|]; cbn [fst];
    try (intros k v; discriminate).
  destruct (configSchema_parse j) as [c|] eqn:E; cbn [fst].
  - exact (parse_well_typed _ _ E).
  - intros k v; discriminate.
Qed.

Lemma set_key_well_typed key value c :
  fits key value = true -> well_typed c -> well_typed (set_key key (Some value) c).
Proof.
  intros Hv Hc k v. unfold set_key.
  destruct (key_eqb k key) eqn:E.
  - apply key_eqb_eq in E. subst k. now intros [= <-].
  - apply Hc.
Qed.

(** X7.  What [writeConfigFile] writes, [readConfigFile] reads back: the same
    values for the keys that are set, and the default of the schema for a
    [linearEnabled] that is not; there is no warning. *)
Theorem writeConfigFile_readConfigFile (fs : filesystem) (p : path) (c : Config) :
  writable fs p = true -> well_typed c ->
  let '(ok, fs', _) := writeConfigFile fs p c in
  ok = true /\
  exists c', readConfigFile fs' p = (Some c', []) /\
             forall k, c' k = with_default c k.
Proof.
  intros Hw Hc. unfold writeConfigFile. rewrite Hw. split; [reflexivity|].
  destruct (parse_config_to_json c Hc) as (c' & Hp & Hk).
  exists c'. split; [|exact Hk].
  unfold readConfigFile. cbn [file].
  replace (path_eqb p p) with true by now destruct p.
  now rewrite Hp.
Qed.

Lemma writeConfigFile_readConfigFile_witness :
  let '(ok, fs', _) := writeConfigFile no_files GlobalConfigPath sample_local_config in
  ok = true /\
  exists c', readConfigFile fs' GlobalConfigPath = (Some c', []) /\
             forall k, c' k = with_default sample_local_config k.
Proof.
  apply (writeConfigFile_readConfigFile no_files GlobalConfigPath sample_local_config).
  - reflexivity.
  - intros [] v; simpl; intros [= <-]; reflexivity.
Defined.

Lemma unusable_same_file fs fs' p :
  file fs' p = file fs p -> unusable fs p -> unusable fs' p.
Proof. unfold unusable. now intros ->. Qed.

(** X8.  A value set with [setConfigValue] is the value [getConfigValue] then
    returns for the key, whatever the global file held before, when the
    global file can be written and there is no usable project-local file. *)
Theorem setConfigValue_getConfigValue
  (fs : filesystem) (env : environment) (key : ConfigKey) (value : cvalue) :
  fits key value = true ->
  writable fs GlobalConfigPath = true ->
  unusable fs LocalConfigPath ->
  let '(ok, fs', _) := setConfigValue key value fs in
  ok = true /\ getConfigValue key fs' env = Some value.
Proof.
  intros Hv Hw Hl. pose proof (setConfigValue_run key value fs) as H.
  cbv zeta in H. unfold setConfigValue in *.
  pose proof (read_or_empty_well_typed fs) as Ht.
  destruct (read_or_empty fs) as [existing w]. cbn [fst] in *.
  rewrite (write_global _ _ Hw) in *. destruct H as (Hlocal & Hglobal & _).
  split; [reflexivity|].
  destruct (parse_config_to_json _ (set_key_well_typed key value existing Hv Ht))
    as (c' & Hp & Hk).
  unfold getConfigValue.
  rewrite (getConfig_global _ env c').
  - rewrite Hk. apply with_default_set. unfold set_key.
    now rewrite (proj2 (key_eqb_eq key key) eq_refl).
  - exact (unusable_same_file _ _ _ Hlocal Hl).
  - eexists. split; [exact (Hglobal eq_refl)|exact Hp].
Qed.

Lemma setConfigValue_getConfigValue_witness :
  let '(ok, fs', _) :=
    setConfigValue githubToken (VStr (str "ghp_token")) ill_typed_global in
  ok = true /\
  getConfigValue githubToken fs' sample_env = Some (VStr (str "ghp_token")).
Proof.
  apply (setConfigValue_getConfigValue ill_typed_global sample_env githubToken
           (VStr (str "ghp_token"))).
  - reflexivity.
  - reflexivity.
  - left. reflexivity.
Defined.

(** X9.  While the project-local file parses, [setConfigValue] changes
    nothing that [getConfig] returns: the value goes to the global file,
    which the local file shadows. *)
Theorem setConfigValue_shadowed
  (fs : filesystem) (env : environment) (key : ConfigKey) (value : cvalue)
  (c : Config) :
  parses_to fs LocalConfigPath c ->
  let '(_, fs', _) := setConfigValue key value fs in
  getConfig fs' env = (c, []) /\ getConfig fs env = (c, []).
Proof.
  intros Hc. pose proof (setConfigValue_run key value fs) as H. cbv zeta in H.
  destruct (setConfigValue key value fs) as [[ok fs'] w].
  destruct H as (Hlocal & _). split.
  - apply getConfig_local. destruct Hc as (j & Hf & Hp).
    exists j. split; [now rewrite Hlocal|exact Hp].
  - now apply getConfig_local.
Qed.

Lemma setConfigValue_shadowed_witness :
  let '(_, fs', _) :=
    setConfigValue googleAiKey (VStr (str "new-key")) sample_fs in
  getConfig fs' sample_env = (sample_local_config, []) /\
  getConfig sample_fs sample_env = (sample_local_config, []).
Proof.
  apply (setConfigValue_shadowed sample_fs sample_env googleAiKey
           (VStr (str "new-key")) sample_local_config).
  eexists. split; reflexivity.
Defined.

(** X10.  From the environment, [githubToken] is the value of [GITHUB_TOKEN]
    when that is set to a text that is not empty, else the value of
    [GH_TOKEN] when that is, else undefined. *)
Theorem getConfigFromEnv_githubToken (env : environment) :
  getConfigFromEnv env githubToken
  = match env_value env (str "GITHUB_TOKEN") with
    | Some v => Some (VStr v)
    | None =>
        match env_value env (str "GH_TOKEN") with
        | Some v => Some (VStr v)
        | None => None
        end
    end.
Proof.
  unfold getConfigFromEnv, env_value. cbn [ENV_TO_CONFIG fold_left].
  destruct (env (str "GOOGLE_AI_KEY")) as [[|? ?]|];
  destruct (env (str "GH_TOKEN")) as [[|? ?]|];
  destruct (env (str "GITHUB_TOKEN")) as [[|? ?]|];
  destruct (env (str "LINEAR_API_KEY")) as [[|? ?]|];
  destruct (env (str "LINEAR_ENABLED")) as [[|? ?]|];
  reflexivity.
Qed.

(** *** config/config-validation.ts *)

Lemma collect_missing_eq config :
  collect_missing config
  = (if is_blank (config googleAiKey) then [key_name googleAiKey] else [])
    ++ (if is_blank (config githubToken) then [key_name githubToken] else []).
Proof.
  unfold collect_missing. cbn [REQUIRED_CONFIG_KEYS fold_left].
  now destruct (is_blank (config googleAiKey)), (is_blank (config githubToken)).
Qed.

Lemma key_name_inj a b : key_name a = key_name b -> a = b.
Proof. destruct a, b; intros H; try reflexivity; vm_compute in H; discriminate H. Qed.

Lemma in_single_key (b : bool) k0 k :
  In (key_name k) (if b then [key_name k0] else []) <-> (k = k0 /\ b = true).
Proof.
  destruct b; cbn [In]; split.
  - intros [H|[]]. apply key_name_inj in H. auto.
  - intros [-> _]. auto.
  - intros [].
  - intros [_ H]. discriminate H.
Qed.

(** X11.  [validateRequiredConfig] holds exactly when [getMissingConfigKeys]
    is empty, and a key is reported missing exactly when it is a required
    key whose value is undefined, empty or blank. *)
Theorem validateRequiredConfig_getMissingConfigKeys
  (fs : filesystem) (env : environment) :
  (validateRequiredConfig fs env = true <-> getMissingConfigKeys fs env = []) /\
  (forall k, In (key_name k) (getMissingConfigKeys fs env) <->
             In k REQUIRED_CONFIG_KEYS /\
             is_blank (getConfigValue k fs env) = true).
Proof.
  unfold validateRequiredConfig, getMissingConfigKeys, getConfigValue.
  cbv zeta. set (config := fst (getConfig fs env)).
  rewrite collect_missing_eq. split.
  - destruct (is_blank (config googleAiKey)), (is_blank (config githubToken));
      cbn; split; congruence.
  - intros k. rewrite in_app_iff, !in_single_key.
    cbn [REQUIRED_CONFIG_KEYS In]. split.
    + intros [[-> H]|[-> H]]; auto.
    + intros [[<-|[<-|[]]] H]; auto.
Qed.

End ConfigQueriesFacts.

(** ** Facts about commands/config.ts *)

Module ConfigCommandsFacts.
Import JS JSFacts IO ConfigQueries ConfigQueriesFacts ConfigCommands LinearShapes.

(** *** The masked form *)

Lemma nth_error_repeat {A} (a : A) n i :
  nth_error (repeat a n) i = if i <? n then Some a else None.
Proof.
  revert i. induction n as [|n IH]; intros [|i]; cbn; try reflexivity.
  rewrite IH. reflexivity.
Qed.

(** X12.  The masked form of a secret of more than eight characters has the
    length of the secret, shows its first four and its last four characters
    in place, and has a star everywhere else. *)
Theorem mask_keeps_ends (value : jstring) (i : nat) :
  8 < length value ->
  length (mask value) = length value /\
  nth_error (mask value) i
  = if (4 <=? i) && (i <? length value - 4) then Some "*"%char
    else nth_error value i.
Proof.
  intros H. unfold mask.
  assert (E : (8 <? length value) = true) by (apply Nat.ltb_lt; lia).
  rewrite E. split.
  - rewrite !length_app, repeat_length, length_firstn, length_skipn. lia.
  - destruct (Nat.leb_spec 4 i) as [H4|H4]; cbn [andb].
    + rewrite nth_error_app2 by (rewrite length_firstn; lia).
      rewrite length_firstn. replace (Nat.min 4 (length value)) with 4 by lia.
      destruct (Nat.ltb_spec i (length value - 4)) as [Hi|Hi].
      * rewrite nth_error_app1 by (rewrite repeat_length; lia).
        rewrite nth_error_repeat.
        assert (E1 : (i - 4 <? length value - 8) = true) by (apply Nat.ltb_lt; lia).
        now rewrite E1.
      * rewrite nth_error_app2 by (rewrite repeat_length; lia).
        rewrite repeat_length, nth_error_skipn. f_equal. lia.
    + rewrite nth_error_app1 by (rewrite length_firstn; lia).
      rewrite nth_error_firstn.
      assert (E4 : (i <? 4) = true) by (apply Nat.ltb_lt; lia).
      now rewrite E4.
Qed.

Lemma mask_keeps_ends_witness :
  8 < length (str "sk-abcdefghij") /\
  length (mask (str "sk-abcdefghij")) = length (str "sk-abcdefghij") /\
  nth_error (mask (str "sk-abcdefghij")) 5
  = if (4 <=? 5) && (5 <? length (str "sk-abcdefghij") - 4) then Some "*"%char
    else nth_error (str "sk-abcdefghij") 5.
Proof.
  assert (H : 8 < length (str "sk-abcdefghij")) by (cbn; lia).
  split; [exact H|]. exact (mask_keeps_ends (str "sk-abcdefghij") 5 H).
Defined.

(** *** The commands *)

Lemma key_of_name_key_name k : key_of_name (Config.key_name k) = Some k.
Proof. now destruct k. Qed.

Lemma key_of_name_some key k : key_of_name key = Some k -> key = Config.key_name k.
Proof.
  unfold key_of_name. intros H. apply find_some in H as [_ H].
  symmetry. now apply jstring_eqb_eq.
Qed.

(** *** Writing through the commands *)

Lemma setConfigValue_ok key value w :
  Config.writable (files w) Config.GlobalConfigPath = true ->
  exists w',
    setConfigValue key value w = (Returned tt, w') /\
    git w' = git w /\ env w' = env w /\ script w' = script w /\
    Config.writable (files w') Config.GlobalConfigPath = true /\
    Config.file (files w') Config.LocalConfigPath
    = Config.file (files w) Config.LocalConfigPath /\
    Config.file (files w') Config.GlobalConfigPath
    = Some (JsonText (Config.config_to_json
              (Config.set_key key (Some value)
                 (fst (Config.read_or_empty (files w)))))).
Proof.
  intros Hw. unfold setConfigValue, Config.setConfigValue.
  destruct (Config.read_or_empty (files w)) as [existing lw]. cbn [fst].
  rewrite (ConfigFacts.write_global _ _ Hw).
  eexists. split; [reflexivity|]. cbn. repeat split. exact Hw.
Qed.

Lemma parsed_with_default j c k :
  Config.configSchema_parse j = Some c -> with_default c k = c k.
Proof.
  intros H. unfold with_default. destruct (c k) eqn:E; [reflexivity|].
  destruct k; try reflexivity. exfalso. revert H E.
  unfold Config.configSchema_parse. destruct j as [| | | | |fields]; try discriminate.
  destruct (Config.parse_field _ (json_get (Config.key_name Config.googleAiKey) fields));
    [|discriminate].
  destruct (Config.parse_field _ (json_get (Config.key_name Config.githubToken) fields));
    [|discriminate].
  destruct (Config.parse_field _ (json_get (Config.key_name Config.linearApiKey) fields));
    [|discriminate].
  destruct (json_get (Config.key_name Config.linearEnabled) fields) as [[]|];
    cbn; try discriminate; intros [= <-]; discriminate.
Qed.

(** After a write that fits the schema the global file parses, the key has
    its value, and the other keys have what was read before. *)
Lemma setConfigValue_parses key value w w' :
  fits key value = true ->
  Config.file (files w') Config.GlobalConfigPath
  = Some (JsonText (Config.config_to_json
            (Config.set_key key (Some value)
               (fst (Config.read_or_empty (files w)))))) ->
  exists c', Config.parses_to (files w') Config.GlobalConfigPath c' /\
    c' key = Some value /\
    forall c k, Config.parses_to (files w) Config.GlobalConfigPath c ->
                k <> key -> c' k = c k.
Proof.
  intros Hv Hf.
  destruct (parse_config_to_json _
              (set_key_well_typed key value _ Hv
                 (read_or_empty_well_typed (files w)))) as (c' & Hp & Hk).
  exists c'. split; [eexists; split; [exact Hf|exact Hp]|]. split.
  - rewrite Hk. apply with_default_set. unfold Config.set_key.
    now rewrite (proj2 (ConfigFacts.key_eqb_eq key key) eq_refl).
  - intros c k Hc Hne. rewrite Hk.
    rewrite (ConfigFacts.read_or_empty_parses _ _ Hc).
    unfold with_default, Config.set_key.
    rewrite (ConfigFacts.key_eqb_neq _ _ Hne).
    destruct Hc as (j & _ & Hj).
    exact (parsed_with_default j c k Hj).
Qed.

Lemma getConfig_run w :
  getConfig w
  = (Returned (fst (Config.getConfig (files w) (env w))),
     {| git := git w; files := files w; env := env w; script := script w;
        trace := trace w ++
                 map (fun _ => Logged Warning (str "Failed to read config file"))
                     (snd (Config.getConfig (files w) (env w))) |}).
Proof. unfold getConfig. now destruct (Config.getConfig (files w) (env w)). Qed.

(** X13.  [handleConfigSet] followed by [handleConfigGet] of the same key
    prints the value that was set, for each of the three text keys, when the
    value is not empty, the global file can be written and there is no
    usable project-local file. *)
Theorem handleConfigSet_handleConfigGet
  (key value : jstring) (k : Config.ConfigKey) (w : world) :
  key_of_name key = Some k -> k <> Config.linearEnabled -> value <> [] ->
  Config.writable (files w) Config.GlobalConfigPath = true ->
  Config.unusable (files w) Config.LocalConfigPath ->
  exists w1 w2 shown,
    handleConfigSet key value w = (Returned tt, w1) /\
    handleConfigGet key w1 = (Returned tt, w2) /\
    trace w2 = shown ++ [Logged Plain value] /\
    files w2 = files w1.
Proof.
  intros Hkey Hk Hv Hw Hl.
  destruct (setConfigValue_ok k (Config.VStr value) w Hw)
    as (w' & Hrun & _ & _ & _ & _ & Hlocal & Hglobal).
  assert (Hfit : fits k (Config.VStr value) = true) by (now destruct k).
  destruct (setConfigValue_parses k (Config.VStr value) w w' Hfit Hglobal)
    as (c' & Hp & Hck & _).
  unfold handleConfigSet, handleConfigGet. rewrite Hkey.
  unfold bind at 1. rewrite Hrun.
  eexists _, _, _. split; [reflexivity|].
  unfold bind at 1. rewrite getConfig_run. cbn [files env log emit].
  rewrite (ConfigFacts.getConfig_global (files w') (env w') c'
             (unusable_same_file _ _ _ Hlocal Hl) Hp).
  rewrite Hck. cbn [truthy]. destruct value as [|c v]; [congruence|].
  cbn. repeat split.
Qed.

Lemma handleConfigSet_handleConfigGet_witness :
  exists w1 w2 shown,
    handleConfigSet (str "githubToken") (str "ghp_token")
      (start AI.clean_tree Config.no_files Config.sample_env [])
    = (Returned tt, w1) /\
    handleConfigGet (str "githubToken") w1 = (Returned tt, w2) /\
    trace w2 = shown ++ [Logged Plain (str "ghp_token")] /\
    files w2 = files w1.
Proof.
  apply (handleConfigSet_handleConfigGet (str "githubToken") (str "ghp_token")
           Config.githubToken
           (start AI.clean_tree Config.no_files Config.sample_env [])).
  - reflexivity.
  - discriminate.
  - discriminate.
  - reflexivity.
  - left. reflexivity.
Defined.

Lemma parse_ill_typed_linearEnabled c s :
  c Config.linearEnabled = Some (Config.VStr s) ->
  Config.configSchema_parse (Config.config_to_json c) = None.
Proof.
  intros H. unfold Config.configSchema_parse.
  pose proof (ConfigFacts.json_get_config_to_json c) as Hg.
  destruct (Config.config_to_json c) as [| | | | |fields]; try reflexivity.
  rewrite !Hg, H. cbn [option_map Config.cvalue_to_json Config.configSchema].
  destruct (Config.parse_field _ _); [|reflexivity].
  destruct (Config.parse_field _ _); [|reflexivity].
  destruct (Config.parse_field _ _); reflexivity.
Qed.

(** X14.  [handleConfigSet] stores the text of the command line as a string
    under every key.  For [linearEnabled], whose schema is a boolean, the
    global file it writes does not parse any more: [readConfigFile] answers
    null for it, with a warning. *)
Theorem handleConfigSet_linearEnabled (value : jstring) (w : world) :
  Config.writable (files w) Config.GlobalConfigPath = true ->
  exists w1,
    handleConfigSet (str "linearEnabled") value w = (Returned tt, w1) /\
    Config.readConfigFile (files w1) Config.GlobalConfigPath
    = (None, [Config.Warn_read_failed Config.GlobalConfigPath]).
Proof.
  intros Hw.
  destruct (setConfigValue_ok Config.linearEnabled (Config.VStr value) w Hw)
    as (w' & Hrun & _ & _ & _ & _ & _ & Hglobal).
  unfold handleConfigSet.
  change (key_of_name (str "linearEnabled")) with (Some Config.linearEnabled).
  unfold bind at 1. rewrite Hrun. eexists. split; [reflexivity|].
  cbn [log emit files]. unfold Config.readConfigFile. rewrite Hglobal.
  now rewrite (parse_ill_typed_linearEnabled _ value).
Qed.

Lemma handleConfigSet_linearEnabled_witness :
  exists w1,
    handleConfigSet (str "linearEnabled") (str "false")
      (start AI.clean_tree Config.no_files Config.sample_env [])
    = (Returned tt, w1) /\
    Config.readConfigFile (files w1) Config.GlobalConfigPath
    = (None, [Config.Warn_read_failed Config.GlobalConfigPath]).
Proof.
  exact (handleConfigSet_linearEnabled (str "false")
           (start AI.clean_tree Config.no_files Config.sample_env []) eq_refl).
Defined.

(** *** [handleConfigInit] *)

Lemma drop_while_fixed p s :
  match s with [] => True | c :: _ => p c = false end -> drop_while p s = s.
Proof. destruct s as [|c t]; [reflexivity|]. cbn. now intros ->. Qed.

Lemma drop_while_head_ok p s :
  match drop_while p s with [] => True | c :: _ => p c = false end.
Proof.
  destruct (drop_while p s) as [|c t] eqn:E; [exact I|].
  exact (drop_while_head _ _ _ _ E).
Qed.

Lemma trim_idempotent s : trim (trim s) = trim s.
Proof.
  unfold trim. set (x := drop_while is_space s).
  pose proof (trim_right_prefix is_space x) as Hp.
  pose proof (drop_while_head_ok is_space s) as Hx. fold x in Hx.
  set (y := rev (drop_while is_space (rev x))) in *.
  assert (Hy : drop_while is_space y = y).
  { apply drop_while_fixed. destruct y as [|c t]; [exact I|].
    rewrite <- Hp in Hx. exact Hx. }
  rewrite Hy. unfold y at 1. rewrite rev_involutive.
  rewrite drop_while_fixed by apply drop_while_head_ok. reflexivity.
Qed.

Lemma not_blank_trim s : not_blank s = true -> not_blank (trim s) = true.
Proof. unfold not_blank. now rewrite trim_idempotent. Qed.

Lemma handleConfigList_files w :
  exists w', handleConfigList w = (Returned tt, w') /\
             files w' = files w /\ env w' = env w.
Proof.
  unfold handleConfigList. unfold bind at 1. rewrite getConfig_run.
  eexists. split; [reflexivity|]. split; reflexivity.
Qed.

(** The writes of [handleConfigInit], one after the other. *)
Lemma init_writes g h enable key w :
  Config.writable (files w) Config.GlobalConfigPath = true ->
  exists w',
    (setConfigValue Config.googleAiKey (Config.VStr g) ;;
     setConfigValue Config.githubToken (Config.VStr h) ;;
     setConfigValue Config.linearEnabled (Config.VBool enable) ;;
     match key with
     | Some key => setConfigValue Config.linearApiKey (Config.VStr key)
     | None => ret tt
     end) w = (Returned tt, w') /\
    env w' = env w /\
    Config.file (files w') Config.LocalConfigPath
    = Config.file (files w) Config.LocalConfigPath /\
    exists c, Config.parses_to (files w') Config.GlobalConfigPath c /\
      c Config.googleAiKey = Some (Config.VStr g) /\
      c Config.githubToken = Some (Config.VStr h) /\
      c Config.linearEnabled = Some (Config.VBool enable).
Proof.
  intros Hw.
  destruct (setConfigValue_ok Config.googleAiKey (Config.VStr g) w Hw)
    as (w1 & R1 & _ & E1 & _ & W1 & L1 & G1).
  destruct (setConfigValue_parses Config.googleAiKey (Config.VStr g) w w1 eq_refl G1) as (c1 & P1 & K1 & _).
  destruct (setConfigValue_ok Config.githubToken (Config.VStr h) w1 W1)
    as (w2 & R2 & _ & E2 & _ & W2 & L2 & G2).
  destruct (setConfigValue_parses Config.githubToken (Config.VStr h) w1 w2 eq_refl G2) as (c2 & P2 & K2 & F2).
  destruct (setConfigValue_ok Config.linearEnabled (Config.VBool enable) w2 W2)
    as (w3 & R3 & _ & E3 & _ & W3 & L3 & G3).
  destruct (setConfigValue_parses Config.linearEnabled (Config.VBool enable) w2 w3 eq_refl G3) as (c3 & P3 & K3 & F3).
  unfold bind at 1. rewrite R1. unfold bind at 1. rewrite R2.
  unfold bind at 1. rewrite R3.
  assert (K3g : c3 Config.googleAiKey = Some (Config.VStr g)).
  { rewrite (F3 c2 _ P2) by discriminate. rewrite (F2 c1 _ P1) by discriminate.
    exact K1. }
  assert (K3h : c3 Config.githubToken = Some (Config.VStr h)).
  { rewrite (F3 c2 _ P2) by discriminate. exact K2. }
  destruct key as [key|].
  - destruct (setConfigValue_ok Config.linearApiKey (Config.VStr key) w3 W3)
      as (w4 & R4 & _ & E4 & _ & W4 & L4 & G4).
    destruct (setConfigValue_parses Config.linearApiKey (Config.VStr key) w3 w4 eq_refl G4) as (c4 & P4 & K4 & F4).
    exists w4. split; [exact R4|]. split; [congruence|]. split; [congruence|].
    exists c4. split; [exact P4|].
    rewrite !(F4 c3 _ P3) by discriminate. auto.
  - exists w3. split; [reflexivity|]. split; [congruence|]. split; [congruence|].
    exists c3. auto.
Qed.

(** X15.  [handleConfigInit] writes nothing unless both required keys are
    given: when the Google AI key or the GitHub token is blank it exits with
    code 1 and the files are as they were. *)
Theorem handleConfigInit_requires_both_keys
  (w : world) (googleAiKey githubToken : jstring) (rest : list reply) :
  script w = Types googleAiKey :: Types githubToken :: rest ->
  not_blank googleAiKey && not_blank githubToken = false ->
  exists w', handleConfigInit w = (Exited 1, w') /\ files w' = files w.
Proof.
  intros Hs Hb. destruct w as [gt fs e sc tr]. cbn in Hs. subst sc.
  unfold handleConfigInit, ask_text, log, bind, emit, next_reply, process_exit, ret.
  cbn [script trace git files env].
  destruct (not_blank googleAiKey); cbn [andb] in Hb;
    cbn [script trace git files env].
  - rewrite Hb. cbn [script trace git files env].
    eexists. split; reflexivity.
  - eexists. split; reflexivity.
Qed.

Lemma handleConfigInit_requires_both_keys_witness :
  exists w',
    handleConfigInit
      (start AI.clean_tree Config.no_files Config.sample_env
         [Types (str "AIza-key"); Types (str "   ")])
    = (Exited 1, w') /\
    files w' = files (start AI.clean_tree Config.no_files Config.sample_env
                        [Types (str "AIza-key"); Types (str "   ")]).
Proof.
  apply (handleConfigInit_requires_both_keys
           (start AI.clean_tree Config.no_files Config.sample_env
              [Types (str "AIza-key"); Types (str "   ")])
           (str "AIza-key") (str "   ") []).
  - reflexivity.
  - reflexivity.
Defined.

Lemma is_blank_not_blank s :
  not_blank s = true -> is_blank (Some (Config.VStr (trim s))) = false.
Proof.
  intros H. apply not_blank_trim in H. unfold not_blank in H. cbn [is_blank].
  now destruct (trim (trim s)).
Qed.

(** X16.  After [handleConfigInit] has run to its end, with a Google AI key
    and a GitHub token that are not blank, [validateRequiredConfig] holds
    and [getConfigValue] gives the trimmed keys and the answer about Linear
    (the global file can be written and there is no usable project-local
    file). *)
Theorem handleConfigInit_validateRequiredConfig
  (w : world) (googleAiKey githubToken linearApiKey : jstring) (enableLinear : bool)
  (rest : list reply) :
  script w = Types googleAiKey :: Types githubToken :: Confirms enableLinear
             :: Types linearApiKey :: rest ->
  not_blank googleAiKey = true -> not_blank githubToken = true ->
  Config.writable (files w) Config.GlobalConfigPath = true ->
  Config.unusable (files w) Config.LocalConfigPath ->
  exists w',
    handleConfigInit w = (Returned tt, w') /\
    validateRequiredConfig (files w') (env w') = true /\
    getConfigValue Config.googleAiKey (files w') (env w')
    = Some (Config.VStr (trim googleAiKey)) /\
    getConfigValue Config.githubToken (files w') (env w')
    = Some (Config.VStr (trim githubToken)) /\
    getConfigValue Config.linearEnabled (files w') (env w')
    = Some (Config.VBool enableLinear).
Proof.
  intros Hs Hg Hh Hw Hl. destruct w as [gt fs e sc tr]. cbn in Hs, Hw, Hl. subst sc.
  unfold handleConfigInit.
  set (writes := fun (k : option jstring) =>
     setConfigValue Config.googleAiKey (Config.VStr (trim googleAiKey)) ;;
     setConfigValue Config.githubToken (Config.VStr (trim githubToken)) ;;
     setConfigValue Config.linearEnabled (Config.VBool enableLinear) ;;
     match k with
     | Some key => setConfigValue Config.linearApiKey (Config.VStr key)
     | None => ret tt
     end).
  assert (Hend : forall k w0,
    files w0 = fs -> env w0 = e ->
    exists w',
      (setConfigValue Config.googleAiKey (Config.VStr (trim googleAiKey)) ;;
       setConfigValue Config.githubToken (Config.VStr (trim githubToken)) ;;
       setConfigValue Config.linearEnabled (Config.VBool enableLinear) ;;
       (match k with
        | Some key => setConfigValue Config.linearApiKey (Config.VStr key)
        | None => ret tt
        end) ;;
       log Success (str "Configuration saved successfully!") ;;
       handleConfigList) w0 = (Returned tt, w') /\
      validateRequiredConfig (files w') (env w') = true /\
      getConfigValue Config.googleAiKey (files w') (env w')
      = Some (Config.VStr (trim googleAiKey)) /\
      getConfigValue Config.githubToken (files w') (env w')
      = Some (Config.VStr (trim githubToken)) /\
      getConfigValue Config.linearEnabled (files w') (env w')
      = Some (Config.VBool enableLinear)).
  { intros k w0 Hf He.
    assert (Hw0 : Config.writable (files w0) Config.GlobalConfigPath = true)
      by now rewrite Hf.
    destruct (init_writes (trim googleAiKey) (trim githubToken) enableLinear k w0 Hw0)
      as (w1 & R & E1 & L1 & c & P & Kg & Kh & Ke).
    unfold bind in R.
    destruct (handleConfigList_files
                {| git := git w1; files := files w1; env := env w1;
                   script := script w1;
                   trace := trace w1 ++
                            [Logged Success (str "Configuration saved successfully!")] |})
      as (w2 & R2 & F2 & E2).
    cbn [files env] in F2, E2.
    exists w2. split.
    - unfold bind.
      destruct (setConfigValue Config.googleAiKey _ w0) as [[| | |] wa];
        try discriminate R.
      destruct (setConfigValue Config.githubToken _ wa) as [[| | |] wb];
        try discriminate R.
      destruct (setConfigValue Config.linearEnabled _ wb) as [[| | |] wc];
        try discriminate R.
      destruct (match k with
                | Some key => setConfigValue Config.linearApiKey (Config.VStr key)
                | None => ret tt
                end wc) as [[| | |] wd]; try discriminate R.
      injection R as _ ->. cbn [log emit]. exact R2.
    - assert (Hcfg : fst (Config.getConfig (files w2) (env w2)) = c).
      { rewrite F2. apply ConfigFacts.getConfig_global; [|exact P].
        apply (unusable_same_file fs); [|exact Hl]. now rewrite L1, Hf. }
      unfold validateRequiredConfig, getConfigValue. cbv zeta.
      rewrite Hcfg, collect_missing_eq, Kg, Kh.
      rewrite (is_blank_not_blank _ Hg), (is_blank_not_blank _ Hh).
      repeat split; assumption. }
  cbn -[setConfigValue handleConfigList not_blank trim str].
  rewrite Hg. cbn -[setConfigValue handleConfigList not_blank trim str].
  rewrite Hh. cbn -[setConfigValue handleConfigList not_blank trim str].
  destruct enableLinear; cbn -[setConfigValue handleConfigList not_blank trim str].
  - apply (Hend (if not_blank linearApiKey then Some (trim linearApiKey) else None));
      reflexivity.
  - apply (Hend None); reflexivity.
Qed.

Lemma handleConfigInit_validateRequiredConfig_witness :
  exists w',
    handleConfigInit
      (start AI.clean_tree Config.no_files Config.sample_env
         [Types (str " AIza-key "); Types (str "ghp_token"); Confirms false;
          Types []])
    = (Returned tt, w') /\
    validateRequiredConfig (files w') (env w') = true /\
    getConfigValue Config.googleAiKey (files w') (env w')
    = Some (Config.VStr (trim (str " AIza-key "))) /\
    getConfigValue Config.githubToken (files w') (env w')
    = Some (Config.VStr (trim (str "ghp_token"))) /\
    getConfigValue Config.linearEnabled (files w') (env w')
    = Some (Config.VBool false).
Proof.
  apply (handleConfigInit_validateRequiredConfig
           (start AI.clean_tree Config.no_files Config.sample_env
              [Types (str " AIza-key "); Types (str "ghp_token"); Confirms false;
               Types []])
           (str " AIza-key ") (str "ghp_token") [] false []).
  - reflexivity.
  - reflexivity.
  - reflexivity.
  - reflexivity.
  - left. reflexivity.
Defined.

Lemma toggle_writes b message w0 :
  Config.writable (files w0) Config.GlobalConfigPath = true ->
  Config.unusable (files w0) Config.LocalConfigPath ->
  exists w',
    ((setConfigValue Config.linearEnabled (Config.VBool b) ;;
      log Success message) ;;
     handleConfigList) w0 = (Returned tt, w') /\
    Config.isLinearEnabled (files w') (env w') = b.
Proof.
  intros Hw Hl.
  destruct (setConfigValue_ok Config.linearEnabled (Config.VBool b) w0 Hw)
    as (w1 & R1 & _ & E1 & _ & _ & L1 & G1).
  destruct (setConfigValue_parses Config.linearEnabled (Config.VBool b)
              w0 w1 eq_refl G1) as (c1 & P1 & K1 & _).
  unfold bind at 1. unfold bind at 1. rewrite R1. cbn [log emit].
  match goal with
  | |- context [handleConfigList ?w2] =>
      destruct (handleConfigList_files w2) as (w3 & R3 & F3 & E3)
  end.
  exists w3. split; [exact R3|].
  unfold Config.isLinearEnabled. rewrite F3. cbn [files].
  rewrite (ConfigFacts.getConfig_global (files w1) (env w3) c1).
  - unfold Config.linear_enabled_of. rewrite K1. now destruct b.
  - exact (unusable_same_file _ _ _ L1 Hl).
  - exact P1.
Qed.

(** X17.  When [handleConfigModify] is asked for the Linear integration and
    the answer is [b], [isLinearEnabled] is [b] afterwards (the global file
    can be written and there is no usable project-local file). *)
Theorem handleConfigModify_isLinearEnabled
  (w : world) (b : bool) (rest : list reply) :
  script w = Selects (str "linearEnabled") :: Confirms b :: rest ->
  Config.writable (files w) Config.GlobalConfigPath = true ->
  Config.unusable (files w) Config.LocalConfigPath ->
  exists w',
    handleConfigModify w = (Returned tt, w') /\
    Config.isLinearEnabled (files w') (env w') = b.
Proof.
  intros Hs Hw Hl. destruct w as [gt fs e sc tr]. cbn in Hs, Hw, Hl. subst sc.
  unfold handleConfigModify.
  cbn -[setConfigValue handleConfigList getConfig].
  unfold bind at 1. unfold bind at 1. rewrite getConfig_run.
  cbn -[setConfigValue handleConfigList Config.getConfig].
  apply toggle_writes; assumption.
Qed.

Lemma handleConfigModify_isLinearEnabled_witness :
  exists w',
    handleConfigModify
      (start AI.clean_tree Config.no_files Config.sample_env
         [Selects (str "linearEnabled"); Confirms false])
    = (Returned tt, w') /\
    Config.isLinearEnabled (files w') (env w') = false.
Proof.
  apply (handleConfigModify_isLinearEnabled
           (start AI.clean_tree Config.no_files Config.sample_env
              [Selects (str "linearEnabled"); Confirms false]) false []).
  - reflexivity.
  - reflexivity.
  - left. reflexivity.
Defined.

(** *** The required keys and the client of the generators *)

Lemma getConfigFromEnv_text_keys env k v :
  k <> Config.linearEnabled ->
  Config.getConfigFromEnv env k = Some v -> exists s, v = Config.VStr s.
Proof.
  intros Hk. unfold Config.getConfigFromEnv.
  cbn [Config.ENV_TO_CONFIG fold_left].
  destruct (env (str "GOOGLE_AI_KEY")) as [[|? ?]|];
  destruct (env (str "GH_TOKEN")) as [[|? ?]|];
  destruct (env (str "GITHUB_TOKEN")) as [[|? ?]|];
  destruct (env (str "LINEAR_API_KEY")) as [[|? ?]|];
  destruct (env (str "LINEAR_ENABLED")) as [[|? ?]|];
  destruct k; try congruence; cbn; intros [= <-]; eauto.
Qed.

Lemma getConfig_text_keys fs env k v :
  k <> Config.linearEnabled ->
  fst (Config.getConfig fs env) k = Some v -> exists s, v = Config.VStr s.
Proof.
  intros Hk. unfold Config.getConfig.
  assert (Hr : forall p c, fst (Config.readConfigFile fs p) = Some c ->
                           c k = Some v -> exists s, v = Config.VStr s).
  { intros p c. unfold Config.readConfigFile.
    destruct (Config.file fs p) as [[raw|j]|]; try discriminate.
    destruct (Config.configSchema_parse j) as [c0|] eqn:E; [|discriminate].
    cbn [fst]. intros [= <-] Hv.
    pose proof (parse_well_typed _ _ E k v Hv) as Hf.
    unfold fits in Hf. destruct v as [s|b]; [eauto|].
    destruct k; cbn in Hf; congruence. }
  destruct (Config.readConfigFile fs Config.LocalConfigPath) as [[l|] w1] eqn:El.
  - cbn [fst]. apply (Hr Config.LocalConfigPath). now rewrite El.
  - destruct (Config.readConfigFile fs Config.GlobalConfigPath) as [[g|] w2] eqn:Eg.
    + cbn [fst]. apply (Hr Config.GlobalConfigPath). now rewrite Eg.
    + cbn [fst]. now apply getConfigFromEnv_text_keys.
Qed.

(** X18.  When [validateRequiredConfig] holds, [getAI] finds its key: it
    returns the client and does not throw. *)
Theorem validateRequiredConfig_getAI (w : world) :
  validateRequiredConfig (files w) (env w) = true ->
  exists w', AI.getAI w = (Returned tt, w') /\
             files w' = files w /\ script w' = script w.
Proof.
  unfold validateRequiredConfig. cbv zeta. rewrite collect_missing_eq.
  intros H. unfold AI.getAI. unfold bind at 1. rewrite getConfig_run.
  destruct (fst (Config.getConfig (files w) (env w)) Config.googleAiKey)
    as [v|] eqn:E.
  - destruct (getConfig_text_keys (files w) (env w) Config.googleAiKey v
                ltac:(discriminate) E) as (s & ->).
    destruct s as [|c s]; [cbn in H; discriminate H|].
    eexists. split; [reflexivity|]. split; reflexivity.
  - cbn in H. discriminate H.
Qed.

Lemma validateRequiredConfig_getAI_witness :
  exists w',
    AI.getAI (start AI.clean_tree Config.no_files
                (fun name =>
                   if jstring_eqb name (str "GOOGLE_AI_KEY") then Some (str "AIza-key")
                   else if jstring_eqb name (str "GH_TOKEN") then Some (str "ghp_token")
                   else None) [])
    = (Returned tt, w') /\
    files w' = Config.no_files /\ script w' = [].
Proof.
  apply (validateRequiredConfig_getAI
           (start AI.clean_tree Config.no_files
              (fun name =>
                 if jstring_eqb name (str "GOOGLE_AI_KEY") then Some (str "AIza-key")
                 else if jstring_eqb name (str "GH_TOKEN") then Some (str "ghp_token")
                 else None) [])).
  reflexivity.
Defined.

End ConfigCommandsFacts.

(** ** Facts about numbers as text *)

Module JSNumbersFacts.
Import JS JSFacts JSNumbers.

Lemma digit_char_spec d :
  (d < 10)%N -> is_digit (digit_char d) = true /\ digit_val (digit_char d) = d.
Proof.
  intros H.
  assert (E : (d = 0 \/ d = 1 \/ d = 2 \/ d = 3 \/ d = 4 \/ d = 5 \/ d = 6 \/
               d = 7 \/ d = 8 \/ d = 9)%N) by lia.
  repeat (destruct E as [->|E]; [split; reflexivity|]). subst d. split; reflexivity.
Qed.

Lemma digits_of_app : forall fuel n acc,
  digits_of fuel n acc = digits_of fuel n [] ++ acc.
Proof.
  induction fuel as [|fuel IH]; intros n acc; [reflexivity|].
  cbn [digits_of]. destruct (n <? 10)%N; [reflexivity|].
  rewrite IH, (IH _ [_]), <- app_assoc. reflexivity.
Qed.

Lemma parse_digits_snoc s c :
  parse_digits (s ++ [c]) = (10 * parse_digits s + digit_val c)%N.
Proof. unfold parse_digits. now rewrite fold_left_app. Qed.

Lemma digits_of_S fuel n acc :
  digits_of (S fuel) n acc
  = if (n <? 10)%N then digit_char (n mod 10) :: acc
    else digits_of fuel (n / 10) (digit_char (n mod 10) :: acc).
Proof. reflexivity. Qed.

(** With enough fuel the digits are the decimal representation. *)
Lemma digits_of_spec : forall fuel n,
  (n < 2 ^ N.of_nat (S fuel))%N ->
  parse_digits (digits_of (S fuel) n []) = n /\
  forallb is_digit (digits_of (S fuel) n []) = true /\
  digits_of (S fuel) n [] <> [].
Proof.
  assert (Hsmall : forall fuel n, (n < 10)%N ->
            parse_digits (digits_of (S fuel) n []) = n /\
            forallb is_digit (digits_of (S fuel) n []) = true /\
            digits_of (S fuel) n [] <> []).
  { intros fuel n Hn. rewrite digits_of_S.
    rewrite (proj2 (N.ltb_lt n 10) Hn), (N.mod_small n 10 Hn).
    destruct (digit_char_spec n Hn) as [Hd Hv].
    unfold parse_digits. cbn [fold_left forallb]. rewrite Hd, Hv.
    split; [lia|]. split; [reflexivity|discriminate]. }
  induction fuel as [|fuel IH]; intros n Hn.
  - apply Hsmall. cbn in Hn. lia.
  - destruct (N.lt_ge_cases n 10) as [Hlt|Hge]; [now apply Hsmall|].
    rewrite (digits_of_S (S fuel)). rewrite (proj2 (N.ltb_ge n 10) Hge).
    rewrite digits_of_app.
    assert (Hdiv : (n / 10 < 2 ^ N.of_nat (S fuel))%N).
    { rewrite (Nat2N.inj_succ (S fuel)), N.pow_succ_r' in Hn.
      apply N.Div0.div_lt_upper_bound. lia. }
    destruct (IH (n / 10)%N Hdiv) as (Hp & Hd & Hne).
    assert (Hm : (n mod 10 < 10)%N) by (apply N.mod_lt; lia).
    destruct (digit_char_spec _ Hm) as [Hd' Hv'].
    repeat split.
    + rewrite parse_digits_snoc, Hp, Hv'. symmetry. apply N.div_mod. lia.
    + rewrite forallb_app, Hd. cbn [forallb]. now rewrite Hd'.
    + intros H. apply app_eq_nil in H as [_ H]. discriminate H.
Qed.

Lemma String_of_N_spec n :
  parse_digits (String_of_N n) = n /\
  forallb is_digit (String_of_N n) = true /\
  String_of_N n <> [].
Proof.
  unfold String_of_N. apply digits_of_spec.
  rewrite Nat2N.inj_succ, N2Nat.id, N.pow_succ_r'.
  pose proof (N.size_gt n). lia.
Qed.

End JSNumbersFacts.

(** ** Facts about starting and staging a release *)

Module ReleaseFlowFacts.
Import JS JSFacts IO IOFacts JSNumbers JSNumbersFacts Release ReleaseFacts ReleaseFlow.

(** *** The date *)

Lemma digits_of_enough : forall f1 f2 n acc,
  (n < 2 ^ N.of_nat (S f1))%N -> (n < 2 ^ N.of_nat (S f2))%N ->
  digits_of (S f1) n acc = digits_of (S f2) n acc.
Proof.
  induction f1 as [|f1 IH]; intros f2 n acc H1 H2.
  - rewrite !digits_of_S. cbn in H1.
    now rewrite (proj2 (N.ltb_lt n 10) ltac:(lia)).
  - rewrite (digits_of_S (S f1)), (digits_of_S f2).
    destruct (N.ltb_spec n 10) as [Hlt|Hge]; [reflexivity|].
    destruct f2 as [|f2]; [cbn in H2; lia|].
    apply IH.
    + rewrite (Nat2N.inj_succ (S f1)), N.pow_succ_r' in H1.
      apply N.Div0.div_lt_upper_bound. lia.
    + rewrite (Nat2N.inj_succ (S f2)), N.pow_succ_r' in H2.
      apply N.Div0.div_lt_upper_bound. lia.
Qed.

Lemma String_of_N_fuel n f :
  (n < 2 ^ N.of_nat (S f))%N -> String_of_N n = digits_of (S f) n [].
Proof.
  intros H. unfold String_of_N. apply digits_of_enough; [|exact H].
  rewrite Nat2N.inj_succ, N2Nat.id, N.pow_succ_r'.
  pose proof (N.size_gt n). lia.
Qed.

Lemma String_of_N_length n :
  ((n < 10)%N -> length (String_of_N n) = 1) /\
  ((10 <= n < 100)%N -> length (String_of_N n) = 2) /\
  ((1000 <= n < 10000)%N -> length (String_of_N n) = 4).
Proof.
  repeat split; intros H.
  - rewrite (String_of_N_fuel n 3) by (change (2 ^ N.of_nat 4)%N with 16%N; lia). rewrite digits_of_S.
    now rewrite (proj2 (N.ltb_lt n 10) ltac:(lia)).
  - rewrite (String_of_N_fuel n 6) by (change (2 ^ N.of_nat 7)%N with 128%N; lia). rewrite !digits_of_S.
    rewrite (proj2 (N.ltb_ge n 10) ltac:(lia)).
    assert (Hd : (n / 10 < 10)%N) by (apply N.Div0.div_lt_upper_bound; lia).
    now rewrite (proj2 (N.ltb_lt (n / 10) 10) Hd).
  - rewrite (String_of_N_fuel n 13) by (change (2 ^ N.of_nat 14)%N with 16384%N; lia). rewrite !digits_of_S.
    rewrite (proj2 (N.ltb_ge n 10) ltac:(lia)).
    assert (H1' : (100 <= n / 10)%N) by (apply N.div_le_lower_bound; lia).
    assert (H1 : (10 <= n / 10)%N) by lia.
    assert (H2 : (10 <= n / 10 / 10)%N) by (apply N.div_le_lower_bound; lia).
    assert (H3 : (n / 10 / 10 / 10 < 10)%N).
    { repeat (apply N.Div0.div_lt_upper_bound). lia. }
    rewrite (proj2 (N.ltb_ge _ 10) H1), (proj2 (N.ltb_ge _ 10) H2).
    now rewrite (proj2 (N.ltb_lt _ 10) H3).
Qed.

Lemma padStart_two n :
  (n < 100)%N ->
  length (padStart 2 "0" (String_of_N n)) = 2 /\
  forallb is_digit (padStart 2 "0" (String_of_N n)) = true.
Proof.
  intros H. destruct (String_of_N_spec n) as (_ & Hd & _).
  destruct (String_of_N_length n) as (L1 & L2 & _). unfold padStart.
  destruct (N.lt_ge_cases n 10) as [Hlt|Hge].
  - rewrite (L1 Hlt). cbn [Nat.sub repeat app length forallb].
    rewrite (L1 Hlt), Hd. split; reflexivity.
  - rewrite (L2 (conj Hge H)). cbn [Nat.sub repeat app].
    rewrite (L2 (conj Hge H)), Hd. split; reflexivity.
Qed.

Lemma test_date_pattern s :
  length s = 8 -> forallb is_digit s = true -> test date_pattern s = true.
Proof.
  intros Hl Hd.
  do 8 (destruct s as [|? s]; [discriminate Hl|]).
  destruct s; [|discriminate Hl].
  cbn [forallb] in Hd.
  repeat match goal with
         | H : _ && _ = true |- _ => apply andb_prop in H as [? H]
         end.
  unfold test, exec, date_pattern. cbn [exec_from]. unfold match_here.
  cbn [times rmatch pos rest caps Nat.eqb].
  repeat match goal with
         | H : is_digit ?c = true |- _ => rewrite H; clear H; cbn [rest pos caps]
         end.
  reflexivity.
Qed.

(** X19.  For a year of four digits, [getTodayDateFormat] is a text of eight
    digits, which the validator of the date prompt accepts. *)
Theorem getTodayDateFormat_eight_digits (today : Date) :
  (1000 <= getFullYear today < 10000)%N ->
  (getMonth today < 12)%N ->
  (1 <= getDate today <= 31)%N ->
  length (getTodayDateFormat today) = 8 /\
  forallb is_digit (getTodayDateFormat today) = true /\
  test date_pattern (getTodayDateFormat today) = true.
Proof.
  intros Hy Hm Hd. unfold getTodayDateFormat. cbv zeta.
  destruct (String_of_N_spec (getFullYear today)) as (_ & Dy & _).
  destruct (String_of_N_length (getFullYear today)) as (_ & _ & Ly).
  destruct (padStart_two (getMonth today + 1)) as [Lm Dm]; [lia|].
  destruct (padStart_two (getDate today)) as [Ld Dd]; [lia|].
  assert (L : length (String_of_N (getFullYear today)
                      ++ padStart 2 "0" (String_of_N (getMonth today + 1))
                      ++ padStart 2 "0" (String_of_N (getDate today))) = 8).
  { rewrite !length_app, (Ly Hy), Lm, Ld. reflexivity. }
  assert (D : forallb is_digit
                (String_of_N (getFullYear today)
                 ++ padStart 2 "0" (String_of_N (getMonth today + 1))
                 ++ padStart 2 "0" (String_of_N (getDate today))) = true).
  { rewrite !forallb_app, Dy, Dm, Dd. reflexivity. }
  split; [exact L|]. split; [exact D|]. now apply test_date_pattern.
Qed.

Lemma getTodayDateFormat_eight_digits_witness :
  length (getTodayDateFormat {| getFullYear := 2025; getMonth := 0; getDate := 6 |}) = 8 /\
  forallb is_digit
    (getTodayDateFormat {| getFullYear := 2025; getMonth := 0; getDate := 6 |}) = true /\
  test date_pattern
    (getTodayDateFormat {| getFullYear := 2025; getMonth := 0; getDate := 6 |}) = true.
Proof.
  apply (getTodayDateFormat_eight_digits
           {| getFullYear := 2025; getMonth := 0; getDate := 6 |});
    cbn; lia.
Defined.

(** *** The name of the new branch *)

Lemma getNextReleaseIncrement_positive o d :
  (1 <= Release.getNextReleaseIncrement o d)%N.
Proof.
  unfold Release.getNextReleaseIncrement. destruct o as [out|]; [|lia].
  cbv zeta. destruct (filter _ _); lia.
Qed.

(** X20.  The branch [startRelease] is about to create is not in the listing
    it read: no line of the output of [git branch -r] holds, after a remote
    prefix, the name [release/d.n] with the increment [n] that
    [getNextReleaseIncrement] returns.  This is for a date of one or more
    digits and a listing whose lines hold the text [release/] at most once,
    within the bounds of the numbers of the code: fewer than 65536 lines,
    and every number read below 2^53, so that [n] is at most 2^53 and
    [String(n)] is its decimal digits. *)
Theorem release_branch_name_is_new (d out : jstring) :
  d <> [] -> forallb is_digit d = true ->
  (forall b, In b (split_on LF out) -> count_sub (str "release/") b <= 1) ->
  Release.within_number_limits out ->
  forall b remote post,
    In b (split_on LF out) -> starts_with_digit post = false ->
    b <> remote
         ++ release_branch_name d (Release.getNextReleaseIncrement (Some out) d)
         ++ post.
Proof.
  intros Hd0 Hd Hone _ b remote post Hin Hpost Heq.
  set (n := Release.getNextReleaseIncrement (Some out) d) in *.
  destruct (String_of_N_spec n) as (Hp & Hdig & Hne).
  unfold release_branch_name in Heq. rewrite <- !app_assoc in Heq.
  assert (Hinc : increment_of b = n).
  { rewrite Heq. rewrite increment_unique; [|assumption..|].
    - destruct (take_while_app is_digit (String_of_N n) post Hdig) as [-> _];
        [|exact Hp].
      destruct post as [|c t]; [exact I|exact Hpost].
    - rewrite <- Heq. now apply Hone. }
  assert (Hkeep : In b (filter (fun b => includes b (str "release/" ++ d ++ str "."))
                          (split_on LF out))).
  { apply filter_In. split; [exact Hin|]. apply includes_spec.
    exists remote, (String_of_N n ++ post). rewrite Heq, <- !app_assoc. reflexivity. }
  assert (Hn : n = (list_max (map increment_of
                       (filter (fun b => includes b (str "release/" ++ d ++ str "."))
                          (split_on LF out))) + 1)%N).
  { unfold n, Release.getNextReleaseIncrement. cbv zeta.
    destruct (filter _ (split_on LF out)); [destruct Hkeep|reflexivity]. }
  pose proof (list_max_ge _ _ (in_map increment_of _ _ Hkeep)) as Hle.
  rewrite Hinc in Hle. lia.
Qed.

Lemma release_branch_name_is_new_witness :
  let d := str "20250106" in
  let out := str "  origin/main" ++ [LF]
             ++ str "  origin/release/20250106.1" ++ [LF]
             ++ str "  origin/release/20250106.12" in
  In (str "  origin/release/20250106.12") (split_on LF out) /\
  Release.getNextReleaseIncrement (Some out) d = 13%N /\
  str "  origin/release/20250106.12"
  <> str "  origin/"
     ++ release_branch_name d (Release.getNextReleaseIncrement (Some out) d)
     ++ [].
Proof.
  intros d out.
  assert (Hin : In (str "  origin/release/20250106.12") (split_on LF out))
    by (vm_compute; tauto).
  split; [exact Hin|]. split; [reflexivity|].
  apply (release_branch_name_is_new d out).
  - discriminate.
  - reflexivity.
  - intros b Hb. simpl in Hb.
    repeat (destruct Hb as [<-|Hb]; [vm_compute; lia|]). destruct Hb.
  - split; [vm_compute; reflexivity|].
    intros b Hb. simpl in Hb.
    repeat (destruct Hb as [<-|Hb]; [vm_compute; reflexivity|]). destruct Hb.
  - exact Hin.
  - reflexivity.
Defined.

(** *** The commands of the release workflows *)

Section Commands.

Variable P : event -> Prop.
Hypothesis P_Logged : forall l message, P (Logged l message).
Hypothesis P_Asked : forall q, P (Asked q).
Hypothesis P_Committed : forall files left_out, P (Committed files left_out).

Lemma cmd_execSync c : P (Exec c) -> IO.ht (fun _ => True) P (execSync c) any.
Proof.
  apply (ht_execSync (fun _ => True) P (fun _ _ => I) (fun _ _ => I) (fun _ _ => I)).
  intros g _ _. apply P_Committed.
Qed.

Lemma cmd_log l message : IO.ht (fun _ => True) P (log l message) any.
Proof. apply ht_log, P_Logged. Qed.

Lemma cmd_getCurrentBranch :
  P (Exec (str "git branch --show-current")) -> IO.ht (fun _ => True) P Commit.getCurrentBranch any.
Proof.
  intros H. unfold Commit.getCurrentBranch.
  apply (ht_runCommandCaptureOrThrow (fun _ => True) P (fun _ _ => I) (fun _ _ => I) (fun _ _ => I));
    [intros g _ _; apply P_Committed|exact H|exact P_Logged].
Qed.

Lemma cmd_never {A B} (m : M A) (f : A -> M B) (R : B -> Prop) :
  IO.ht (fun _ => True) P m (fun _ => False) -> IO.ht (fun _ => True) P (bind m f) R.
Proof. intros H. apply ht_bind with (Q := fun _ => False); [exact H|tauto]. Qed.

Lemma cmd_log_exit {A} l message code (Q : A -> Prop) :
  IO.ht (fun _ => True) P (log l message ;; process_exit code) Q.
Proof. apply ht_seq; [apply cmd_log|intros _; apply ht_exit]. Qed.

End Commands.

Ltac cmd_step :=
  first
    [ apply ht_ret; exact I
    | apply ht_exit
    | apply ht_throw
    | apply cmd_log; intros; exact I
    | apply ht_confirm; exact I
    | apply ht_ask_text; exact I
    | apply ht_seq; [|intros ?]
    | apply ht_try; [|intros ?] ].

Lemma ht_stageRelease :
  IO.ht (fun _ => True) stage_command stageRelease any.
Proof.
  assert (HL : forall l m, stage_command (Logged l m)) by (intros; exact I).
  assert (HC : forall f l, stage_command (Committed f l)) by (intros; exact I).
  unfold stageRelease.
  apply ht_seq; [now apply cmd_log|intros _].
  apply ht_seq; [apply cmd_getCurrentBranch; auto; now left|intros current_branch].
  destruct (starts_with (str "release/") current_branch) eqn:E.
  - apply ht_seq; [apply ht_ret; exact I|intros _].
    apply ht_seq; [now apply cmd_log|intros _].
    apply ht_try.
    + apply ht_seq; [apply cmd_execSync; auto; right; now exists current_branch|intros _].
      repeat cmd_step.
    + intros error. repeat cmd_step.
  - apply cmd_never. now apply cmd_log_exit.
Qed.


Lemma ht_getNextReleaseIncrement date :
  IO.ht (fun _ => True) release_command (getNextReleaseIncrement date)
    (fun n => (1 <= n)%N).
Proof.
  assert (HL : forall l m, release_command (Logged l m)) by (intros; exact I).
  assert (HC : forall f l, release_command (Committed f l)) by (intros; exact I).
  unfold getNextReleaseIncrement. apply ht_try.
  - apply ht_seq.
    + apply cmd_execSync; auto. left. cbn. tauto.
    + intros out. apply ht_ret. apply getNextReleaseIncrement_positive.
  - intros _. apply ht_ret. apply getNextReleaseIncrement_positive.
Qed.

Lemma ht_startRelease :
  IO.ht (fun _ => True) release_command startRelease any.
Proof.
  assert (HL : forall l m, release_command (Logged l m)) by (intros; exact I).
  assert (HC : forall f l, release_command (Committed f l)) by (intros; exact I).
  assert (HF : forall c,
            In c [str "git branch --show-current"; str "git fetch origin develop";
                  str "git checkout develop"; str "git pull origin develop";
                  str "git branch -r"] ->
            release_command (Exec c)) by (intros c H; now left).
  unfold startRelease.
  apply ht_seq; [now apply cmd_log|intros _].
  apply ht_seq; [apply cmd_getCurrentBranch; auto; apply HF; cbn; tauto
                |intros current_branch].
  apply ht_seq.
  { destruct (jstring_eqb current_branch (str "develop")); [apply ht_ret; exact I|].
    apply ht_seq; [now apply cmd_log|intros _].
    apply ht_seq; [apply ht_confirm; exact I|intros should_switch].
    destruct should_switch; [|now apply cmd_log_exit].
    apply ht_seq; [now apply cmd_log|intros _].
    apply ht_try; [|intros _; now apply cmd_log_exit].
    apply ht_seq; [apply cmd_execSync; auto; apply HF; cbn; tauto|intros _].
    apply ht_seq; [apply cmd_execSync; auto; apply HF; cbn; tauto|intros _].
    apply ht_seq; [apply cmd_execSync; auto; apply HF; cbn; tauto|intros _].
    now apply cmd_log. }
  intros _.
  apply ht_seq; [apply ht_ask_text; exact I|intros release_date].
  apply ht_bind with (Q := fun n => (1 <= n)%N);
    [apply ht_getNextReleaseIncrement|intros increment Hn].
  cbv zeta.
  apply ht_seq; [now apply cmd_log|intros _].
  apply ht_try.
  - apply ht_seq;
      [apply cmd_execSync; auto; right; exists release_date, increment; auto
      |intros _].
    apply ht_seq;
      [apply cmd_execSync; auto; right; exists release_date, increment; auto
      |intros _].
    repeat cmd_step.
  - intros error. repeat cmd_step.
Qed.


Lemma getCurrentBranch_run (w : world) (out : jstring) (rest : list reply) :
  script w = Prints out :: rest ->
  Commit.getCurrentBranch w
  = (Returned (trim out),
     {| git := git w; files := files w; env := env w; script := rest;
        trace := trace w ++ [Exec (str "git branch --show-current")] |}).
Proof. destruct w as [g fs e sc tr]. cbn. intros ->. reflexivity. Qed.

(** X23.  Away from develop, when the user declines to switch, [startRelease]
    exits with code 1; the query of the current branch is the only command
    it has run, and no further reply is read. *)
Theorem startRelease_declined
  (w : world) (branch_out : jstring) (rest : list reply) :
  script w = Prints branch_out :: Confirms false :: rest ->
  trim branch_out <> str "develop" ->
  exists w',
    startRelease w = (Exited 1, w') /\
    script w' = rest /\
    trace w'
    = trace w ++
      [Logged Start (str "Starting new release...");
       Exec (str "git branch --show-current");
       Logged Warning (str "You're currently on: " ++ trim branch_out);
       Asked (str "Switch to develop first?");
       Logged Warning (str "Release should branch from develop")].
Proof.
  intros Hs Hb. destruct w as [g fs e sc tr]. cbn in Hs. subst sc.
  assert (E : jstring_eqb (trim branch_out) (str "develop") = false).
  { destruct (jstring_eqb (trim branch_out) (str "develop")) eqn:E; [|reflexivity].
    now apply jstring_eqb_eq in E. }
  unfold startRelease.
  unfold bind at 1. cbn [log emit].
  unfold bind at 1.
  erewrite getCurrentBranch_run by reflexivity.
  cbn [git files env script trace]. rewrite E.
  cbn -[trim str app].
  eexists. split; [reflexivity|]. split; [reflexivity|].
  cbn [trace]. rewrite <- !app_assoc. reflexivity.
Qed.

Lemma startRelease_declined_witness :
  exists w',
    startRelease (start AI.clean_tree Config.no_files Config.sample_env
                    [Prints (str "feature/x" ++ [LF]); Confirms false])
    = (Exited 1, w') /\
    script w' = [] /\
    trace w'
    = trace (start AI.clean_tree Config.no_files Config.sample_env
               [Prints (str "feature/x" ++ [LF]); Confirms false]) ++
      [Logged Start (str "Starting new release...");
       Exec (str "git branch --show-current");
       Logged Warning (str "You're currently on: " ++ trim (str "feature/x" ++ [LF]));
       Asked (str "Switch to develop first?");
       Logged Warning (str "Release should branch from develop")].
Proof.
  apply (startRelease_declined
           (start AI.clean_tree Config.no_files Config.sample_env
              [Prints (str "feature/x" ++ [LF]); Confirms false])
           (str "feature/x" ++ [LF]) []).
  - reflexivity.
  - discriminate.
Defined.

End ReleaseFlowFacts.

(** ** Facts about the names of feature and hotfix branches *)

Module FeatureFacts.
Import JS JSFacts Linear LinearFacts Branches LinearShapes Feature.

Lemma replace_class_from p : forall s q,
  replace_all_from (Chr p) (str "-") q 0 s = map (dash_class p) s.
Proof.
  induction s as [|c t IH]; intros q; [reflexivity|].
  cbn [replace_all_from map]. unfold match_here.
  rewrite rmatch_chr. cbn [rest pos caps]. unfold dash_class at 1.
  destruct (p c).
  - cbn [pos]. rewrite succ_sub_self. cbn [str list_ascii_of_string app].
    now rewrite IH.
  - now rewrite IH.
Qed.

Lemma match_here_plus_class p q s :
  match_here (Plus (Chr p)) q s
  = match take_while p s with
    | [] => None
    | run => Some (MState (q + length run) (drop_while p s) no_caps)
    end.
Proof.
  unfold match_here. rewrite rmatch_plus_class.
  cbn [rest pos caps]. now rewrite try_runs_greedy by discriminate.
Qed.

Lemma replace_runs_from p : forall s,
  (forall q, replace_all_from (Plus (Chr p)) (str "-") q 0 s = squeeze p false s) /\
  (forall q, replace_all_from (Plus (Chr p)) (str "-") q
               (length (take_while p s)) s
             = squeeze p true s).
Proof.
  induction s as [|c t [IH0 IH1]]; [split; reflexivity|].
  assert (H0 : forall q, replace_all_from (Plus (Chr p)) (str "-") q 0 (c :: t)
                         = squeeze p false (c :: t)).
  { intros q. cbn [replace_all_from squeeze]. rewrite match_here_plus_class.
    cbn [take_while]. destruct (p c).
    - cbn [pos length].
      replace (q + S (length (take_while p t)) - q)
        with (S (length (take_while p t))) by lia.
      cbn [str list_ascii_of_string app]. now rewrite IH1.
    - now rewrite IH0. }
  split; [exact H0|].
  intros q. cbn [take_while squeeze]. destruct (p c) eqn:Ec.
  - cbn [length replace_all_from]. apply IH1.
  - cbn [length]. rewrite H0. cbn [squeeze]. now rewrite Ec.
Qed.

Lemma squeeze_dashes_eq : forall s r, squeeze_dashes r s = squeeze is_dash r s.
Proof.
  induction s as [|c t IH]; intros r; [reflexivity|].
  cbn [squeeze_dashes squeeze]. now rewrite !IH.
Qed.

Lemma kebab_description_eq description :
  kebab_description description
  = drop_edge_dashes
      (squeeze is_dash false
         (map (dash_class other_char)
            (squeeze is_space false (toLowerCase description)))).
Proof.
  unfold kebab_description, spaces_pattern, other_pattern, replace_all.
  rewrite (proj1 (replace_runs_from is_space _)), replace_class_from.
  fold (replace_all
          (map (dash_class other_char) (squeeze is_space false (toLowerCase description)))
          dashes_pattern (str "-")).
  rewrite replace_dashes, squeeze_dashes_eq.
  apply replace_edges.
Qed.

Lemma squeeze_sparse : forall s,
  sparse (squeeze is_dash false s) = true /\
  sparse (squeeze is_dash true s) = true /\
  starts_with_dash (squeeze is_dash true s) = false.
Proof.
  induction s as [|c t (IH0 & IH1 & IH2)]; [repeat split|].
  cbn [squeeze]. destruct (is_dash c) eqn:E.
  - repeat split; try assumption.
    cbn [sparse]. destruct (squeeze is_dash true t) as [|c' t'] eqn:Et; [reflexivity|].
    cbn [starts_with_dash] in IH2. rewrite IH2, IH1. now rewrite andb_false_r.
  - assert (H : sparse (c :: squeeze is_dash false t) = true).
    { cbn [sparse]. destruct (squeeze is_dash false t); [reflexivity|].
      now rewrite E, IH0. }
    repeat split; try exact H. exact E.
Qed.

Lemma squeeze_chars (q p : ascii -> bool) : q "-"%char = true ->
  forall s r, forallb q s = true -> forallb q (squeeze p r s) = true.
Proof.
  intros Hq. induction s as [|c t IH]; intros r H; [reflexivity|].
  cbn [forallb] in H. apply andb_prop in H as [Hc Ht]. cbn [squeeze].
  destruct (p c).
  - destruct r; [now apply IH|]. cbn [forallb]. now rewrite Hq, IH.
  - cbn [forallb]. now rewrite Hc, IH.
Qed.

Lemma dash_class_kebab c : kebab_char (dash_class other_char c) = true.
Proof.
  unfold dash_class, other_char, kebab_char, is_dash, is_char.
  destruct (is_lower c || is_digit c || Ascii.eqb c "-") eqn:E; [exact E|reflexivity].
Qed.

(** X24.  The description part of a feature or hotfix branch name is made of
    lower-case letters, digits and single hyphens, and neither starts nor
    ends with a hyphen, whatever the user typed. *)
Theorem kebab_description_well_formed (description : jstring) :
  forallb kebab_char (kebab_description description) = true /\
  sparse (kebab_description description) = true /\
  starts_with_dash (kebab_description description) = false /\
  starts_with_dash (rev (kebab_description description)) = false.
Proof.
  rewrite kebab_description_eq.
  set (s := squeeze is_dash false _).
  assert (Hs : sparse s = true) by apply squeeze_sparse.
  rewrite (sparse_trim _ Hs). apply trim_hyphens_shape; [|exact Hs].
  unfold s. apply squeeze_chars; [reflexivity|].
  rewrite forallb_forall. intros c Hc. apply in_map_iff in Hc as (c0 & <- & _).
  apply dash_class_kebab.
Qed.

Lemma kebab_char_plain c :
  kebab_char c = true ->
  lower_char c = c /\ is_space c = false /\ other_char c = false.
Proof.
  intros H. split; [|split].
  - revert H. destruct c as [[] [] [] [] [] [] [] []]; vm_compute; congruence.
  - revert H. destruct c as [[] [] [] [] [] [] [] []]; vm_compute; congruence.
  - unfold other_char. unfold kebab_char, is_dash, is_char in H. now rewrite H.
Qed.

Lemma squeeze_none p : forall s r,
  (forall c, In c s -> p c = false) -> squeeze p r s = s.
Proof.
  induction s as [|c t IH]; intros r H; [reflexivity|].
  cbn [squeeze]. rewrite (H c (or_introl eq_refl)).
  f_equal. apply IH. intros c' Hc'. apply H. now right.
Qed.

Lemma squeeze_sparse_fixed : forall s,
  sparse s = true ->
  squeeze is_dash false s = s /\
  (starts_with_dash s = false -> squeeze is_dash true s = s).
Proof.
  induction s as [|c t IH]; intros H; [split; reflexivity|].
  pose proof (sparse_tail _ _ H) as Ht. destruct (IH Ht) as [IH0 IH1].
  cbn [squeeze starts_with_dash]. destruct (is_dash c) eqn:E.
  - split; [|discriminate]. rewrite (is_dash_eq _ E). f_equal. apply IH1.
    cbn [sparse] in H. destruct t as [|c' t']; [reflexivity|].
    rewrite E in H. cbn [starts_with_dash]. destruct (is_dash c'); [discriminate H|reflexivity].
  - split; [now rewrite IH0|]. intros _. now rewrite IH0.
Qed.

Lemma drop_dashes_fixed s : starts_with_dash s = false -> drop_while is_dash s = s.
Proof. destruct s as [|c t]; [reflexivity|]. cbn. now intros ->. Qed.

(** X25.  A description that is already in kebab form (lower-case letters,
    digits and single hyphens, no hyphen at either end) is used as the user
    typed it. *)
Theorem kebab_description_fixed (description : jstring) :
  forallb kebab_char description = true ->
  sparse description = true ->
  starts_with_dash description = false ->
  starts_with_dash (rev description) = false ->
  kebab_description description = description.
Proof.
  intros Hc Hs Hh He. rewrite kebab_description_eq.
  rewrite forallb_forall in Hc.
  assert (E1 : toLowerCase description = description).
  { unfold toLowerCase. rewrite <- (map_id description) at 2.
    apply map_ext_in. intros c Hin. now apply kebab_char_plain, Hc. }
  rewrite E1.
  rewrite (squeeze_none is_space)
    by (intros c Hin; now apply kebab_char_plain, Hc).
  assert (E2 : map (dash_class other_char) description = description).
  { rewrite <- (map_id description) at 2. apply map_ext_in. intros c Hin.
    unfold dash_class.
    now destruct (kebab_char_plain c (Hc c Hin)) as (_ & _ & ->). }
  rewrite E2, (proj1 (squeeze_sparse_fixed _ Hs)), (sparse_trim _ Hs).
  unfold trim_hyphens.
  now rewrite (drop_dashes_fixed _ Hh), (drop_dashes_fixed _ He), rev_involutive.
Qed.

Lemma kebab_description_fixed_witness :
  kebab_description (str "add-user-auth2") = str "add-user-auth2".
Proof.
  apply (kebab_description_fixed (str "add-user-auth2")); reflexivity.
Defined.

Lemma feature_branch_name_some linear_id description :
  linear_id <> [] ->
  feature_branch_name (Some linear_id) description
  = str "feature/" ++ toLowerCase linear_id ++ str "-"
    ++ kebab_description description.
Proof. destruct linear_id; [congruence|reflexivity]. Qed.

(** X26.  With a Linear issue id of letters, a hyphen and digits, the branch
    that [startFeature] names is one in which [detectLinearIssue] finds
    that id again, in upper case. *)
Theorem detectLinearIssue_feature_branch_name
  (linear_id description l d : jstring) :
  linear_id = l ++ str "-" ++ d ->
  l <> [] -> forallb is_letter l = true ->
  d <> [] -> forallb is_digit d = true ->
  detectLinearIssue (feature_branch_name (Some linear_id) description)
  = Some (toUpperCase linear_id).
Proof.
  intros -> Hl0 Hl Hd0 Hd.
  rewrite feature_branch_name_some by (destruct l; [congruence|discriminate]).
  assert (E : str "feature/" ++ toLowerCase (l ++ str "-" ++ d) ++ str "-"
              ++ kebab_description description
              = str "feature" ++ str "/" ++ toLowerCase l ++ str "-" ++ d
                ++ str "-" ++ kebab_description description).
  { unfold toLowerCase. rewrite !map_app. fold (toLowerCase d).
    rewrite (toLowerCase_digits _ Hd), <- !app_assoc. reflexivity. }
  rewrite E.
  rewrite detectLinearIssue_first_slash; auto.
  - f_equal. unfold toUpperCase. rewrite !map_app.
    fold (toUpperCase (toLowerCase l)). now rewrite toUpperCase_toLowerCase.
  - destruct l; [congruence|discriminate].
  - now apply toLowerCase_letters.
Qed.

Lemma detectLinearIssue_feature_branch_name_witness :
  detectLinearIssue
    (feature_branch_name (Some (str "EV-123")) (str "Add user auth"))
  = Some (toUpperCase (str "EV-123")).
Proof.
  apply (detectLinearIssue_feature_branch_name
           (str "EV-123") (str "Add user auth") (str "EV") (str "123"));
    try reflexivity; discriminate.
Defined.

(** X27.  The branch [startFeature] names is a feature branch, whose base is
    develop; the branch [startHotfix] names is a hotfix branch, whose base
    is main. *)
Theorem branch_name_getBranchType
  (linear_id : option jstring) (description : jstring) :
  getBranchType (feature_branch_name linear_id description) = TFeature /\
  getBaseBranchFor (getBranchType (feature_branch_name linear_id description))
  = str "develop" /\
  getBranchType (hotfix_branch_name description) = THotfix /\
  getBaseBranchFor (getBranchType (hotfix_branch_name description)) = str "main".
Proof.
  assert (F : getBranchType (feature_branch_name linear_id description) = TFeature).
  { unfold feature_branch_name.
    destruct linear_id as [[|a x]|]; reflexivity. }
  assert (H : getBranchType (hotfix_branch_name description) = THotfix)
    by reflexivity.
  rewrite F, H. repeat split.
Qed.

End FeatureFacts.

(** ** Facts about the Linear content, the explanations and the guarded push *)

Module AssistantFacts.
Import JS JSFacts IO AI AIFacts AIContent Commit CommitFacts ConfigCommandsFacts.

Lemma linear_content_schema_valid j c :
  linear_content_schema j = Some c -> valid_linear_content c.
Proof.
  unfold linear_content_schema, valid_linear_content.
  destruct j as [| | | | |fields]; try discriminate.
  destruct (required_string 1 (Some 200) _) as [t|] eqn:Et; [|discriminate].
  destruct (required_string 1 None _) as [d|] eqn:Ed; [|discriminate].
  cbv zeta.
  apply required_string_length in Et, Ed.
  destruct (json_get (str "priority") fields) as [[| |p| | |]|];
    try discriminate;
    [destruct (p <=? 4)%N eqn:Ep; [apply N.leb_le in Ep|discriminate]|];
    (destruct (json_get (str "estimate") fields) as [[| |n| | |]|];
     try discriminate;
     [destruct (n <=? 6)%N eqn:En; [apply N.leb_le in En|discriminate]|];
     (destruct (json_get (str "suggested_label") fields) as [[| | |l| |]|];
      try discriminate;
      [destruct (existsb (jstring_eqb l) linear_labels) eqn:El; [|discriminate];
       apply existsb_exists in El as (x & Hx & Heq);
       apply jstring_eqb_eq in Heq; subst x|];
      intros [= <-]; cbn [lc_title lc_description priority estimate suggested_label];
      repeat split; try tauto; try lia;
      try (intros ? [= <-]; assumption); try discriminate)).
Qed.

(** X28.  Once the two commands that gather the staged changes have
    succeeded, [generateLinearContent] returns [null] or a content that
    satisfies the schema: a title of 1 to 200 characters, a description
    that is not empty, a priority of at most 4, an estimate of at most 6
    and a label of the fixed list.  It neither throws nor exits. *)
Theorem generateLinearContent_after_context
  (user_description : jstring) (g : git_state) (fs : Config.filesystem)
  (e : Config.environment) (out1 out2 : jstring) (rest : list reply) :
  returns_or_null valid_linear_content
    (fst (generateLinearContent user_description
            (start g fs e (Prints out1 :: Prints out2 :: rest)))).
Proof.
  unfold generateLinearContent, start, log, execSync, git_effect, bind, emit,
    next_reply, get_git, put_git, ret.
  cbn -[generate].
  eapply returns_or_null_weaken; [|apply generate_returns_or_null].
  intros c (j & Hj). exact (linear_content_schema_valid _ _ Hj).
Qed.

(** X29.  [explainError] never throws and never exits: whatever the
    configuration and the answer of the service, it returns [null] or an
    explanation that is not empty and has no white space at its ends. *)
Theorem explainError_returns_or_null (error_message : jstring) (w : world) :
  returns_or_null trimmed_text (fst (explainError error_message w)).
Proof.
  unfold explainError, getAI, request, log, IO.getConfig, try_catch, bind, emit,
    next_reply, ret, throw.
  destruct w as [g fs e scr tr]. cbn [git files env script trace].
  destruct (Config.getConfig fs e) as [config warnings].
  cbn [git files env script trace fst].
  destruct (config Config.googleAiKey) as [[[|k ks]|b]|]; cbn -[trim]; try exact I.
  destruct scr as [|r1 rest]; cbn -[trim]; [exact I|].
  assert (H : forall t, returns_or_null trimmed_text
                (Returned match trim t with [] => None | c :: u => Some (c :: u) end)).
  { intros t. destruct (trim t) as [|c u] eqn:E; [exact I|].
    split; [discriminate|]. rewrite <- E. apply trim_idempotent. }
  destruct r1; cbn -[trim]; try exact I; try apply H.
Qed.

(** X30.  Both places where the guarded revision of [commitWorkflow] builds
    a force push stand behind [isProtectedBranch]: whatever the replies,
    every command of the form [git push --force origin <branch>] in the
    trace has a [<branch>] that is not the text main, develop or staging.
    The command is compared as text. *)
Theorem Guarded_commitWorkflow_protects
  (g : git_state) (fs : Config.filesystem) (e : Config.environment)
  (replies : list reply) :
  Forall no_protected_force
    (trace (snd (Guarded.commitWorkflow (start g fs e replies)))).
Proof.
  apply Guarded_commitWorkflow_never_forces_protected. constructor.
Qed.

End AssistantFacts.
